(** * dev-graphql: the schema-driven query / mutation builder of [index.js]

    A shallow embedding of the command line client.  Every [async function]
    of the source becomes a computation in the monad [M]: it threads the
    process-wide state (the two introspection caches), consumes the replies
    of the outside world (the GraphQL endpoint, the operator at the prompt)
    and records what the program did to that world in a trace.  A JavaScript
    exception is the [Throw] completion; state changes made before a throw
    stay in place.

    Console output ([console.log], [console.error], [console.clear]) and the
    wall clock ([Date.now]) are not part of the model.

    The repository also holds an earlier revision of the file.  The
    introspection functions, [queryTreeToString] and the mutation commands
    read the same in both, apart from layout.  The earlier [runQuery] makes
    the same two error checks first and then reads
    [result.extensions.tracing] without a guard; the earlier [main] has no
    branch for a loaded file.  The model follows [index.js]. *)

From Stdlib Require Import String Ascii List ZArith QArith Lia Bool.
From stdpp Require Import gmap strings.
From stdpp Require Import sorting.
Import ListNotations.

Local Open Scope string_scope.
Local Open Scope list_scope.

(** ** Characters the source writes as escapes *)

Definition LF : string := String "010"%char EmptyString.
Definition DQ : string := String "034"%char EmptyString.

(** ** JavaScript primitives used by the program *)

Module JS.

(** What a [throw] carries.  [Error m] is [new Error(m)]; the other two
    are raised by the language itself.  [Rejected] is a promise of the
    outside world (the network, a prompt, the JSON decoder) that rejects. *)
Inductive exn :=
| Error (message : string)
| TypeError (message : string)
| ReferenceError (message : string)
| Rejected (source : string).

Inductive completion (A : Type) :=
| Return (a : A)
| Throw (e : exn).
Arguments Return {A} a.
Arguments Throw {A} e.

(** [" ".repeat(n)] *)
Fixpoint repeat (s : string) (n : nat) : string :=
  match n with
  | O => ""
  | S n' => s +:+ repeat s n'
  end.

(** [parts.join()]: the default separator is a comma. *)
Fixpoint join (sep : string) (parts : list string) : string :=
  match parts with
  | [] => ""
  | [p] => p
  | p :: rest => p +:+ sep +:+ join sep rest
  end.

(** [s.startsWith(search)] *)
Fixpoint startsWith (s search : string) {struct search} : bool :=
  match search, s with
  | EmptyString, _ => true
  | String _ _, EmptyString => false
  | String c search', String d s' =>
      if Ascii.eqb c d then startsWith s' search' else false
  end.

(** [s.includes(search)] *)
Fixpoint includes (s search : string) : bool :=
  if startsWith s search then true
  else match s with
       | EmptyString => false
       | String _ s' => includes s' search
       end.

(** Numbers as far as the program computes with them: an integer or NaN. *)
Inductive number :=
| NaN
| Num (z : Z).

Definition digit (c : ascii) : option Z :=
  let n := Z.of_nat (nat_of_ascii c) in
  if (48 <=? n)%Z && (n <=? 57)%Z then Some (n - 48)%Z else None.

Fixpoint digits (acc : Z) (s : string) : number :=
  match s with
  | EmptyString => Num acc
  | String c s' =>
      match digit c with
      | Some d => digits (10 * acc + d)%Z s'
      | None => NaN
      end
  end.

(** [Number(s)] on the strings this program can pass to it: the empty
    string is [0], an unsigned decimal literal is its value, and a string
    with any other character (such as the leading bracket of
    ["[object Object]"]) is [NaN]. *)
Definition StringToNumber (s : string) : number :=
  digits 0 s.

(** [a > b] on numbers: false as soon as one side is NaN. *)
Definition gt (a b : number) : bool :=
  match a, b with
  | Num x, Num y => (y <? x)%Z
  | _, _ => false
  end.

End JS.
Export JS.

(** ** What the GraphQL endpoint sends back *)

(** [{ name ofType { ... } }]: the [__Type] object of an introspection
    reply.  [name] is [null] for the List and NonNull wrappers; [ofType] is
    [null] for a named type and missing where the query did not select it. *)
Inductive typeObject :=
| TypeBare (name : option string)                      (* [{ name }] *)
| TypeNull (name : option string)                      (* [{ name, ofType: null }] *)
| TypeOf (name : option string) (ofType : typeObject). (* [{ name, ofType: {...} }] *)

(** [{ name }] of an argument. *)
Record inputValue := { arg_name : string }.

(** One element of [__type.fields]. *)
Record fieldObject := {
  field_name : string;
  field_type : typeObject;
  field_args : list inputValue
}.

(** A member of a decoded object, as reading it shows it: [undefined] where
    the object has no such member, [null], or a value. *)
Inductive member (A : Type) :=
| Missing
| Null
| Present (a : A).
Arguments Missing {A}.
Arguments Null {A}.
Arguments Present {A} a.

(** [result.data] as the introspection reads it: its [__type] member, and
    in that the [fields] member, [null] for a type without fields.  (A
    [data] that is no object has no [__type].) *)
Record dataObject := { __type : member (member (list fieldObject)) }.

(** A value as [JSON.parse] gives it.  An object is the list of its
    members in the order of the text, each key once; a number is its
    value. *)
#[warnings="-register-all"]
Inductive jsonValue :=
| JNull
| JBool (b : bool)
| JNumber (n : Q)
| JString (s : string)
| JArray (elements : list jsonValue)
| JObject (members : list (string * jsonValue)).

(** An error as the endpoint reports it: [{ message }]. *)
Record graphQLError := { message : string }.

Definition errorObject (e : graphQLError) : jsonValue :=
  JObject [("message", JString (message e))].

(** A decoded body that is not [null], by the members [runQuery] and its
    callers read: [errors] as it came ([None] where there is no such
    member) and [data].  (A body that is a number, a text or an array has
    neither.) *)
Record body := {
  errors : option jsonValue;
  data : member dataObject
}.

(** What [response.json()] decodes a text to. *)
Inductive decoded :=
| NullBody              (* the text [null] *)
| Body (b : body).

(** A reply of the endpoint: status line, raw text, and the value
    [response.json()] decodes it to ([None] when the text is not JSON). *)
Record response := {
  status : Z;
  text : string;
  json : option decoded
}.

(** [response.ok] of node-fetch: the status is in the range 200-299. *)
Definition ok (r : response) : bool :=
  (200 <=? status r)%Z && (status r <? 300)%Z.

(** ** The outside world and the process state *)

(** What the operator does at a prompt. *)
Inductive keys :=
| Pick (i : nat)              (* Select: submit on the i-th choice *)
| Tick (chosen : list nat)    (* MultiSelect: submit with these choices ticked *)
| Typed (value : string).     (* Input, Snippet: the text submitted *)

(** What the program did to the outside world, in order. *)
Inductive event :=
| Fetch (query : string)                  (* POST of [{ query }] to the endpoint *)
| ReadText                                (* [response.text()] *)
| ParseJson                               (* [response.json()] *)
| AskSelect (choices : list string)
| AskMultiSelect (choices : list string)
| AskSnippet (template : string) (fields : list string).

(** [{ fields, type }] or [{ type }] in [introspectionFieldsCache]. *)
Record cacheEntry := {
  entry_fields : option (list string);
  entry_type : string
}.

(** [{ name, args }] in [introspectionMuationCache]. *)
Record mutationDescriptor := {
  mutation_name : string;
  mutation_args : list inputValue
}.

(** The state of the process and of its surroundings.  The field cache is
    the object the source uses as a map from joined paths to entries; the
    properties such an object inherits ([toString] and the like) are left
    out, and a key without an entry of its own counts as absent.  The paths
    the program looks up are made of field names the endpoint has listed
    under the path above, which have entries of their own by then. *)
Record world := {
  introspectionFieldsCache : gmap string cacheEntry;
  introspectionMuationCache : option (list mutationDescriptor);
  network : list response;      (* the replies still to come *)
  terminal : list keys;         (* the operator's answers still to come *)
  trace : list event
}.

(** A process that has done nothing yet: empty caches, an empty trace. *)
Definition start (replies : list response) (answers : list keys) : world :=
  {| introspectionFieldsCache := ∅;
     introspectionMuationCache := None;
     network := replies;
     terminal := answers;
     trace := [] |}.

(** The world after the endpoint has served the replies down to [rest] and
    the program has added the events [es] to the trace. *)
Definition after (w : world) (rest : list response) (es : list event) : world :=
  {| introspectionFieldsCache := introspectionFieldsCache w;
     introspectionMuationCache := introspectionMuationCache w;
     network := rest;
     terminal := terminal w;
     trace := trace w ++ es |}.

Definition M (A : Type) : Type := world -> completion A * world.

Definition ret {A} (a : A) : M A := fun w => (Return a, w).

Definition throw {A} (e : exn) : M A := fun w => (Throw e, w).

Definition bind {A B} (c : M A) (k : A -> M B) : M B :=
  fun w =>
    match c w with
    | (Return a, w') => k a w'
    | (Throw e, w') => (Throw e, w')
    end.

Notation "x <- c ;; k" := (bind c (fun x => k))
  (at level 100, c at next level, right associativity).
Notation "c ;;; k" := (bind c (fun _ => k))
  (at level 100, right associativity).

Definition emit (e : event) : M unit :=
  fun w =>
    (Return tt,
     {| introspectionFieldsCache := introspectionFieldsCache w;
        introspectionMuationCache := introspectionMuationCache w;
        network := network w;
        terminal := terminal w;
        trace := trace w ++ [e] |}).

(** [fetch(url, { method: "POST", body: JSON.stringify({ query }) })]:
    the next reply of the endpoint; the promise rejects when there is none. *)
Definition fetch (query : string) : M response :=
  emit (Fetch query) ;;;
  fun w =>
    match network w with
    | [] => (Throw (Rejected "fetch"), w)
    | r :: rest =>
        (Return r,
         {| introspectionFieldsCache := introspectionFieldsCache w;
            introspectionMuationCache := introspectionMuationCache w;
            network := rest;
            terminal := terminal w;
            trace := trace w |})
    end.

(** [response.text()] *)
Definition response_text (r : response) : M string :=
  emit ReadText ;;; ret (text r).

(** [response.json()] *)
Definition response_json (r : response) : M decoded :=
  emit ParseJson ;;;
  match json r with
  | Some result => ret result
  | None => throw (Rejected "json")
  end.

(** A step that touches nothing of the world. *)
Definition lift {A} (c : completion A) : M A := fun w => (c, w).

(** ** Reading decoded values *)

(** [if (v)] *)
Definition ToBoolean (v : jsonValue) : bool :=
  match v with
  | JNull => false
  | JBool b => b
  | JNumber n => negb (Qeq_bool n 0)
  | JString s => negb (String.eqb s "")
  | JArray _ | JObject _ => true
  end.

Definition hasOwn (key : string) (members : list (string * jsonValue)) : bool :=
  existsb (fun m => String.eqb (fst m) key) members.

Fixpoint own (key : string) (members : list (string * jsonValue))
    : option jsonValue :=
  match members with
  | [] => None
  | (k, v) :: rest => if String.eqb k key then Some v else own key rest
  end.

(** [v.key] for a [v] that is not [null] and a [key] that no prototype
    defines: the member of an object, [undefined] on everything else. *)
Definition get (key : string) (v : jsonValue) : option jsonValue :=
  match v with
  | JObject members => own key members
  | _ => None
  end.

(** Whether a value can be turned into text, as a template literal does.
    An object goes through its [toString], which a decoded object has from
    its prototype unless a member of that name, never a function, is in
    the way; an array joins the texts of its elements. *)
Fixpoint printable (v : jsonValue) : bool :=
  match v with
  | JObject members => negb (hasOwn "toString" members)
  | JArray elements => forallb printable elements
  | _ => true
  end.

(** [for (const error of v)]: the elements of an array, the characters of
    a text; nothing else that [JSON.parse] gives can be iterated. *)
Definition iterate (v : jsonValue) : completion (list jsonValue) :=
  match v with
  | JArray elements => Return elements
  | JString s =>
      Return (map (fun c => JString (String c EmptyString)) (list_ascii_of_string s))
  | _ => Throw (TypeError "result.errors is not iterable")
  end.

(** [` - ${error.message}`] *)
Definition readMessage (error : jsonValue) : completion unit :=
  match error with
  | JNull => Throw (TypeError "Cannot read properties of null (reading 'message')")
  | _ =>
      match get "message" error with
      | Some m =>
          if printable m then Return tt
          else Throw (TypeError "Cannot convert object to primitive value")
      | None => Return tt
      end
  end.

(** An error whose message can be printed: it is not [null], and its
    [message], if it has one, can be turned into text. *)
Definition printableError (error : jsonValue) : Prop :=
  error <> JNull /\
  forall m, get "message" error = Some m -> printable m = true.

(** The loop over the errors: it ends at the first message that cannot be
    read. *)
Fixpoint readMessages (elements : list jsonValue) : completion unit :=
  match elements with
  | [] => Return tt
  | error :: rest =>
      match readMessage error with
      | Return _ => readMessages rest
      | Throw e => Throw e
      end
  end.

(** ** Query Runner *)

(** What [runQuery] does with the decoded reply. *)
Definition checkResult (result : decoded) : completion (member dataObject) :=
  match result with
  | NullBody => Throw (TypeError "Cannot read properties of null (reading 'errors')")
  | Body b =>
      match errors b with
      | Some errs =>
          if ToBoolean errs then
            match iterate errs with
            | Return elements =>
                match readMessages elements with
                | Return _ => Throw (Error "QueryError")
                | Throw e => Throw e
                end
            | Throw e => Throw e
            end
          else Return (data b)
      | None => Return (data b)
      end
  end.

Definition runQuery (query : string) (silent : bool) : M (member dataObject) :=
  response <- fetch query ;;
  if negb (ok response) then
    response_text response ;;;
    throw (Error "HTTPError")
  else
    result <- response_json response ;;
    lift (checkResult result).

(** ** Introspection *)

(** [if (x)] on a string or [null]: [null] and the empty string are falsy. *)
Definition truthy (name : option string) : option string :=
  match name with
  | Some (String c s) => Some (String c s)
  | _ => None
  end.

(** [JSON.stringify(type)] for a type object whose names need no escaping,
    as GraphQL names do not. *)
Fixpoint stringify (type : typeObject) : string :=
  let name_member (name : option string) :=
    "{" +:+ DQ +:+ "name" +:+ DQ +:+ ":" +:+
    match name with
    | Some n => DQ +:+ n +:+ DQ
    | None => "null"
    end in
  let ofType_member := "," +:+ DQ +:+ "ofType" +:+ DQ +:+ ":" in
  match type with
  | TypeBare name => name_member name +:+ "}"
  | TypeNull name => name_member name +:+ ofType_member +:+ "null}"
  | TypeOf name ofType =>
      name_member name +:+ ofType_member +:+ stringify ofType +:+ "}"
  end.

Fixpoint getTypeName (type : typeObject) : completion string :=
  match type with
  | TypeBare name | TypeNull name =>
      match truthy name with
      | Some n => Return n
      | None => Throw (Error ("Cannot get type for " +:+ stringify type))
      end
  | TypeOf name ofType =>
      match truthy name with
      | Some n => Return n
      | None => getTypeName ofType
      end
  end.

(** The selection the field query makes on [type]: [name], and [ofType]
    with the same selection again, [depth] times. *)
Fixpoint typeSelection (depth : nat) : string :=
  match depth with
  | O => "{ name }"
  | S d => "{ name ofType " +:+ typeSelection d +:+ "}"
  end.

(** How many [ofType] levels the field query of [introspectFields] asks for. *)
Definition ofTypeDepth : nat := 4.

(** The query text of [introspectFields] for the type named [type]. *)
Definition fieldsQuery (type : string) : string :=
  "query {  __type(name: " +:+ DQ +:+ type +:+ DQ +:+
  ") { name fields { name type " +:+ typeSelection ofTypeDepth +:+ "}}}".

(** The query text of [introspectMutations]. *)
Definition mutationsQuery : string :=
  "query {  __type(name: " +:+ DQ +:+ "Mutation" +:+ DQ +:+
  ") { name fields { name type { name ofType { name } } args { name } } }}".

Definition cacheLookup (key : string) : M (option cacheEntry) :=
  fun w => (Return (introspectionFieldsCache w !! key), w).

Definition cacheStore (key : string) (entry : cacheEntry) : M unit :=
  fun w =>
    (Return tt,
     {| introspectionFieldsCache := <[key := entry]> (introspectionFieldsCache w);
        introspectionMuationCache := introspectionMuationCache w;
        network := network w;
        terminal := terminal w;
        trace := trace w |}).

(** [path.join()] *)
Definition pathKey (path : list string) : string := join "," path.

(** The loop of [introspectFields] over the fields of the reply: every field
    gets a [{ type }] entry under the path extended by its name, and its name
    is pushed on [fields]. *)
Fixpoint recordFields (path : list string) (reply : list fieldObject)
    (fields : list string) : M (list string) :=
  match reply with
  | [] => ret fields
  | field :: rest =>
      match getTypeName (field_type field) with
      | Throw e => throw e
      | Return type =>
          cacheStore (pathKey (path ++ [field_name field]))
            {| entry_fields := None; entry_type := type |} ;;;
          recordFields path rest (fields ++ [field_name field])
      end
  end.

(** [result.__type?.fields ?? []] *)
Definition replyFields (result : member dataObject) : M (list fieldObject) :=
  match result with
  | Missing => throw (TypeError "Cannot read properties of undefined (reading '__type')")
  | Null => throw (TypeError "Cannot read properties of null (reading '__type')")
  | Present d =>
      match __type d with
      | Present (Present fs) => ret fs
      | _ => ret []
      end
  end.

(** [introspectFields], by recursion on the path read from its last element:
    [rpath] is the path reversed, so that [path.slice(0, -1)] is its tail. *)
Fixpoint introspectFields_from (rpath : list string) : M (list string) :=
  let path := rev rpath in
  cached <- cacheLookup (pathKey path) ;;
  match cached with
  | Some {| entry_fields := Some fields |} => ret fields
  | _ =>
      type <-
        match rpath with
        | [] => ret "Query"
        | _ :: rprev =>
            introspectFields_from rprev ;;;
            entry <- cacheLookup (pathKey path) ;;
            match entry with
            | None => throw (Error ("Failed to inspect " +:+ pathKey path))
            | Some e => ret (entry_type e)
            end
        end ;;
      result <- runQuery (fieldsQuery type) true ;;
      reply <- replyFields result ;;
      fields <- recordFields path reply [] ;;
      cacheStore (pathKey path) {| entry_fields := Some fields; entry_type := type |} ;;;
      ret fields
  end.

Definition introspectFields (path : list string) : M (list string) :=
  introspectFields_from (rev path).

Definition readMutationCache : M (option (list mutationDescriptor)) :=
  fun w => (Return (introspectionMuationCache w), w).

Definition writeMutationCache (ms : list mutationDescriptor) : M unit :=
  fun w =>
    (Return tt,
     {| introspectionFieldsCache := introspectionFieldsCache w;
        introspectionMuationCache := Some ms;
        network := network w;
        terminal := terminal w;
        trace := trace w |}).

(** [result.__type.fields] with the TypeErrors of reading through
    [undefined] and [null]. *)
Definition mutationFields (result : member dataObject) : M (list fieldObject) :=
  match result with
  | Missing => throw (TypeError "Cannot read properties of undefined (reading '__type')")
  | Null => throw (TypeError "Cannot read properties of null (reading '__type')")
  | Present d =>
      match __type d with
      | Missing =>
          throw (TypeError "Cannot read properties of undefined (reading 'fields')")
      | Null => throw (TypeError "Cannot read properties of null (reading 'fields')")
      | Present Missing =>
          throw (TypeError "Cannot read properties of undefined (reading 'map')")
      | Present Null => throw (TypeError "Cannot read properties of null (reading 'map')")
      | Present (Present fs) => ret fs
      end
  end.

(** [introspectMutations].  The result is [Some] list where the source
    returns the cache and [None] where it falls off its end ([undefined]). *)
Definition introspectMutations : M (option (list mutationDescriptor)) :=
  cache <- readMutationCache ;;
  match cache with
  | Some ms => ret (Some ms)
  | None =>
      result <- runQuery mutationsQuery true ;;
      fields <- mutationFields result ;;
      writeMutationCache
        (map (fun it => {| mutation_name := field_name it;
                           mutation_args := field_args it |}) fields) ;;;
      ret None
  end.

(** ** Query Commands *)

(** An operation tree: the object [{ key: { fields: {...} }, ... }], as the
    sequence [Object.entries] walks.  [Entry key fields rest] is the first
    entry [key: { fields }] followed by the remaining entries [rest];
    [NoEntry] is the empty object. *)
Inductive operationTree :=
| NoEntry
| Entry (key : string) (fields : operationTree) (rest : operationTree).

(** [Object.keys(fields).length] as a condition *)
Definition hasKeys (fields : operationTree) : bool :=
  match fields with
  | NoEntry => false
  | Entry _ _ _ => true
  end.

(** The inner function [addQuery] of [queryTreeToString]; the variable
    [queryString] it appends to is passed in and handed back. *)
Fixpoint addQuery (query : operationTree) (depth : nat) (queryString : string)
    : string :=
  match query with
  | NoEntry => queryString
  | Entry key fields rest =>
      let queryString := queryString +:+ (repeat " " depth +:+ key) in
      let queryString :=
        if hasKeys fields then
          let queryString := queryString +:+ (" {" +:+ LF) in
          let queryString := addQuery fields (depth + 2) queryString in
          queryString +:+ (repeat " " depth +:+ ("}" +:+ LF))
        else queryString +:+ LF in
      addQuery rest depth queryString
  end.

Definition queryTreeToString (query : operationTree) : string :=
  let queryString := "query {" +:+ LF in
  let queryString := addQuery query 2 queryString in
  queryString +:+ "}".

(** ** Prompts *)

Definition nextKeys : M keys :=
  fun w =>
    match terminal w with
    | [] => (Throw (Rejected "prompt"), w)
    | k :: rest =>
        (Return k,
         {| introspectionFieldsCache := introspectionFieldsCache w;
            introspectionMuationCache := introspectionMuationCache w;
            network := network w;
            terminal := rest;
            trace := trace w |})
    end.

(** [new Select({ choices }).run()]: one of the choices. *)
Definition Select (choices : list string) : M string :=
  emit (AskSelect choices) ;;;
  k <- nextKeys ;;
  match k with
  | Pick i =>
      match choices !! i with
      | Some choice => ret choice
      | None => throw (Rejected "prompt")
      end
  | _ => throw (Rejected "prompt")
  end.

(** [new MultiSelect({ choices }).run()]: the choices ticked. *)
Definition MultiSelect (choices : list string) : M (list string) :=
  emit (AskMultiSelect choices) ;;;
  k <- nextKeys ;;
  match k with
  | Tick chosen => ret (omap (fun i => choices !! i) chosen)
  | _ => throw (Rejected "prompt")
  end.

(** [(await new Snippet({ template, fields }).run()).result]: the template
    as the operator filled it in. *)
Definition Snippet (template : string) (fields : list string) : M string :=
  emit (AskSnippet template fields) ;;;
  k <- nextKeys ;;
  match k with
  | Typed result => ret result
  | _ => throw (Rejected "prompt")
  end.

(** ** Identifiers *)

(** The values an identifier of the session functions can stand for. *)
Inductive value :=
| Undefined
| Str (s : string)
| Binding.          (* a function or object bound at module level *)

Definition ofOption (name : option string) : value :=
  match name with
  | Some s => Str s
  | None => Undefined
  end.

(** The names [index.js] binds at module level: its imports, constants and
    function declarations.  The file is an ES module, so a name bound neither
    here nor locally nor on Node's global object is a ReferenceError. *)
Definition moduleScope : list string :=
  [ "fetch"; "randomBytes"; "color"; "enquirer";
    "AutoComplete"; "Input"; "Select"; "MultiSelect"; "Snippet"; "Confirm";
    "fs"; "readFileSync"; "writeFileSync"; "exec"; "spawnSync"; "path";
    "configPath"; "config"; "loadConfig"; "storeConfig"; "login"; "loginTemp";
    "runQuery"; "getTypeName"; "introspectionFieldsCache"; "introspectFields";
    "introspectionMuationCache"; "introspectMutations"; "queryTreeToString";
    "editQuery"; "storeQuery"; "storeQueryToFile"; "loadQuery"; "benchQuery";
    "executeQuery"; "buildQuery"; "editMutation"; "storeMutation";
    "loadMutation"; "executeMutation"; "buildMutation" ].

Fixpoint assoc (locals : list (string * value)) (x : string) : option value :=
  match locals with
  | [] => None
  | (y, v) :: rest => if String.eqb x y then Some v else assoc rest x
  end.

(** Evaluating the identifier [x] inside a function whose parameters and
    local variables are [locals]. *)
Definition identifier (locals : list (string * value)) (x : string) : M value :=
  match assoc locals x with
  | Some v => ret v
  | None =>
      if existsb (String.eqb x) moduleScope then ret Binding
      else throw (ReferenceError (x +:+ " is not defined"))
  end.

(** ** Mutation Commands *)

(** A [return f(...)] in tail position: the function the session goes on
    with, and its arguments. *)
Inductive call :=
| Call_executeQuery (queryString name : value)
| Call_executeMutation (mutationString name : value)
| Call_editMutation (queryString name : value)
| Call_storeMutation (queryString name : value)
| Call_buildMutation.

(** The choices of the menu after a mutation has run. *)
Definition mutationMenu : list string :=
  ["edit"; "store"; "exit"; "new mutation"].

(** [executeMutation]: [Some c] is [return c], [None] is a plain return. *)
Definition executeMutation (mutationString : string) (name : option string)
    : M (option call) :=
  runQuery mutationString false ;;;
  op <- Select mutationMenu ;;
  let locals :=
    [("mutationString", Str mutationString); ("name", ofOption name);
     ("op", Str op)] in
  if String.eqb op "rerun" then
    queryString <- identifier locals "queryString" ;;
    name <- identifier locals "name" ;;
    ret (Some (Call_executeMutation queryString name))
  else if String.eqb op "edit" then
    queryString <- identifier locals "queryString" ;;
    name <- identifier locals "name" ;;
    ret (Some (Call_editMutation queryString name))
  else if String.eqb op "new mutation" then
    ret (Some Call_buildMutation)
  else if String.eqb op "store" then
    queryString <- identifier locals "queryString" ;;
    name <- identifier locals "name" ;;
    ret (Some (Call_storeMutation queryString name))
  else if String.eqb op "exit" then
    ret None
  else ret None.

(** [Number(args)] for an array of argument objects: the array is first
    turned into a string, each object giving ["[object Object]"]. *)
Definition ArrayToNumber (args : list inputValue) : number :=
  StringToNumber (join "," (map (fun _ => "[object Object]") args)).

(** The template text [buildMutation] assembles. *)
Definition mutationTemplate (name : string) (chosenArgs : list string) : string :=
  let mutationString := "mutation {" +:+ LF +:+ "  " +:+ name +:+ "(" +:+ LF in
  let mutationString :=
    fold_left
      (fun mutationString arg =>
         mutationString +:+ ("    " +:+ arg +:+ ": ${" +:+ arg +:+ "}" +:+ LF))
      chosenArgs mutationString in
  mutationString +:+ ("  )" +:+ LF +:+ "}").

Definition buildMutation : M (option call) :=
  mutations <- introspectMutations ;;
  match mutations with
  | None => throw (TypeError "Cannot read properties of undefined (reading 'map')")
  | Some mutations =>
      mutationName <- Select (map mutation_name mutations) ;;
      match find (fun it => String.eqb (mutation_name it) mutationName) mutations with
      | None => throw (TypeError "Cannot read properties of undefined (reading 'args')")
      | Some mutation =>
          chosenArgs <-
            (if gt (ArrayToNumber (mutation_args mutation)) (Num 2) then
               MultiSelect (map arg_name (mutation_args mutation)) ;;;
               ret None
             else ret (Some (map arg_name (mutation_args mutation)))) ;;
          match chosenArgs with
          | None => throw (TypeError "chosenArgs is not iterable")
          | Some chosenArgs =>
              let mutationString :=
                mutationTemplate (mutation_name mutation) chosenArgs in
              mutationString <- Snippet mutationString chosenArgs ;;
              ret (Some (Call_executeMutation (Str mutationString) Undefined))
          end
      end
  end.

(** ** Main *)

(** How the branch of [main] for a loaded file ends. *)
Inductive loaded :=
| Session (c : call)     (* [load]: the session is awaited *)
| Finished.              (* [run]: [main] returns *)

(** The query branch of [main] on its own, to compare [mainLoaded] with. *)
Definition queryPath (op fileContent name : string) : M loaded :=
  if String.eqb op "load" then
    ret (Session (Call_executeQuery (Str fileContent) (Str name)))
  else if String.eqb op "run" then
    runQuery fileContent false ;;;
    ret Finished
  else throw (Error ("Unknown operation '" +:+ op +:+ "'")).

(** The branch of [main] that runs once the file is read and the login done:
    [op] is [process.argv[2]]. *)
Definition mainLoaded (op fileContent name : string) : M loaded :=
  if includes fileContent "query" then
    if String.eqb op "load" then
      ret (Session (Call_executeQuery (Str fileContent) (Str name)))
    else if String.eqb op "run" then
      runQuery fileContent false ;;;
      ret Finished
    else throw (Error ("Unknown operation '" +:+ op +:+ "'"))
  else if includes fileContent "mutation" then
    if String.eqb op "load" then
      ret (Session (Call_executeMutation (Str fileContent) (Str name)))
    else if String.eqb op "run" then
      runQuery fileContent false ;;;
      ret Finished
    else throw (Error ("Unknown operation '" +:+ op +:+ "'"))
  else throw (Error "Unknown Query type").

(** ** The layout the specification asks of a rendered query *)

(** One line of a document: its indentation and what follows it. *)
Record line := { indent : nat; content : string }.

Definition renderLine (l : line) : string :=
  repeat " " (indent l) +:+ content l.

(** The selection set as the specification words it: a leaf field is a bare
    name on a line of its own, a field with children is followed by a block
    in braces, and every nesting level adds two spaces. *)
Fixpoint selectionLines (level : nat) (query : operationTree) : list line :=
  match query with
  | NoEntry => []
  | Entry key fields rest =>
      (match fields with
       | NoEntry => [{| indent := 2 * level; content := key |}]
       | Entry _ _ _ =>
           [{| indent := 2 * level; content := key +:+ " {" |}]
           ++ selectionLines (S level) fields
           ++ [{| indent := 2 * level; content := "}" |}]
       end) ++ selectionLines level rest
  end.

Definition documentLines (query : operationTree) : list line :=
  [{| indent := 0; content := "query {" |}]
  ++ selectionLines 1 query
  ++ [{| indent := 0; content := "}" |}].

(** The lines of the document, separated by line feeds. *)
Definition document (query : operationTree) : string :=
  join LF (map renderLine (documentLines query)).

(** The text of a list of lines, each ended by a line feed. *)
Fixpoint linesText (ls : list line) : string :=
  match ls with
  | [] => ""
  | l :: rest => renderLine l +:+ (LF +:+ linesText rest)
  end.

(** Reading a text one character at a time, from a state, until the text
    ends or a character is refused. *)
Section Scan.
Context {state : Type} (step : state -> ascii -> option state).

Fixpoint scan (st : state) (s : string) : option state :=
  match s with
  | EmptyString => Some st
  | String c s' =>
      match step st c with
      | Some st' => scan st' s'
      | None => None
      end
  end.
End Scan.

(** Braces: the state is the number of braces open; a closing brace with
    none open is refused. *)
Definition braceStep (open : nat) (c : ascii) : option nat :=
  if Ascii.eqb c "{" then Some (S open)
  else if Ascii.eqb c "}" then
    match open with
    | O => None
    | S o => Some o
    end
  else Some open.

Definition balanced (s : string) : Prop :=
  scan braceStep 0 s = Some 0.

(** Blocks: the state tells whether only blanks were read since the last
    opening brace; a closing brace is refused in that state. *)
Definition blockStep (fresh : bool) (c : ascii) : option bool :=
  if Ascii.eqb c "{" then Some true
  else if Ascii.eqb c "}" then (if fresh then None else Some false)
  else if Ascii.eqb c " " || Ascii.eqb c "010" then Some fresh
  else Some false.

Definition noEmptyBlock (s : string) : Prop :=
  is_Some (scan blockStep false s).

(** Indentation: the state is the number of braces open and, while a line
    has shown only spaces so far, their count.  The first other character
    of a line is refused unless the line is indented by two spaces for every
    brace open around it (a closing brace counts as outside its own block). *)
Definition leadIs (lead : option nat) (n : nat) : bool :=
  match lead with
  | Some m => Nat.eqb m n
  | None => true
  end.

Definition indentStep (st : nat * option nat) (c : ascii)
    : option (nat * option nat) :=
  let (open, lead) := st in
  if Ascii.eqb c " " then Some (open, option_map S lead)
  else if Ascii.eqb c "010" then Some (open, Some 0)
  else if Ascii.eqb c "{" then
    if leadIs lead (2 * open) then Some (S open, None) else None
  else if Ascii.eqb c "}" then
    if leadIs lead (2 * Nat.pred open) then Some (Nat.pred open, None) else None
  else
    if leadIs lead (2 * open) then Some (open, None) else None.

Definition indentedByTwo (s : string) : Prop :=
  is_Some (scan indentStep (0, Some 0) s).

(** Field names without blanks and braces, as every GraphQL name is. *)
Definition nameChar (c : ascii) : bool :=
  negb (Ascii.eqb c " " || Ascii.eqb c "010" || Ascii.eqb c "{" || Ascii.eqb c "}").

Fixpoint allChars (allowed : ascii -> bool) (s : string) : bool :=
  match s with
  | EmptyString => true
  | String c s' => allowed c && allChars allowed s'
  end.

Definition plainName (s : string) : bool :=
  match s with
  | EmptyString => false
  | String _ _ => allChars nameChar s
  end.

Fixpoint plainNames (query : operationTree) : bool :=
  match query with
  | NoEntry => true
  | Entry key fields rest =>
      plainName key && plainNames fields && plainNames rest
  end.

(** ** The types of a schema, and what the endpoint answers about them *)

(** A type as the schema declares it: a named type under any number of List
    and NonNull wrappers. *)
Inductive schemaType :=
| Named (name : string)
| ListOf (inner : schemaType)
| NonNull (inner : schemaType).



(** The object a GraphQL endpoint returns for [t] under the selection
    [typeSelection depth]: wrappers have a null [name], a named type has a
    null [ofType], and below the last selected level there is no [ofType]. *)
Fixpoint answerType (depth : nat) (t : schemaType) : typeObject :=
  match t with
  | Named name =>
      match depth with
      | O => TypeBare (Some name)
      | S _ => TypeNull (Some name)
      end
  | ListOf inner | NonNull inner =>
      match depth with
      | O => TypeBare None
      | S d => TypeOf None (answerType d inner)
      end
  end.

(** ** Sessions: the field cache over many calls *)

(** A name the endpoint can give a field: not empty and without a comma
    (GraphQL names are letters, digits and underscores). *)
Definition validName (n : string) : bool :=
  match n with
  | EmptyString => false
  | String _ _ => allChars (fun c => negb (Ascii.eqb c ",")) n
  end.

Definition validPath (path : list string) : Prop :=
  Forall (fun n => validName n = true) path.

(** A reply whose fields, if it lists any, have valid names. *)
Definition validReply (r : response) : Prop :=
  match json r with
  | Some (Body {| data := Present {| __type := Present (Present fs) |} |}) =>
      Forall (fun f => validName (field_name f) = true) fs
  | _ => True
  end.

(** The entry under [key] has its fields, and they are [fields]. *)
Definition populated (w : world) (key : string) (fields : list string) : Prop :=
  exists type,
    introspectionFieldsCache w !! key =
    Some {| entry_fields := Some fields; entry_type := type |}.

Definition isPopulated (w : world) (key : string) : Prop :=
  exists fields, populated w key fields.

(** The shape the cache has in a session: a path has its fields only if the
    path above it has. *)
Definition closed (w : world) : Prop :=
  forall path n,
    validPath (path ++ [n]) ->
    isPopulated w (pathKey (path ++ [n])) -> isPopulated w (pathKey path).

(** What a call on [path] may do to the cache of a session: the shape is
    kept, the replies still to come are untouched, populated entries keep
    their fields, and an entry newly populated belongs to [path] or to a
    path above it. *)
Definition stable (path : list string) (w w' : world) : Prop :=
  closed w' /\
  Forall validReply (network w') /\
  (forall key fields, populated w key fields -> populated w' key fields) /\
  (forall key, isPopulated w' key ->
     isPopulated w key \/
     exists above below, path = above ++ below /\ key = pathKey above).

(** The world after calls of [introspectFields] on the paths of [paths],
    one after the other, whether they return or throw. *)
Fixpoint session (paths : list (list string)) (w : world) : world :=
  match paths with
  | [] => w
  | path :: rest => session rest (snd (introspectFields path w))
  end.

(** ** Worlds, replies and documents used as examples *)

(** A JSON string literal of a text that needs no escaping. *)
Definition quoted (s : string) : string := DQ +:+ s +:+ DQ.

(** The tree [{ user: { fields: { id: { fields: {} } } } }]. *)
Definition userId : operationTree :=
  Entry "user" (Entry "id" NoEntry NoEntry) NoEntry.

(** The reply [{ errors: [{ message: "X" }] }] with status 200. *)
Definition errorsReply : response :=
  {| status := 200;
     text := "{" +:+ quoted "errors" +:+ ":[{" +:+ quoted "message" +:+ ":"
             +:+ quoted "X" +:+ "}]}";
     json := Some (Body {| errors := Some (JArray [errorObject {| message := "X" |}]); data := Missing |}) |}.

(** The reply [{ errors: [null] }] with status 200. *)
Definition nullErrorReply : response :=
  {| status := 200;
     text := "{" +:+ quoted "errors" +:+ ":[null]}";
     json := Some (Body {| errors := Some (JArray [JNull]); data := Missing |}) |}.

(** The reply [null] with status 200. *)
Definition nullReply : response :=
  {| status := 200; text := "null"; json := Some NullBody |}.

(** A reply with status 500. *)
Definition serverErrorReply : response :=
  {| status := 500; text := "Internal Server Error"; json := None |}.

(** The type [[String!]!], under three wrappers. *)
Definition stringList : schemaType :=
  NonNull (ListOf (NonNull (Named "String"))).

(** The type [[[[String!]!]!]], under six wrappers. *)
Definition stringCube : schemaType :=
  ListOf (NonNull (ListOf (NonNull (ListOf (NonNull (Named "String")))))).

(** A mutation document that mentions a query in a field name. *)
Definition resetQueries : string := "mutation { queryReset }".

(** The reply [{ data: {} }] with status 200. *)
Definition emptyDataReply : response :=
  {| status := 200;
     text := "{" +:+ quoted "data" +:+ ":{}}";
     json := Some (Body {| errors := None; data := Present {| __type := Missing |} |}) |}.

(** The field of the [Mutation] type of a schema whose single mutation is
    [createUser(email, name, password)], as the mutation query shows it. *)
Definition createUser : fieldObject :=
  {| field_name := "createUser";
     field_type := TypeOf None (TypeBare (Some "User"));
     field_args := [{| arg_name := "email" |}; {| arg_name := "name" |};
                    {| arg_name := "password" |}] |}.

(** The reply of that endpoint to the mutation query. *)
Definition mutationsReply : response :=
  {| status := 200;
     text := "{" +:+ quoted "data" +:+ ":{" +:+ quoted "__type" +:+ ":{"
             +:+ quoted "name" +:+ ":" +:+ quoted "Mutation" +:+ ","
             +:+ quoted "fields" +:+ ":[{"
             +:+ quoted "name" +:+ ":" +:+ quoted "createUser" +:+ ","
             +:+ quoted "type" +:+ ":{" +:+ quoted "name" +:+ ":null,"
             +:+ quoted "ofType" +:+ ":{" +:+ quoted "name" +:+ ":"
             +:+ quoted "User" +:+ "}},"
             +:+ quoted "args" +:+ ":[{"
             +:+ quoted "name" +:+ ":" +:+ quoted "email" +:+ "},{"
             +:+ quoted "name" +:+ ":" +:+ quoted "name" +:+ "},{"
             +:+ quoted "name" +:+ ":" +:+ quoted "password" +:+ "}]}]}}}";
     json := Some (Body {| errors := None;
                     data := Present {| __type := Present (Present [createUser]) |} |}) |}.

(** The descriptor [introspectMutations] keeps of it. *)
Definition createUserDescriptor : mutationDescriptor :=
  {| mutation_name := "createUser";
     mutation_args := [{| arg_name := "email" |}; {| arg_name := "name" |};
                       {| arg_name := "password" |}] |}.

(** The world once the first call of [introspectMutations] is over. *)
Definition warmed (answers : list keys) : world :=
  {| introspectionFieldsCache := ∅;
     introspectionMuationCache := Some [createUserDescriptor];
     network := [];
     terminal := answers;
     trace := [Fetch mutationsQuery; ParseJson] |}.

(** The template for [createUser] with every argument as a placeholder. *)
Definition createUserTemplate : string :=
  "mutation {" +:+ LF +:+
  "  createUser(" +:+ LF +:+
  "    email: ${email}" +:+ LF +:+
  "    name: ${name}" +:+ LF +:+
  "    password: ${password}" +:+ LF +:+
  "  )" +:+ LF +:+
  "}".

(** The reply to the field query for a [Query] type with the one field
    [user: User]. *)
Definition queryTypeReply : response :=
  {| status := 200;
     text := "{" +:+ quoted "data" +:+ ":{" +:+ quoted "__type" +:+ ":{"
             +:+ quoted "name" +:+ ":" +:+ quoted "Query" +:+ ","
             +:+ quoted "fields" +:+ ":[{"
             +:+ quoted "name" +:+ ":" +:+ quoted "user" +:+ ","
             +:+ quoted "type" +:+ ":{" +:+ quoted "name" +:+ ":"
             +:+ quoted "User" +:+ "," +:+ quoted "ofType" +:+ ":null}}]}}}";
     json := Some (Body {| errors := None;
                     data := Present {| __type := Present (Present
                       [{| field_name := "user";
                           field_type := TypeNull (Some "User");
                           field_args := [] |}]) |} |}) |}.

(** The reply for a [Query] type whose one field [cube] has the type
    [stringCube]: the selection ends at the fifth wrapper. *)
Definition cubeReply : response :=
  {| status := 200;
     text := "{" +:+ quoted "data" +:+ ":{" +:+ quoted "__type" +:+ ":{"
             +:+ quoted "name" +:+ ":" +:+ quoted "Query" +:+ ","
             +:+ quoted "fields" +:+ ":[{"
             +:+ quoted "name" +:+ ":" +:+ quoted "cube" +:+ ","
             +:+ quoted "type" +:+ ":"
             +:+ stringify (answerType ofTypeDepth stringCube) +:+ "}]}}}";
     json := Some (Body {| errors := None;
                     data := Present {| __type := Present (Present
                       [{| field_name := "cube";
                           field_type := answerType ofTypeDepth stringCube;
                           field_args := [] |}]) |} |}) |}.

(** The reply to the field query for a [User] type with the one field
    [id: ID!]. *)
Definition userTypeReply : response :=
  {| status := 200;
     text := "{" +:+ quoted "data" +:+ ":{" +:+ quoted "__type" +:+ ":{"
             +:+ quoted "name" +:+ ":" +:+ quoted "User" +:+ ","
             +:+ quoted "fields" +:+ ":[{"
             +:+ quoted "name" +:+ ":" +:+ quoted "id" +:+ ","
             +:+ quoted "type" +:+ ":"
             +:+ stringify (answerType ofTypeDepth (NonNull (Named "ID")))
             +:+ "}]}}}";
     json := Some (Body {| errors := None;
                     data := Present {| __type := Present (Present
                       [{| field_name := "id";
                           field_type := answerType ofTypeDepth (NonNull (Named "ID"));
                           field_args := [] |}]) |} |}) |}.

(** The world after the root path has been introspected once. *)
Definition rootKnown : world :=
  {| introspectionFieldsCache :=
       <["" := {| entry_fields := Some ["user"]; entry_type := "Query" |}]>
         (<["user" := {| entry_fields := None; entry_type := "User" |}]> ∅);
     introspectionMuationCache := None;
     network := [];
     terminal := [];
     trace := [Fetch (fieldsQuery "Query"); ParseJson] |}.

(** ** Counting requests *)

(** How many requests a list of events holds. *)
Fixpoint fetches (es : list event) : nat :=
  match es with
  | [] => 0
  | Fetch _ :: rest => S (fetches rest)
  | _ :: rest => fetches rest
  end.

(** ** The placeholder lines of a mutation template *)

(** The line [buildMutation] adds to the template for one argument. *)
Definition placeholderLine (arg : string) : string :=
  "    " +:+ arg +:+ ": ${" +:+ arg +:+ "}" +:+ LF.

(** The descriptor [introspectMutations] makes of a field of the
    [Mutation] type. *)
Definition descriptorOf (it : fieldObject) : mutationDescriptor :=
  {| mutation_name := field_name it; mutation_args := field_args it |}.

(** The placeholder lines of a list of arguments, one after the other. *)
Fixpoint placeholderLines (args : list string) : string :=
  match args with
  | [] => ""
  | arg :: rest => placeholderLine arg +:+ placeholderLines rest
  end.

(** The field [id: ID!] as the field query shows it. *)
Definition idField : fieldObject :=
  {| field_name := "id";
     field_type := answerType ofTypeDepth (NonNull (Named "ID"));
     field_args := [] |}.

(** The world in which the root path is known and the endpoint is about to
    answer with [userTypeReply]. *)
Definition userNext : world :=
  {| introspectionFieldsCache := introspectionFieldsCache rootKnown;
     introspectionMuationCache := None;
     network := [userTypeReply];
     terminal := [];
     trace := trace rootKnown |}.

(** ** Query Commands: the session *)

(** A [return f(...)] in tail position of the query session. *)
Inductive queryCall :=
| Query_executeQuery (queryString name : value)
| Query_editQuery (queryString name : value)
| Query_buildQuery
| Query_storeQuery (queryString name : value)
| Query_storeQueryToFile (queryString name : value)
| Query_benchQuery (queryString name : value).






(** ** Query Commands: the builder *)

(** [acc[it].fields] on an operation tree: the fields of the entry under
    [it], if there is one. *)
Fixpoint fieldsOf (it : string) (acc : operationTree) : option operationTree :=
  match acc with
  | NoEntry => None
  | Entry key fields rest =>
      if String.eqb key it then Some fields else fieldsOf it rest
  end.

(** [path.reduce((acc, it) => acc[it].fields, query)]: the node a path
    leads to; [None] where the source reads [fields] of [undefined]. *)
Fixpoint nodeAt (path : list string) (query : operationTree)
    : option operationTree :=
  match path with
  | [] => Some query
  | it :: path' =>
      match fieldsOf it query with
      | Some fields => nodeAt path' fields
      | None => None
      end
  end.

(** [parentNode[field] = { fields: {} }]: an entry that is there gets the
    new value in its place, a new entry goes to the end.  (Names that are
    array indices would be ordered first, and [__proto__] would set the
    prototype and add no entry; GraphQL names start with a letter or an
    underscore, and those with two underscores are kept for introspection.) *)
Fixpoint setField (field : string) (parentNode : operationTree) : operationTree :=
  match parentNode with
  | NoEntry => Entry field NoEntry NoEntry
  | Entry key fields rest =>
      if String.eqb key field then Entry key NoEntry rest
      else Entry key fields (setField field rest)
  end.

(** The change [change] made to the fields of the entry under [it]. *)
Fixpoint changeFields (it : string) (change : operationTree -> operationTree)
    (acc : operationTree) : operationTree :=
  match acc with
  | NoEntry => NoEntry
  | Entry key fields rest =>
      if String.eqb key it then Entry key (change fields) rest
      else Entry key fields (changeFields it change rest)
  end.

(** The assignment [parentNode[field] = { fields: {} }] seen from the root
    of the tree, [parentNode] being the node [path] leads to. *)
Fixpoint setFieldAt (path : list string) (field : string)
    (query : operationTree) : operationTree :=
  match path with
  | [] => setField field query
  | it :: path' => changeFields it (setFieldAt path' field) query
  end.

(** [fields.sort()]: strings in ascending order of their characters.  The
    source compares UTF-16 code units and [String.le] the characters of the
    text as it is held here; on names of ASCII characters the two are the
    same order, and what is proved of the order is proved for such names. *)
Definition sortNames (fields : list string) : list string :=
  merge_sort String.le fields.

(** [fields.sort()] on the array [introspectFields] has returned.  That
    array is the one the cache entry under [key] holds, so the entry has the
    new order too. *)
Definition sortCached (key : string) (fields : list string) : M (list string) :=
  fun w =>
    (Return (sortNames fields),
     {| introspectionFieldsCache :=
          alter (fun e => {| entry_fields := Some (sortNames fields);
                             entry_type := entry_type e |})
                key (introspectionFieldsCache w);
        introspectionMuationCache := introspectionMuationCache w;
        network := network w;
        terminal := terminal w;
        trace := trace w |}).

(** The [do ... while (!chosenFields.length)] of [buildQuery]: the prompt is
    shown until something is chosen.  [None] when [fuel] prompts were not
    enough.  (The message of the prompt is not part of the events.) *)
Fixpoint chooseFields (fuel : nat) (fields : list string)
    : M (option (list string)) :=
  match fuel with
  | O => ret None
  | S fuel' =>
      chosenFields <- MultiSelect fields ;;
      match chosenFields with
      | [] => chooseFields fuel' fields
      | _ :: _ => ret (Some chosenFields)
      end
  end.

(** The [for] loop over the chosen fields: the path of each goes on the
    worklist and an empty node is put under its name. *)
Definition addChosen (path : list string) (chosenFields : list string)
    (query : operationTree) (pathsToFill : list (list string))
    : operationTree * list (list string) :=
  fold_left
    (fun '(query, pathsToFill) field =>
       (setFieldAt path field query, (path ++ [field]) :: pathsToFill))
    chosenFields (query, pathsToFill).

(** The [while (pathsToFill.length)] of [buildQuery].  The worklist is kept
    with its end in front, so that [pop] takes the head and [push] adds one.
    [None] when [fuel] rounds were not enough. *)
Fixpoint fillPaths (fuel : nat) (query : operationTree)
    (pathsToFill : list (list string)) : M (option operationTree) :=
  match pathsToFill with
  | [] => ret (Some query)
  | path :: pathsToFill =>
      match fuel with
      | O => ret None
      | S fuel' =>
          match nodeAt path query with
          | None =>
              throw (TypeError "Cannot read properties of undefined (reading 'fields')")
          | Some _ =>
              fields <- introspectFields path ;;
              match fields with
              | [] => fillPaths fuel' query pathsToFill
              | _ :: _ =>
                  fields <- sortCached (pathKey path) fields ;;
                  chosenFields <- chooseFields fuel' fields ;;
                  match chosenFields with
                  | None => ret None
                  | Some chosenFields =>
                      let (query, pathsToFill) :=
                        addChosen path chosenFields query pathsToFill in
                      fillPaths fuel' query pathsToFill
                  end
              end
          end
      end
  end.

(** [buildQuery]: the call of [executeQuery] it ends with, or [None] when
    [fuel] was not enough. *)
Definition buildQuery (fuel : nat) : M (option queryCall) :=
  query <- fillPaths fuel NoEntry [[]] ;;
  match query with
  | None => ret None
  | Some query =>
      ret (Some (Query_executeQuery (Str (queryTreeToString query)) Undefined))
  end.

(** What the answers still to come can cost: one round for each, and one
    more for each tick. *)
Fixpoint budget (answers : list keys) : nat :=
  match answers with
  | [] => 0
  | Tick chosen :: rest => S (length chosen + budget rest)
  | _ :: rest => S (budget rest)
  end.

(** Fuel that is enough for [buildQuery] in the world [w]. *)
Definition enough (w : world) : nat := budget (terminal w) + 3.

(** An event at a prompt. *)
Definition isPrompt (e : event) : bool :=
  match e with
  | AskSelect _ | AskMultiSelect _ | AskSnippet _ _ => true
  | _ => false
  end.

(** [w'] comes from [w] without a word to the operator: the answers to
    come and the mutation cache are as they were, and the events added are
    no prompts. *)
Definition unprompted (w w' : world) : Prop :=
  terminal w' = terminal w /\
  introspectionMuationCache w' = introspectionMuationCache w /\
  exists es, trace w' = trace w ++ es /\ existsb isPrompt es = false.

(** The reply of an endpoint that knows no type of the name asked for. *)
Definition noTypeReply : response :=
  {| status := 200;
     text := "{" +:+ quoted "data" +:+ ":{" +:+ quoted "__type" +:+ ":null}}";
     json := Some (Body {| errors := None; data := Present {| __type := Null |} |}) |}.

(** What [buildQuery] may show the operator: multi-choice prompts whose
    choices are in ascending order, and no other prompt. *)
Definition shownSorted (e : event) : Prop :=
  match e with
  | AskMultiSelect choices => Sorted String.le choices
  | AskSelect _ | AskSnippet _ _ => False
  | _ => True
  end.

(** ** Sessions with names of a kind *)

(** Field names that all are [good]. *)
Definition namedFields (good : string -> bool) (fields : list string) : Prop :=
  Forall (fun n => good n = true) fields.

(** A reply whose fields, if it lists any, have [good] names. *)
Definition namedReply (good : string -> bool) (r : response) : Prop :=
  match json r with
  | Some (Body {| data := Present {| __type := Present (Present fs) |} |}) =>
      Forall (fun f => good (field_name f) = true) fs
  | _ => True
  end.

(** A world in which every field name that is cached or still to come from
    the endpoint is [good]. *)
Definition namedWorld (good : string -> bool) (w : world) : Prop :=
  (forall key e fields,
     introspectionFieldsCache w !! key = Some e ->
     entry_fields e = Some fields -> namedFields good fields) /\
  Forall (namedReply good) (network w).

(** A name of ASCII characters, as every GraphQL name is. *)
Definition asciiName (n : string) : bool :=
  allChars (fun c => Nat.ltb (nat_of_ascii c) 128) n.

(** A prompt whose choices are [good] names. *)
Definition shownNamed (good : string -> bool) (e : event) : Prop :=
  match e with
  | AskMultiSelect choices => namedFields good choices
  | _ => True
  end.

(** Plain names: what the layout of a document needs. *)
Definition plainFields : list string -> Prop := namedFields plainName.

Definition plainReply : response -> Prop := namedReply plainName.

Definition plainWorld : world -> Prop := namedWorld plainName.

(** Valid names in a cache of the shape of a session: what keeps the keys
    of different paths apart. *)
Definition validWorld (w : world) : Prop :=
  closed w /\ namedWorld validName w.

(** The cache of [w'] has the fields of every path that the cache of [w]
    has them for, in some order. *)
Definition reordered (w w' : world) : Prop :=
  forall key fields,
    populated w key fields ->
    exists fields', populated w' key fields' /\ fields' ≡ₚ fields.

(** The reply for a type without fields, such as a scalar. *)
Definition scalarReply : response :=
  {| status := 200;
     text := "{" +:+ quoted "data" +:+ ":{" +:+ quoted "__type" +:+ ":{"
             +:+ quoted "name" +:+ ":" +:+ quoted "ID" +:+ ","
             +:+ quoted "fields" +:+ ":null}}}";
     json := Some (Body {| errors := None; data := Present {| __type := Present Null |} |}) |}.

(** An operator who first submits nothing, then picks [user], then [id],
    at an endpoint with the schema [Query { user: User }], [User { id: ID! }]. *)
Definition userIdSession : world :=
  start [queryTypeReply; userTypeReply; scalarReply] [Tick []; Tick [0]; Tick [0]].

(** ** Lines that can be read back *)

(** A line whose content starts with a character that is no space and has
    no line feed in it. *)
Definition readable (l : line) : Prop :=
  (exists c s, content l = String c s /\ c <> " "%char) /\
  allChars (fun c => negb (Ascii.eqb c "010")) (content l) = true.

(** Lines that end a block at the nesting level [level]: none, or a first
    line indented less than the level asks. *)
Definition stops (level : nat) (ls : list line) : Prop :=
  match ls with
  | [] => True
  | l :: _ => indent l < 2 * level
  end.

(** ** Files: the name on the command line and the token in the text *)

(** The rest of [s] after [prefix], when [s] starts with it. *)
Fixpoint afterPrefix (prefix s : string) {struct prefix} : option string :=
  match prefix, s with
  | EmptyString, _ => Some s
  | String _ _, EmptyString => None
  | String c prefix', String d s' =>
      if Ascii.eqb c d then afterPrefix prefix' s' else None
  end.

(** [s.replace(search, "")] with a string to search for: its first
    occurrence is taken out. *)
Fixpoint removeFirst (s search : string) : string :=
  match afterPrefix search s with
  | Some rest => rest
  | None =>
      match s with
      | EmptyString => ""
      | String c s' => String c (removeFirst s' search)
      end
  end.

(** What [main] makes of [process.argv] before it reads a file: [None]
    without arguments (the interactive mode), else the operation and the
    name of the query, whose file is the name with [.gql] added. *)
Definition mainArguments (argv : list string)
    : completion (option (string * string)) :=
  if Nat.ltb 2 (length argv) then
    match argv !! 2 with
    | None => Return None
    | Some op =>
        if negb (Nat.eqb (length argv) 4) then
          Throw (Error "Missing file argument")
        else
          match argv !! 3 with
          | None => Throw (Error "Missing file argument")
          | Some arg => Return (Some (op, removeFirst arg ".gql"))
          end
    end
  else Return None.

(** [/\s/] on a character of ASCII text: tab, line feed, vertical tab, form
    feed, carriage return, space. *)
Definition isWhiteSpace (c : ascii) : bool :=
  let n := nat_of_ascii c in
  (Nat.leb 9 n && Nat.leb n 13) || Nat.eqb n 32.

(** The longest run of characters that are no white space at the start of a
    text: what [\S+] takes when there is at least one. *)
Fixpoint nonSpaceRun (s : string) : string :=
  match s with
  | EmptyString => ""
  | String c s' => if isWhiteSpace c then "" else String c (nonSpaceRun s')
  end.

(** [/#authToken: (\S+)/mg.exec(fileContent)], as far as [main] uses it: the
    group of the leftmost match, on ASCII text. *)
Fixpoint loginInfo (fileContent : string) : option string :=
  let further :=
    match fileContent with
    | EmptyString => None
    | String _ rest => loginInfo rest
    end in
  match afterPrefix "#authToken: " fileContent with
  | Some rest =>
      match nonSpaceRun rest with
      | EmptyString => further
      | String c token => Some (String c token)
      end
  | None => further
  end.

(** How [main] logs in for a loaded file. *)
Inductive loginMode :=
| ByToken (authToken : string)      (* [loginTemp(loginInfo[1])] *)
| ByPrompt.                         (* [login()] *)

Definition mainLogin (fileContent : string) : loginMode :=
  match loginInfo fileContent with
  | Some authToken => ByToken authToken
  | None => ByPrompt
  end.

(** The text [storeQueryToFile] writes: the query, after a line with the
    token when the operator asked for it. *)
Definition storedText (withLoginInfo : bool) (authToken queryString : string)
    : string :=
  if withLoginInfo then "#authToken: " +:+ authToken +:+ LF +:+ queryString
  else queryString.

(** A character a token can be stored with and read back: ASCII and no
    white space. *)
Definition tokenChar (c : ascii) : bool :=
  negb (isWhiteSpace c) && Nat.ltb (nat_of_ascii c) 128.

(** ** The cache object and its prototype *)

(** The names [Object.prototype] defines.  The cache is an object literal,
    so a lookup under one of them finds the inherited value when the cache
    has no entry of its own there. *)
Definition inheritedKey (key : string) : bool :=
  existsb (String.eqb key)
    ["constructor"; "__defineGetter__"; "__defineSetter__"; "hasOwnProperty";
     "__lookupGetter__"; "__lookupSetter__"; "isPrototypeOf";
     "propertyIsEnumerable"; "toString"; "valueOf"; "__proto__";
     "toLocaleString"].

(** A lookup under [key] finds nothing but an entry of the cache itself:
    the key is none that [Object.prototype] defines, and no entry was
    assigned under [__proto__], which would have become the prototype. *)
Definition ownLookup (w : world) (key : string) : Prop :=
  inheritedKey key = false /\ introspectionFieldsCache w !! "__proto__" = None.

(** A world with the fields of the root in the order the endpoint sent
    them, and an operator who picks the first choice shown, twice. *)
Definition unsortedRoot : world :=
  {| introspectionFieldsCache :=
       <["" := {| entry_fields := Some ["user"; "me"]; entry_type := "Query" |}]>
         (<["user" := {| entry_fields := None; entry_type := "User" |}]>
            (<["me" := {| entry_fields := None; entry_type := "User" |}]> ∅));
     introspectionMuationCache := None;
     network := [userTypeReply; scalarReply];
     terminal := [Tick [0]; Tick [0]];
     trace := [] |}.

(** * Properties *)

(** ** Strings *)

Lemma string_app_cons (x : ascii) (a b : string) :
  String x a +:+ b = String x (a +:+ b).
Proof. reflexivity. Qed.

Lemma string_app_nil_l (a : string) : "" +:+ a = a.
Proof. reflexivity. Qed.

Lemma string_app_assoc (a b c : string) : (a +:+ b) +:+ c = a +:+ (b +:+ c).
Proof.
  induction a as [|x a IH]; [reflexivity |].
  rewrite !string_app_cons. f_equal. exact IH.
Qed.

Lemma string_app_nil_r (a : string) : a +:+ "" = a.
Proof.
  induction a as [|x a IH]; [reflexivity |].
  rewrite string_app_cons. f_equal. exact IH.
Qed.

Lemma startsWith_app (search rest : string) :
  startsWith (search +:+ rest) search = true.
Proof.
  induction search as [|c search IH]; [reflexivity |].
  rewrite string_app_cons. simpl. now rewrite Ascii.eqb_refl.
Qed.

Lemma includes_app (before search after : string) :
  includes (before +:+ (search +:+ after)) search = true.
Proof.
  induction before as [|c before IH].
  - rewrite string_app_nil_l.
    pose proof (startsWith_app search after) as H.
    destruct (search +:+ after); simpl; now rewrite H.
  - rewrite string_app_cons. cbn [includes]. rewrite IH.
    now destruct (startsWith _ _).
Qed.

Lemma startsWith_split (s search : string) :
  startsWith s search = true -> exists after, s = search +:+ after.
Proof.
  revert s. induction search as [|c search IH]; intros s H.
  - now exists s.
  - destruct s as [|d s]; simpl in H; [discriminate |].
    destruct (Ascii.eqb c d) eqn:E; [| discriminate].
    apply Ascii.eqb_eq in E. subst d.
    destruct (IH _ H) as [after ->]. now exists after.
Qed.

Lemma includes_split (s search : string) :
  includes s search = true ->
  exists before after, s = before +:+ (search +:+ after).
Proof.
  induction s as [|c s IH]; intros H.
  - simpl in H. destruct (startsWith "" search) eqn:E; [| discriminate].
    destruct (startsWith_split _ _ E) as [after Ha].
    exists "", after. exact Ha.
  - cbn [includes] in H.
    destruct (startsWith (String c s) search) eqn:E.
    + destruct (startsWith_split _ _ E) as [after Ha].
      exists "", after. exact Ha.
    + destruct (IH H) as (before & after & ->).
      now exists (String c before), after.
Qed.

(** ** Scanning *)

Section ScanFacts.
Context {state : Type} (step : state -> ascii -> option state).

Lemma scan_app (st : state) (a b : string) :
  scan step st (a +:+ b) =
  match scan step st a with
  | Some st' => scan step st' b
  | None => None
  end.
Proof.
  revert st. induction a as [|c a IH]; intros st; [reflexivity |].
  rewrite string_app_cons. simpl.
  destruct (step st c); [apply IH | reflexivity].
Qed.

Lemma scan_steady (st : state) (s : string) (allowed : ascii -> bool) :
  (forall c, allowed c = true -> step st c = Some st) ->
  allChars allowed s = true ->
  scan step st s = Some st.
Proof.
  intros Hstep. induction s as [|c s IH]; simpl; [reflexivity |].
  intros H. apply andb_prop in H as [Hc Hs].
  rewrite (Hstep _ Hc). now apply IH.
Qed.
End ScanFacts.

(** ** Query Commands *)

Lemma linesText_app (a b : list line) :
  linesText (a ++ b) = linesText a +:+ linesText b.
Proof.
  induction a as [|l a IH]; [reflexivity |].
  simpl. rewrite IH, !string_app_assoc. reflexivity.
Qed.

Lemma join_lines (ls : list line) (l : line) :
  join LF (map renderLine (ls ++ [l])) = linesText ls +:+ renderLine l.
Proof.
  induction ls as [|x ls IH]; [reflexivity |].
  change (linesText (x :: ls)) with (renderLine x +:+ (LF +:+ linesText ls)).
  rewrite !string_app_assoc, <- IH.
  destruct ls; reflexivity.
Qed.

Lemma selectionLines_Entry (level : nat) (key : string) (fields rest : operationTree) :
  selectionLines level (Entry key fields rest) =
  (if hasKeys fields then
     [{| indent := 2 * level; content := key +:+ " {" |}]
     ++ selectionLines (S level) fields
     ++ [{| indent := 2 * level; content := "}" |}]
   else [{| indent := 2 * level; content := key |}])
  ++ selectionLines level rest.
Proof. destruct fields; reflexivity. Qed.

Lemma addQuery_lines (query : operationTree) (level : nat) (queryString : string) :
  addQuery query (2 * level) queryString =
  queryString +:+ linesText (selectionLines level query).
Proof.
  revert level queryString.
  induction query as [|key fields IHf rest IHr]; intros level queryString.
  - simpl. now rewrite string_app_nil_r.
  - cbn [addQuery]. rewrite selectionLines_Entry, linesText_app.
    destruct (hasKeys fields).
    + replace (2 * level + 2) with (2 * S level) by lia.
      rewrite IHr, IHf, !linesText_app.
      cbn [linesText]. unfold renderLine. cbn [indent content].
      rewrite !string_app_assoc, ?string_app_nil_l, ?string_app_nil_r.
      reflexivity.
    + rewrite IHr. cbn [linesText]. unfold renderLine. cbn [indent content].
      rewrite !string_app_assoc, ?string_app_nil_l, ?string_app_nil_r.
      reflexivity.
Qed.

Lemma queryTreeToString_lines (query : operationTree) :
  queryTreeToString query =
  ("query {" +:+ LF) +:+ (linesText (selectionLines 1 query) +:+ "}").
Proof.
  unfold queryTreeToString.
  change 2 with (2 * 1) at 1. rewrite addQuery_lines.
  now rewrite string_app_assoc.
Qed.

Lemma queryTreeToString_document (query : operationTree) :
  queryTreeToString query = document query.
Proof.
  rewrite queryTreeToString_lines. unfold document, documentLines.
  change ([{| indent := 0; content := "query {" |}] ++
          selectionLines 1 query ++ [{| indent := 0; content := "}" |}])
    with (({| indent := 0; content := "query {" |} :: selectionLines 1 query)
          ++ [{| indent := 0; content := "}" |}]).
  rewrite join_lines. cbn [linesText].
  rewrite !string_app_assoc. reflexivity.
Qed.

Lemma repeat_space_S (n : nat) : repeat " " (S n) = String " " (repeat " " n).
Proof. reflexivity. Qed.

Lemma plainNames_Entry (key : string) (fields rest : operationTree) :
  plainNames (Entry key fields rest) = true ->
  plainName key = true /\ plainNames fields = true /\ plainNames rest = true.
Proof.
  simpl. intros H. apply andb_prop in H as [H Hr]. apply andb_prop in H as [Hk Hf].
  auto.
Qed.

Lemma plainName_cons (key : string) :
  plainName key = true ->
  exists c s, key = String c s /\ nameChar c = true /\ allChars nameChar s = true.
Proof.
  destruct key as [|c s]; [discriminate |]. simpl. intros H.
  apply andb_prop in H as [Hc Hs]. eauto.
Qed.

Lemma nameChar_cases (c : ascii) :
  nameChar c = true ->
  Ascii.eqb c " " = false /\ Ascii.eqb c "010" = false /\
  Ascii.eqb c "{" = false /\ Ascii.eqb c "}" = false.
Proof.
  unfold nameChar. intros H. apply negb_true_iff in H.
  repeat (apply orb_false_elim in H as [H ?]). auto.
Qed.

(** Normal form of a text for scanning: appends nested to the right, the
    characters of literals in front. *)
Ltac text_nf :=
  rewrite ?linesText_app; cbn [linesText];
  unfold renderLine, LF; cbn [indent content];
  rewrite ?string_app_assoc, ?string_app_cons, ?string_app_nil_l.

Ltac scan_with lem := rewrite scan_app, lem; cbv beta iota.

(** *** Braces *)

Lemma brace_spaces (open n : nat) : scan braceStep open (repeat " " n) = Some open.
Proof. induction n as [|n IH]; [reflexivity |]. rewrite repeat_space_S. exact IH. Qed.

Lemma brace_name (open : nat) (key : string) :
  plainName key = true -> scan braceStep open key = Some open.
Proof.
  intros H. apply scan_steady with (allowed := nameChar).
  - intros c Hc. destruct (nameChar_cases c Hc) as (_ & _ & H1 & H2).
    unfold braceStep. now rewrite H1, H2.
  - now destruct key.
Qed.

Lemma brace_lines (query : operationTree) :
  plainNames query = true ->
  forall level open,
    scan braceStep open (linesText (selectionLines level query)) = Some open.
Proof.
  induction query as [|key fields IHf rest IHr]; intros Hq level open;
    [reflexivity |].
  apply plainNames_Entry in Hq as (Hk & Hf & Hr).
  rewrite selectionLines_Entry. destruct (hasKeys fields); text_nf.
  - scan_with brace_spaces. scan_with (brace_name open key Hk).
    cbn [scan braceStep Ascii.eqb Bool.eqb].
    scan_with (IHf Hf). scan_with brace_spaces.
    cbn [scan braceStep Ascii.eqb Bool.eqb]. now apply IHr.
  - scan_with brace_spaces. scan_with (brace_name open key Hk).
    cbn [scan braceStep Ascii.eqb Bool.eqb]. now apply IHr.
Qed.

(** *** Blocks *)

Lemma block_spaces (fresh : bool) (n : nat) :
  scan blockStep fresh (repeat " " n) = Some fresh.
Proof. induction n as [|n IH]; [reflexivity |]. rewrite repeat_space_S. exact IH. Qed.

Lemma blockStep_name (fresh : bool) (c : ascii) :
  nameChar c = true -> blockStep fresh c = Some false.
Proof.
  intros Hc. destruct (nameChar_cases c Hc) as (H1 & H2 & H3 & H4).
  unfold blockStep. now rewrite H1, H2, H3, H4.
Qed.

Lemma block_name (fresh : bool) (key : string) :
  plainName key = true -> scan blockStep fresh key = Some false.
Proof.
  intros H. apply plainName_cons in H as (c & s & -> & Hc & Hs).
  cbn [scan]. rewrite (blockStep_name _ _ Hc).
  apply scan_steady with (allowed := nameChar); [| exact Hs].
  intros d Hd. now apply blockStep_name.
Qed.

Lemma block_lines (query : operationTree) :
  plainNames query = true ->
  forall level fresh,
    scan blockStep fresh (linesText (selectionLines level query)) =
    Some (if hasKeys query then false else fresh).
Proof.
  induction query as [|key fields IHf rest IHr]; intros Hq level fresh;
    [reflexivity |].
  apply plainNames_Entry in Hq as (Hk & Hf & Hr).
  rewrite selectionLines_Entry. destruct (hasKeys fields) eqn:Hfields; text_nf.
  - scan_with block_spaces. scan_with (block_name fresh key Hk).
    cbn [scan blockStep Ascii.eqb Bool.eqb orb].
    scan_with (IHf Hf). scan_with block_spaces.
    cbn [scan blockStep Ascii.eqb Bool.eqb orb].
    rewrite (IHr Hr). now destruct (hasKeys rest).
  - scan_with block_spaces. scan_with (block_name fresh key Hk).
    cbn [scan blockStep Ascii.eqb Bool.eqb orb].
    rewrite (IHr Hr). now destruct (hasKeys rest).
Qed.

(** *** Indentation *)

Lemma indent_spaces (open m n : nat) :
  scan indentStep (open, Some m) (repeat " " n) = Some (open, Some (n + m)).
Proof.
  revert m. induction n as [|n IH]; intros m; [reflexivity |].
  rewrite repeat_space_S. cbn [scan indentStep Ascii.eqb Bool.eqb option_map].
  rewrite IH. do 3 f_equal. lia.
Qed.

Lemma indentStep_name (open : nat) (lead : option nat) (c : ascii) :
  nameChar c = true -> leadIs lead (2 * open) = true ->
  indentStep (open, lead) c = Some (open, None).
Proof.
  intros Hc Hl. destruct (nameChar_cases c Hc) as (H1 & H2 & H3 & H4).
  unfold indentStep. now rewrite H1, H2, H3, H4, Hl.
Qed.

Lemma indent_name (open : nat) (lead : option nat) (key : string) :
  plainName key = true -> leadIs lead (2 * open) = true ->
  scan indentStep (open, lead) key = Some (open, None).
Proof.
  intros H Hl. apply plainName_cons in H as (c & s & -> & Hc & Hs).
  cbn [scan]. rewrite (indentStep_name _ _ _ Hc Hl).
  apply scan_steady with (allowed := nameChar); [| exact Hs].
  intros d Hd. now apply indentStep_name.
Qed.

Lemma leadIs_refl (n : nat) : leadIs (Some (n + 0)) n = true.
Proof. simpl. apply Nat.eqb_eq. lia. Qed.

Lemma indentStep_open (open : nat) :
  indentStep (open, None) "{" = Some (S open, None).
Proof. reflexivity. Qed.

Lemma indentStep_close (open : nat) :
  indentStep (S open, Some (2 * open + 0)) "}" = Some (open, None).
Proof.
  unfold indentStep. cbn [Ascii.eqb Bool.eqb Nat.pred].
  now rewrite leadIs_refl.
Qed.

Lemma indent_lines (query : operationTree) :
  plainNames query = true ->
  forall level,
    scan indentStep (level, Some 0) (linesText (selectionLines level query)) =
    Some (level, Some 0).
Proof.
  induction query as [|key fields IHf rest IHr]; intros Hq level;
    [reflexivity |].
  apply plainNames_Entry in Hq as (Hk & Hf & Hr).
  rewrite selectionLines_Entry. destruct (hasKeys fields); text_nf.
  - scan_with indent_spaces.
    scan_with (indent_name level _ key Hk (leadIs_refl _)).
    cbn [scan]. change (indentStep (level, None) " ") with (Some (level, @None nat)).
    cbv beta iota. rewrite indentStep_open.
    change (indentStep (S level, None) "010") with (Some (S level, Some 0)).
    cbv beta iota. scan_with (IHf Hf). scan_with indent_spaces.
    cbn [scan]. rewrite indentStep_close.
    change (indentStep (level, None) "010") with (Some (level, Some 0)).
    cbv beta iota. now apply IHr.
  - scan_with indent_spaces.
    scan_with (indent_name level _ key Hk (leadIs_refl _)).
    cbn [scan]. change (indentStep (level, None) "010") with (Some (level, Some 0)).
    cbv beta iota. now apply IHr.
Qed.

(** C5: for the tree with the root field [user] and its single scalar child
    [id], [queryTreeToString] returns exactly the five lines
    [query {], [  user {], [    id], [  }], [}] joined by line feeds. *)
Theorem queryTreeToString_userId :
  queryTreeToString userId =
  "query {" +:+ LF +:+ "  user {" +:+ LF +:+ "    id" +:+ LF +:+ "  }" +:+ LF +:+ "}".
Proof. reflexivity. Qed.

(** The root selection left empty renders as a brace pair around nothing. *)
Lemma queryTreeToString_NoEntry :
  queryTreeToString NoEntry = "query {" +:+ LF +:+ "}" /\
  ~ noEmptyBlock (queryTreeToString NoEntry).
Proof.
  split; [reflexivity |]. intros [st H]. discriminate H.
Qed.

(** C4: for every operation tree with a non-empty root selection, whose
    field names hold no blank and no brace, the text [queryTreeToString]
    returns is the document of the specification (a leaf is a bare name on
    its own line, a field with children opens a block, two more spaces per
    nesting level); its braces are balanced, every line is indented by two
    spaces per open brace, and no brace pair is empty. *)
Theorem queryTreeToString_layout (query : operationTree) :
  plainNames query = true ->
  hasKeys query = true ->
  queryTreeToString query = document query /\
  balanced (queryTreeToString query) /\
  indentedByTwo (queryTreeToString query) /\
  noEmptyBlock (queryTreeToString query).
Proof.
  intros Hnames Hroot. split; [apply queryTreeToString_document |].
  rewrite queryTreeToString_lines.
  unfold balanced, indentedByTwo, noEmptyBlock.
  repeat split.
  - assert (Hhead : scan braceStep 0 ("query {" +:+ LF) = Some 1) by reflexivity.
    scan_with Hhead. scan_with (brace_lines query Hnames 1 1). reflexivity.
  - assert (Hhead : scan indentStep (0, Some 0) ("query {" +:+ LF) =
                    Some (1, Some 0)) by reflexivity.
    scan_with Hhead. scan_with (indent_lines query Hnames 1).
    now exists (0, None).
  - assert (Hhead : scan blockStep false ("query {" +:+ LF) = Some true)
      by reflexivity.
    scan_with Hhead. scan_with (block_lines query Hnames 1 true).
    rewrite Hroot. now exists false.
Qed.

Lemma queryTreeToString_layout_witness :
  plainNames userId = true /\ hasKeys userId = true /\
  (queryTreeToString userId = document userId /\
   balanced (queryTreeToString userId) /\
   indentedByTwo (queryTreeToString userId) /\
   noEmptyBlock (queryTreeToString userId)).
Proof.
  split; [reflexivity |]. split; [reflexivity |].
  apply (queryTreeToString_layout userId); reflexivity.
Defined.

(** ** Running computations *)

Lemma bind_Return {A B} (c : M A) (k : A -> M B) (w w1 : world) (a : A) :
  c w = (Return a, w1) -> bind c k w = k a w1.
Proof. intros H. unfold bind. now rewrite H. Qed.

Lemma bind_Throw {A B} (c : M A) (k : A -> M B) (w w1 : world) (e : exn) :
  c w = (Throw e, w1) -> bind c k w = (Throw e, w1).
Proof. intros H. unfold bind. now rewrite H. Qed.

Lemma bind_inv {A B} (c : M A) (k : A -> M B) (w w' : world) (b : B) :
  bind c k w = (Return b, w') ->
  exists a w1, c w = (Return a, w1) /\ k a w1 = (Return b, w').
Proof.
  unfold bind. destruct (c w) as [[a|e] w1]; [eauto | discriminate].
Qed.

Lemma Select_run (choices : list string) (w : world) (i : nat)
    (answers : list keys) (choice : string) :
  terminal w = Pick i :: answers ->
  choices !! i = Some choice ->
  Select choices w =
  (Return choice,
   {| introspectionFieldsCache := introspectionFieldsCache w;
      introspectionMuationCache := introspectionMuationCache w;
      network := network w;
      terminal := answers;
      trace := trace w ++ [AskSelect choices] |}).
Proof.
  intros Hterm Hi. unfold Select, bind, emit, nextKeys. cbn [terminal].
  now rewrite Hterm, Hi.
Qed.

Lemma Snippet_run (template : string) (fields : list string) (w : world)
    (answers : list keys) (result : string) :
  terminal w = Typed result :: answers ->
  Snippet template fields w =
  (Return result,
   {| introspectionFieldsCache := introspectionFieldsCache w;
      introspectionMuationCache := introspectionMuationCache w;
      network := network w;
      terminal := answers;
      trace := trace w ++ [AskSnippet template fields] |}).
Proof.
  intros Hterm. unfold Snippet, bind, emit, nextKeys. cbn [terminal].
  now rewrite Hterm.
Qed.

(** ** Query Runner *)

Lemma ok_2xx (r : response) :
  ok r = true <-> (200 <= status r < 300)%Z.
Proof. unfold ok. rewrite andb_true_iff, Z.leb_le, Z.ltb_lt. tauto. Qed.

(** [runQuery] in one step: what it completes with, and the world it leaves. *)
Lemma runQuery_run (query : string) (silent : bool) (w : world) :
  runQuery query silent w =
  match network w with
  | [] => (Throw (Rejected "fetch"), after w [] [Fetch query])
  | r :: rest =>
      if ok r then
        match json r with
        | None => (Throw (Rejected "json"), after w rest [Fetch query; ParseJson])
        | Some result =>
            (checkResult result, after w rest [Fetch query; ParseJson])
        end
      else (Throw (Error "HTTPError"), after w rest [Fetch query; ReadText])
  end.
Proof.
  unfold runQuery, bind, fetch, emit, response_text, response_json, throw, ret,
    lift, after.
  cbn. destruct (network w) as [|r rest]; [reflexivity |].
  destruct (ok r); cbn.
  - destruct (json r) as [result|]; cbn.
    + destruct (checkResult result); cbn; now rewrite <- app_assoc.
    + now rewrite <- app_assoc.
  - now rewrite <- app_assoc.
Qed.

(** A reply that [runQuery] returns on is a body that is not [null], and
    what is returned is its [data]. *)
Lemma checkResult_Return (result : decoded) (d : member dataObject) :
  checkResult result = Return d ->
  exists b, result = Body b /\ d = data b.
Proof.
  destruct result as [|b]; [discriminate |]. cbn [checkResult].
  intros H. exists b. split; [reflexivity |].
  destruct (errors b) as [errs|]; [| now injection H].
  destruct (ToBoolean errs); [| now injection H].
  destruct (iterate errs) as [elements|e]; [| discriminate H].
  destruct (readMessages elements); discriminate H.
Qed.

Lemma checkResult_data (b : body) :
  errors b = None -> checkResult (Body b) = Return (data b).
Proof. intros H. cbn [checkResult]. now rewrite H. Qed.


(** A body without errors: it has no [errors] member, or one that counts
    as false ([null], [false], [0], the empty text). *)
Lemma checkResult_falsy (b : body) :
  (forall errs, errors b = Some errs -> ToBoolean errs = false) ->
  checkResult (Body b) = Return (data b).
Proof.
  intros H. cbn [checkResult]. destruct (errors b) as [errs|]; [| reflexivity].
  now rewrite (H errs eq_refl).
Qed.

Lemma readMessage_Return (error : jsonValue) :
  readMessage error = Return tt <-> printableError error.
Proof.
  unfold printableError.
  destruct error as [| flag | n | text | elements | members];
    cbn [readMessage get];
    try (split; [intros _; split; [discriminate | discriminate] | reflexivity]).
  - split; [discriminate | intros [H _]; now contradiction H].
  - destruct (own "message" members) as [m|].
    + split.
      * intros H. split; [discriminate |]. intros m' Hm. injection Hm as <-.
        now destruct (printable m).
      * intros [_ H]. now rewrite (H m eq_refl).
    + split; [intros _; split; [discriminate | discriminate] | reflexivity].
Qed.

Lemma readMessage_Throw (error : jsonValue) (e : exn) :
  readMessage error = Throw e -> exists text, e = TypeError text.
Proof.
  unfold readMessage. destruct error; cbn [get];
    try discriminate; try (intros H; injection H as <-; eauto).
  destruct (own "message" members) as [m|]; [| discriminate].
  destruct (printable m); [discriminate |]. intros H. injection H as <-. eauto.
Qed.

(** The loop gets through exactly when every error can be printed, and
    what stops it is a [TypeError]. *)
Lemma readMessages_run (elements : list jsonValue) :
  match readMessages elements with
  | Return _ => Forall printableError elements
  | Throw e => ~ Forall printableError elements /\ exists text, e = TypeError text
  end.
Proof.
  induction elements as [|error elements IH]; cbn [readMessages]; [constructor |].
  destruct (readMessage error) as [[]|e] eqn:Herror.
  - apply readMessage_Return in Herror.
    destruct (readMessages elements) as [[]|e].
    + now constructor.
    + destruct IH as [Hnot Htext]. split; [| exact Htext].
      intros H. apply Forall_cons in H as [_ H]. now apply Hnot.
  - split; [| exact (readMessage_Throw _ _ Herror)].
    intros H. apply Forall_cons in H as [H _].
    apply readMessage_Return in H. rewrite H in Herror. discriminate.
Qed.

(** C6: when the endpoint answers with a 2xx status and a JSON body that
    has an [errors] array, [runQuery] returns no data: it throws, after the
    request and the decoding of the reply.  What it throws is
    [Error("QueryError")] exactly when every element of the array is an
    error whose message can be printed (it is not [null], and its
    [message], if it has one, can be turned into text); when one is not, it
    is the [TypeError] of printing the first such element. *)
Theorem runQuery_QueryError (query : string) (silent : bool) (w : world)
    (r : response) (rest : list response) (b : body)
    (elements : list jsonValue) :
  network w = r :: rest ->
  (200 <= status r < 300)%Z ->
  json r = Some (Body b) ->
  errors b = Some (JArray elements) ->
  (exists e, fst (runQuery query silent w) = Throw e) /\
  trace (snd (runQuery query silent w)) = trace w ++ [Fetch query; ParseJson] /\
  (Forall printableError elements <->
   fst (runQuery query silent w) = Throw (Error "QueryError")) /\
  (~ Forall printableError elements ->
   exists text, fst (runQuery query silent w) = Throw (TypeError text)).
Proof.
  intros Hnet Hstatus Hjson Herrors. apply ok_2xx in Hstatus.
  rewrite runQuery_run, Hnet, Hstatus, Hjson. cbn [fst snd checkResult].
  rewrite Herrors. cbn [ToBoolean iterate].
  pose proof (readMessages_run elements) as Hrun.
  destruct (readMessages elements) as [[]|e].
  - split; [eauto |]. split; [reflexivity |]. split; [tauto |].
    intros Hnot. now contradiction Hnot.
  - destruct Hrun as [Hnot [text ->]].
    split; [eauto |]. split; [reflexivity |]. split; [| eauto].
    split; [intros H; now contradiction Hnot | discriminate].
Qed.

Lemma runQuery_QueryError_witness :
  network (start [errorsReply] []) = [errorsReply] /\
  (200 <= status errorsReply < 300)%Z /\
  Forall printableError [errorObject {| message := "X" |}] /\
  fst (runQuery "{ me }" false (start [errorsReply] [])) =
    Throw (Error "QueryError") /\
  trace (snd (runQuery "{ me }" false (start [errorsReply] []))) =
    [] ++ [Fetch "{ me }"; ParseJson].
Proof.
  assert (Hall : Forall printableError [errorObject {| message := "X" |}]).
  { constructor; [| constructor]. split; [discriminate |].
    intros m H. injection H as <-. reflexivity. }
  split; [reflexivity |]. split; [simpl; lia |]. split; [exact Hall |].
  destruct (runQuery_QueryError "{ me }" false (start [errorsReply] [])
              errorsReply []
              {| errors := Some (JArray [errorObject {| message := "X" |}]);
                 data := Missing |}
              [errorObject {| message := "X" |}])
    as (_ & Htrace & Hkind & _);
    [reflexivity | simpl; lia | reflexivity | reflexivity |].
  split; [exact (proj1 Hkind Hall) | exact Htrace].
Defined.

(** The claim as it stands, for every [errors] array, fails on an array
    with a [null] in it: the reply [{ errors: [null] }] with status 200
    makes [runQuery] throw a [TypeError], not [Error("QueryError")]. *)
Lemma runQuery_QueryError_null_element :
  ok nullErrorReply = true /\
  json nullErrorReply = Some (Body {| errors := Some (JArray [JNull]); data := Missing |}) /\
  fst (runQuery "{ me }" false (start [nullErrorReply] [])) =
    Throw (TypeError "Cannot read properties of null (reading 'message')") /\
  fst (runQuery "{ me }" false (start [nullErrorReply] [])) <>
    Throw (Error "QueryError").
Proof. repeat split. discriminate. Qed.

(** An empty [errors] array is an array all the same. *)
Example runQuery_empty_errors :
  fst (runQuery "{ me }" false
         (start [{| status := 200;
                    text := "{" +:+ quoted "errors" +:+ ":[]}";
                    json := Some (Body {| errors := Some (JArray []);
                                          data := Missing |}) |}] [])) =
  Throw (Error "QueryError").
Proof. reflexivity. Qed.

(** An [errors] member that is no array: a falsy one counts as none, a text
    is gone through character by character, and anything else cannot be
    iterated. *)
Example runQuery_errors_no_array :
  checkResult (Body {| errors := Some JNull; data := Null |}) = Return Null /\
  checkResult (Body {| errors := Some (JString "down"); data := Missing |}) =
    Throw (Error "QueryError") /\
  checkResult (Body {| errors := Some (JBool true); data := Missing |}) =
    Throw (TypeError "result.errors is not iterable") /\
  checkResult (Body {| errors := Some (JArray [JObject [("message",
                         JObject [("toString", JNull)])]]); data := Missing |}) =
    Throw (TypeError "Cannot convert object to primitive value").
Proof. repeat split. Qed.

(** C7: when the endpoint answers with a status outside 200-299,
    [runQuery] throws [Error("HTTPError")]; up to the throw it has sent the
    request and read the reply as text, and it has not decoded it as JSON. *)
Theorem runQuery_HTTPError (query : string) (silent : bool) (w : world)
    (r : response) (rest : list response) :
  network w = r :: rest ->
  ~ (200 <= status r < 300)%Z ->
  fst (runQuery query silent w) = Throw (Error "HTTPError") /\
  trace (snd (runQuery query silent w)) = trace w ++ [Fetch query; ReadText] /\
  ~ In ParseJson [Fetch query; ReadText].
Proof.
  intros Hnet Hstatus.
  assert (Hok : ok r = false).
  { destruct (ok r) eqn:E; [| reflexivity]. apply ok_2xx in E. contradiction. }
  rewrite runQuery_run, Hnet, Hok.
  split; [reflexivity |]. split; [reflexivity |].
  intros [H | [H | []]]; discriminate H.
Qed.

Lemma runQuery_HTTPError_witness :
  network (start [serverErrorReply] []) = [serverErrorReply] /\
  ~ (200 <= status serverErrorReply < 300)%Z /\
  fst (runQuery "{ me }" false (start [serverErrorReply] [])) =
    Throw (Error "HTTPError") /\
  trace (snd (runQuery "{ me }" false (start [serverErrorReply] []))) =
    [] ++ [Fetch "{ me }"; ReadText] /\
  ~ In ParseJson [Fetch "{ me }"; ReadText].
Proof.
  split; [reflexivity |]. split; [simpl; lia |].
  apply (runQuery_HTTPError "{ me }" false (start [serverErrorReply] [])
           serverErrorReply []); [reflexivity | simpl; lia].
Defined.

(** ** Introspection: type names *)

(** The text of the field query is the one in the source, with its four
    nested [ofType] selections. *)
Lemma fieldsQuery_text (type : string) :
  fieldsQuery type =
  "query {  __type(name: " +:+ DQ +:+ type +:+ DQ +:+
  ") { name fields { name type { name ofType { name ofType { name ofType { name ofType { name }}}}}}}}".
Proof.
  unfold fieldsQuery. repeat f_equal.
Qed.





Example getTypeName_stringList :
  getTypeName (answerType ofTypeDepth stringList) = Return "String".
Proof. reflexivity. Qed.

Example getTypeName_stringCube :
  getTypeName (answerType ofTypeDepth stringCube) =
  Throw (Error ("Cannot get type for {" +:+ DQ +:+ "name" +:+ DQ +:+ ":null}")).
Proof. reflexivity. Qed.

(** The error is fatal for the call that meets such a field. *)
Example introspectFields_stringCube :
  fst (introspectFields [] (start [cubeReply] [])) =
  Throw (Error ("Cannot get type for {" +:+ DQ +:+ "name" +:+ DQ +:+ ":null}")).
Proof. reflexivity. Qed.

(** ** Main: the kind of a loaded file *)

(** C9: a loaded file whose text contains ["query"] somewhere and
    ["mutation"] somewhere is taken for a query: [main] goes down the query
    path, whatever the operation keyword of the file is. *)
Theorem mainLoaded_query_first (op fileContent name : string) :
  (exists before after, fileContent = before +:+ ("query" +:+ after)) ->
  (exists before after, fileContent = before +:+ ("mutation" +:+ after)) ->
  includes fileContent "mutation" = true /\
  mainLoaded op fileContent name = queryPath op fileContent name.
Proof.
  intros (b1 & a1 & H1) (b2 & a2 & H2). split.
  - rewrite H2. apply includes_app.
  - unfold mainLoaded, queryPath.
    replace (includes fileContent "query") with true;
      [reflexivity | rewrite H1; symmetry; apply includes_app].
Qed.

Lemma mainLoaded_query_first_witness :
  (exists before after, resetQueries = before +:+ ("query" +:+ after)) /\
  (exists before after, resetQueries = before +:+ ("mutation" +:+ after)) /\
  includes resetQueries "mutation" = true /\
  mainLoaded "load" resetQueries "reset" = queryPath "load" resetQueries "reset".
Proof.
  assert (Hq : exists before after, resetQueries = before +:+ ("query" +:+ after))
    by (exists "mutation { ", "Reset }"; reflexivity).
  assert (Hm : exists before after, resetQueries = before +:+ ("mutation" +:+ after))
    by (exists "", " { queryReset }"; reflexivity).
  split; [exact Hq |]. split; [exact Hm |].
  exact (mainLoaded_query_first "load" resetQueries "reset" Hq Hm).
Defined.

Example mainLoaded_resetQueries (w : world) :
  mainLoaded "load" resetQueries "reset" w =
  (Return (Session (Call_executeQuery (Str resetQueries) (Str "reset"))), w).
Proof. reflexivity. Qed.

(** ** Mutation Commands: the menu after a run *)

Lemma identifier_queryString (locals : list (string * value)) (w : world) :
  assoc locals "queryString" = None ->
  identifier locals "queryString" w =
  (Throw (ReferenceError "queryString is not defined"), w).
Proof. intros H. unfold identifier. rewrite H. reflexivity. Qed.




Example executeMutation_edit :
  fst (executeMutation "mutation { ping }" (Some "ping")
         (start [emptyDataReply] [Pick 0])) =
  Throw (ReferenceError "queryString is not defined").
Proof. reflexivity. Qed.

Example executeMutation_store :
  fst (executeMutation "mutation { ping }" (Some "ping")
         (start [emptyDataReply] [Pick 1])) =
  Throw (ReferenceError "queryString is not defined").
Proof. reflexivity. Qed.

(** ** Introspection: the mutation list *)

Lemma introspectMutations_cached (w : world) (ms : list mutationDescriptor) :
  introspectionMuationCache w = Some ms ->
  introspectMutations w = (Return (Some ms), w).
Proof.
  intros H. unfold introspectMutations, bind, readMutationCache.
  rewrite H. reflexivity.
Qed.

(** A call that finds the cache empty never hands the list to its caller:
    when it completes normally it has sent the one request for the
    [Mutation] type and filled the cache, and its result is [undefined]. *)
Lemma introspectMutations_uncached (w w' : world)
    (result : option (list mutationDescriptor)) :
  introspectionMuationCache w = None ->
  introspectMutations w = (Return result, w') ->
  result = None /\
  is_Some (introspectionMuationCache w') /\
  trace w' = trace w ++ [Fetch mutationsQuery; ParseJson].
Proof.
  intros Hcache. unfold introspectMutations. unfold bind at 1.
  unfold readMutationCache. rewrite Hcache. unfold bind at 1.
  rewrite runQuery_run.
  destruct (network w) as [|r rest]; [discriminate |].
  destruct (ok r); [| discriminate].
  destruct (json r) as [result0|]; [| discriminate].
  destruct (checkResult result0) as [d0|e0]; [| discriminate].
  unfold bind, mutationFields, writeMutationCache, throw, ret.
  destruct d0 as [| | d]; try discriminate.
  destruct (__type d) as [| | [| | fs]]; try discriminate.
  intros H. injection H as <- <-. cbn. eauto.
Qed.

(** C2, at a fresh process whose endpoint knows the mutation [createUser]:
    the first call of [introspectMutations] sends the one request for the
    [Mutation] type and fills the cache, but its own result is [undefined],
    not the list; the second call returns the cached list and sends
    nothing. *)
Theorem introspectMutations_first_call_undefined :
  introspectMutations (start [mutationsReply] []) = (Return None, warmed []) /\
  introspectMutations (warmed []) = (Return (Some [createUserDescriptor]), warmed []).
Proof. split; reflexivity. Qed.

(** ** Mutation Commands: the builder *)

Lemma join_cons (sep p : string) (rest : list string) :
  exists tail, join sep (p :: rest) = p +:+ tail.
Proof.
  destruct rest as [|q rest].
  - exists "". simpl. now rewrite string_app_nil_r.
  - now exists (sep +:+ join sep (q :: rest)).
Qed.

(** [mutation.args > 2] is false whatever the arguments are: the array
    converts to [0] when it is empty and to [NaN] otherwise. *)
Lemma args_gt_2 (args : list inputValue) :
  gt (ArrayToNumber args) (Num 2) = false.
Proof.
  unfold ArrayToNumber, StringToNumber.
  destruct args as [|a args]; [reflexivity |].
  cbn [map].
  destruct (join_cons "," "[object Object]" (map (fun _ => "[object Object]") args))
    as [tail ->].
  reflexivity.
Qed.

(** C1, at the descriptor [createUser] with its three arguments: the
    builder asks for the mutation and then for the template values; no
    multi-choice prompt is shown, and the template holds all three
    arguments as placeholders. *)
Theorem buildMutation_three_args_no_MultiSelect :
  let w := warmed [Pick 0; Typed "mutation { createUser }"] in
  length (mutation_args createUserDescriptor) = 3 /\
  fst (buildMutation w) =
    Return (Some (Call_executeMutation (Str "mutation { createUser }") Undefined)) /\
  trace (snd (buildMutation w)) =
    trace w ++ [AskSelect ["createUser"];
                AskSnippet createUserTemplate ["email"; "name"; "password"]].
Proof. split; [reflexivity |]. split; reflexivity. Qed.

(** The same for every descriptor, whatever the number of its arguments:
    with the mutation list in the cache, the builder shows the choice of
    mutations and then the template with all arguments of the chosen one. *)
Lemma buildMutation_all_args (w : world) (ms : list mutationDescriptor)
    (i : nat) (mutationName result : string) (answers : list keys)
    (mutation : mutationDescriptor) :
  introspectionMuationCache w = Some ms ->
  terminal w = Pick i :: Typed result :: answers ->
  map mutation_name ms !! i = Some mutationName ->
  find (fun it => String.eqb (mutation_name it) mutationName) ms = Some mutation ->
  let chosenArgs := map arg_name (mutation_args mutation) in
  fst (buildMutation w) =
    Return (Some (Call_executeMutation (Str result) Undefined)) /\
  trace (snd (buildMutation w)) =
    trace w ++ [AskSelect (map mutation_name ms);
                AskSnippet (mutationTemplate (mutation_name mutation) chosenArgs)
                  chosenArgs].
Proof.
  intros Hcache Hterm Hi Hfind chosenArgs. subst chosenArgs.
  assert (Hrun : buildMutation w =
    (Return (Some (Call_executeMutation (Str result) Undefined)),
     {| introspectionFieldsCache := introspectionFieldsCache w;
        introspectionMuationCache := introspectionMuationCache w;
        network := network w;
        terminal := answers;
        trace := (trace w ++ [AskSelect (map mutation_name ms)]) ++
                 [AskSnippet
                    (mutationTemplate (mutation_name mutation)
                       (map arg_name (mutation_args mutation)))
                    (map arg_name (mutation_args mutation))] |})).
  { unfold buildMutation.
    rewrite (bind_Return _ _ _ _ _ (introspectMutations_cached w ms Hcache)).
    rewrite (bind_Return _ _ _ _ _ (Select_run _ w i _ _ Hterm Hi)).
    rewrite Hfind, args_gt_2.
    rewrite (bind_Return _ _ _ _ (Some (map arg_name (mutation_args mutation)))
               (eq_refl : ret _ _ = _)).
    erewrite bind_Return by (apply Snippet_run; reflexivity).
    reflexivity. }
  rewrite Hrun. cbn [fst snd trace]. rewrite <- app_assoc.
  split; reflexivity.
Qed.

(** ** Introspection: the field cache *)

(** A populated entry is only read: the call returns its fields and leaves
    the world as it is (no request, no change of the cache). *)
Lemma introspectFields_from_hit (rpath : list string) (w : world)
    (fields : list string) (type : string) :
  introspectionFieldsCache w !! pathKey (rev rpath) =
    Some {| entry_fields := Some fields; entry_type := type |} ->
  introspectFields_from rpath w = (Return fields, w).
Proof.
  intros H.
  destruct rpath; cbn [introspectFields_from]; unfold bind at 1, cacheLookup;
    rewrite H; reflexivity.
Qed.

Lemma cacheStore_run (key : string) (entry : cacheEntry) (w w' : world) (u : unit) :
  cacheStore key entry w = (Return u, w') ->
  introspectionFieldsCache w' !! key = Some entry.
Proof.
  unfold cacheStore. intros H. injection H as _ <-.
  cbn [introspectionFieldsCache]. apply lookup_insert_eq.
Qed.

(** The last thing a call that had to ask the endpoint does is to store the
    fields it returns under its own path. *)
Lemma introspectFields_store (key : string) (type : M string)
    (record : list fieldObject -> M (list string))
    (w w' : world) (fields : list string) :
  (type <- type ;;
   result <- runQuery (fieldsQuery type) true ;;
   reply <- replyFields result ;;
   fields <- record reply ;;
   cacheStore key {| entry_fields := Some fields; entry_type := type |} ;;;
   ret fields) w = (Return fields, w') ->
  exists type,
    introspectionFieldsCache w' !! key =
    Some {| entry_fields := Some fields; entry_type := type |}.
Proof.
  intros H.
  apply bind_inv in H as (t & w1 & _ & H).
  apply bind_inv in H as (result & w2 & _ & H).
  apply bind_inv in H as (reply & w3 & _ & H).
  apply bind_inv in H as (fs & w4 & _ & H).
  apply bind_inv in H as (u & w5 & Hstore & H).
  injection H as -> ->.
  exists t. exact (cacheStore_run _ _ _ _ _ Hstore).
Qed.

Lemma introspectFields_from_populates (rpath : list string) (w w' : world)
    (fields : list string) :
  introspectFields_from rpath w = (Return fields, w') ->
  exists type,
    introspectionFieldsCache w' !! pathKey (rev rpath) =
    Some {| entry_fields := Some fields; entry_type := type |}.
Proof.
  destruct rpath as [|last rprev]; cbn [introspectFields_from];
    unfold bind at 1, cacheLookup;
    destruct (introspectionFieldsCache w !! _) as [[[fs|] t]|] eqn:Hcache;
    intros H;
    try (injection H as -> ->; eauto);
    exact (introspectFields_store _ _ _ _ _ _ H).
Qed.

(** C3: when a call of [introspectFields] on a path returns a list of
    fields, the next call on the same path returns the same list and leaves
    the world exactly as it found it: nothing is sent to the endpoint and
    the cache entry is read, not computed again. *)
Theorem introspectFields_memo (path : list string) (w w' : world)
    (fields : list string) :
  introspectFields path w = (Return fields, w') ->
  introspectFields path w' = (Return fields, w') /\
  trace (snd (introspectFields path w')) = trace w' /\
  network (snd (introspectFields path w')) = network w'.
Proof.
  unfold introspectFields. intros H.
  destruct (introspectFields_from_populates _ _ _ _ H) as [type Hentry].
  rewrite (introspectFields_from_hit _ _ _ _ Hentry). auto.
Qed.

Lemma introspectFields_memo_witness :
  introspectFields [] (start [queryTypeReply] []) = (Return ["user"], rootKnown) /\
  introspectFields [] rootKnown = (Return ["user"], rootKnown) /\
  trace (snd (introspectFields [] rootKnown)) = trace rootKnown /\
  network (snd (introspectFields [] rootKnown)) = network rootKnown.
Proof.
  assert (H : introspectFields [] (start [queryTypeReply] []) =
              (Return ["user"], rootKnown)) by reflexivity.
  split; [exact H |].
  exact (introspectFields_memo [] (start [queryTypeReply] []) rootKnown ["user"] H).
Defined.

(** ** Sessions: populated entries stay *)

Lemma join_head (sep p : string) (rest : list string) :
  join sep (p :: rest) =
  p +:+ match rest with
        | [] => ""
        | _ :: _ => sep +:+ join sep rest
        end.
Proof. destruct rest; [simpl; now rewrite string_app_nil_r | reflexivity]. Qed.

(** Two names without commas, each followed by nothing or by a comma and
    more text: equal texts have equal names and equal remainders. *)
Lemma name_split (a b x y : string) :
  allChars (fun c => negb (Ascii.eqb c ",")) a = true ->
  allChars (fun c => negb (Ascii.eqb c ",")) b = true ->
  (x = "" \/ exists x', x = String "," x') ->
  (y = "" \/ exists y', y = String "," y') ->
  a +:+ x = b +:+ y -> a = b /\ x = y.
Proof.
  revert b. induction a as [|c a IH]; intros b Ha Hb Hx Hy H.
  - destruct b as [|d b]; [now split |].
    rewrite string_app_nil_l, string_app_cons in H. exfalso.
    cbn [allChars] in Hb. apply andb_prop in Hb as [Hd _].
    destruct Hx as [-> | [x' ->]]; [discriminate |].
    injection H as <- _. discriminate Hd.
  - destruct b as [|d b].
    + rewrite string_app_nil_l, string_app_cons in H. exfalso.
      cbn [allChars] in Ha. apply andb_prop in Ha as [Hc _].
      destruct Hy as [-> | [y' ->]]; [discriminate |].
      injection H as -> _. discriminate Hc.
    + rewrite !string_app_cons in H. injection H as -> H.
      cbn [allChars] in Ha, Hb.
      apply andb_prop in Ha as [_ Ha]. apply andb_prop in Hb as [_ Hb].
      destruct (IH b Ha Hb Hx Hy H) as [-> ->]. now split.
Qed.

Lemma validName_chars (n : string) :
  validName n = true ->
  n <> "" /\ allChars (fun c => negb (Ascii.eqb c ",")) n = true.
Proof. destruct n; [discriminate |]. intros H. split; [discriminate | exact H]. Qed.

(** The key tells the path, for paths of valid names. *)
Lemma pathKey_inj (p q : list string) :
  validPath p -> validPath q -> pathKey p = pathKey q -> p = q.
Proof.
  unfold pathKey. revert q.
  induction p as [|a p IH]; intros q Hp Hq H.
  - destruct q as [|b q]; [reflexivity |]. exfalso.
    apply Forall_cons in Hq as [Hb _]. apply validName_chars in Hb as [Hb _].
    rewrite join_head in H. destruct b; [congruence | discriminate H].
  - apply Forall_cons in Hp as [Ha Hp]. apply validName_chars in Ha as [Ha0 Ha].
    destruct q as [|b q].
    + exfalso. rewrite join_head in H. destruct a; [congruence | discriminate H].
    + apply Forall_cons in Hq as [Hb Hq]. apply validName_chars in Hb as [Hb0 Hb].
      rewrite !join_head in H.
      apply name_split in H as [-> H]; try assumption.
      * f_equal. destruct p as [|a' p], q as [|b' q];
          [reflexivity | discriminate H | discriminate H |].
        assert (H' : join "," (a' :: p) = join "," (b' :: q)).
        { change ("," +:+ join "," (a' :: p)) with (String "," (join "," (a' :: p))) in H.
          change ("," +:+ join "," (b' :: q)) with (String "," (join "," (b' :: q))) in H.
          now injection H. }
        exact (IH _ Hp Hq H').
      * destruct p; [now left | right; eexists; reflexivity].
      * destruct q; [now left | right; eexists; reflexivity].
Qed.

Lemma closed_same (w w' : world) :
  (forall key fields, populated w' key fields <-> populated w key fields) ->
  closed w -> closed w'.
Proof.
  intros Hsame Hclosed path n Hvalid [fs Hfs].
  apply Hsame in Hfs.
  destruct (Hclosed path n Hvalid (ex_intro _ fs Hfs)) as [fs' Hfs'].
  exists fs'. now apply Hsame.
Qed.

Lemma populated_cache (w w' : world) (key : string) (fields : list string) :
  introspectionFieldsCache w' = introspectionFieldsCache w ->
  populated w' key fields <-> populated w key fields.
Proof. unfold populated. intros ->. tauto. Qed.

Lemma stable_refl (path : list string) (w : world) :
  closed w -> Forall validReply (network w) -> stable path w w.
Proof. intros Hc Hn. repeat split; auto. Qed.

(** Only the cache matters. *)
Lemma stable_cache (path : list string) (w w1 w2 : world) :
  stable path w w1 ->
  introspectionFieldsCache w2 = introspectionFieldsCache w1 ->
  Forall validReply (network w2) ->
  stable path w w2.
Proof.
  intros (Hc & _ & Hkeep & Hnew) Hcache Hnet.
  pose proof (fun k fs => populated_cache w1 w2 k fs Hcache) as Hsame.
  repeat split.
  - exact (closed_same _ _ Hsame Hc).
  - exact Hnet.
  - intros key fields H. apply Hsame. now apply Hkeep.
  - intros key [fs H]. apply Hnew. exists fs. now apply Hsame.
Qed.

Lemma stable_longer (path : list string) (n : string) (w w' : world) :
  stable path w w' -> stable (path ++ [n]) w w'.
Proof.
  intros (Hc & Hn & Hkeep & Hnew). repeat split; auto.
  intros key H. destruct (Hnew key H) as [H' | (above & below & -> & ->)];
    [now left | right].
  exists above, (below ++ [n]). now rewrite app_assoc.
Qed.

(** The loop over the fields of a reply writes entries without fields under
    the children of a path that has no fields itself: no populated entry is
    touched. *)
Lemma recordFields_stable (path : list string) (reply : list fieldObject) :
  validPath path ->
  Forall (fun f => validName (field_name f) = true) reply ->
  forall (fields : list string) (w : world),
    closed w ->
    ~ isPopulated w (pathKey path) ->
    let w' := snd (recordFields path reply fields w) in
    (forall key fs, populated w' key fs <-> populated w key fs) /\
    network w' = network w.
Proof.
  intros Hpath. induction 1 as [|field reply Hname Hreply IH];
    intros fields w Hclosed Hmiss; cbn [recordFields].
  - now split.
  - destruct (getTypeName (field_type field)) as [type|e]; [| now split].
    pose (w1 := snd (cacheStore (pathKey (path ++ [field_name field]))
                       {| entry_fields := None; entry_type := type |} w)).
    change ((cacheStore (pathKey (path ++ [field_name field]))
               {| entry_fields := None; entry_type := type |} ;;;
             recordFields path reply (fields ++ [field_name field])) w)
      with (recordFields path reply (fields ++ [field_name field]) w1).
    assert (Hsame : forall key fs, populated w1 key fs <-> populated w key fs).
    { intros key fs. unfold populated, w1, cacheStore.
      cbn [snd introspectionFieldsCache].
      destruct (decide (pathKey (path ++ [field_name field]) = key)) as [<- | Hne].
      - rewrite lookup_insert_eq. split.
        + intros [t Ht]. discriminate Ht.
        + intros H. exfalso. apply Hmiss.
          apply (Hclosed path (field_name field)).
          * apply Forall_app. split; [exact Hpath | now constructor].
          * now exists fs.
      - now rewrite lookup_insert_ne. }
    assert (Hclosed1 : closed w1) by exact (closed_same _ _ Hsame Hclosed).
    assert (Hmiss1 : ~ isPopulated w1 (pathKey path)).
    { intros [fs H]. apply Hmiss. exists fs. now apply Hsame. }
    destruct (IH (fields ++ [field_name field]) w1 Hclosed1 Hmiss1) as [Hiff Hnet].
    split.
    + intros key fs. rewrite Hiff. apply Hsame.
    + rewrite Hnet. reflexivity.
Qed.

Lemma replyFields_run (result : member dataObject) (w w' : world)
    (reply : list fieldObject) :
  replyFields result w = (Return reply, w') ->
  w' = w /\
  exists d, result = Present d /\
            reply = match __type d with
                    | Present (Present fs) => fs
                    | _ => []
                    end.
Proof.
  unfold replyFields. destruct result as [| | d]; try discriminate.
  destruct (__type d) as [| | [| | fs]] eqn:E; intros H; injection H as <- <-;
    (split; [reflexivity | exists d; rewrite E; split; reflexivity]).
Qed.

Lemma replyFields_world (result : member dataObject) (w : world) :
  snd (replyFields result w) = w.
Proof.
  unfold replyFields. destruct result as [| | d]; try reflexivity.
  destruct (__type d) as [| | [| | fs]]; reflexivity.
Qed.

Lemma validReply_fields (r : response) (b : body) (d : dataObject) :
  validReply r -> json r = Some (Body b) -> data b = Present d ->
  Forall (fun f => validName (field_name f) = true)
    match __type d with
    | Present (Present fs) => fs
    | _ => []
    end.
Proof.
  unfold validReply. intros H Hj Hd. rewrite Hj in H. destruct b as [errs dat].
  cbn [data] in Hd. subst dat. destruct d as [[| | [| | fs]]]; cbn [__type];
    try constructor. exact H.
Qed.

(** The part of [introspectFields] that asks the endpoint, after the type of
    the path has been found by [findType]. *)
Lemma introspectFields_ask_stable (path : list string) (findType : M string)
    (w : world) :
  validPath path ->
  (forall r w1, findType w = (r, w1) ->
     stable path w w1 /\
     (forall type, r = Return type ->
        ~ isPopulated w1 (pathKey path) /\
        (forall prev n, path = prev ++ [n] -> isPopulated w1 (pathKey prev)))) ->
  stable path w
    (snd ((type <- findType ;;
           result <- runQuery (fieldsQuery type) true ;;
           reply <- replyFields result ;;
           fields <- recordFields path reply [] ;;
           cacheStore (pathKey path)
             {| entry_fields := Some fields; entry_type := type |} ;;;
           ret fields) w)).
Proof.
  intros Hpath Hfind.
  destruct (findType w) as [[type|e] w1] eqn:Efind.
  2: { rewrite (bind_Throw _ _ _ _ _ Efind). apply (Hfind _ _ eq_refl). }
  rewrite (bind_Return _ _ _ _ _ Efind).
  destruct (Hfind _ _ eq_refl) as [Hst Hret].
  destruct (Hret type eq_refl) as [Hmiss Hprev]. clear Hret Hfind.
  pose proof Hst as (Hc1 & Hn1 & Hkeep1 & Hnew1).
  unfold bind at 1. rewrite runQuery_run.
  destruct (network w1) as [|r rest] eqn:Enet.
  { apply (stable_cache path w w1 _ Hst); [reflexivity | constructor]. }
  apply Forall_cons in Hn1 as [Hr Hrest].
  destruct (ok r);
    [| apply (stable_cache path w w1 _ Hst); [reflexivity | exact Hrest]].
  destruct (json r) as [result0|] eqn:Ejson;
    [| apply (stable_cache path w w1 _ Hst); [reflexivity | exact Hrest]].
  destruct (checkResult result0) as [d0|e0] eqn:Echeck;
    [| apply (stable_cache path w w1 _ Hst); [reflexivity | exact Hrest]].
  apply checkResult_Return in Echeck as (b & -> & ->).
  set (w2 := after w1 rest [Fetch (fieldsQuery type); ParseJson]).
  assert (Hst2 : stable path w w2)
    by (apply (stable_cache path w w1 _ Hst); [reflexivity | exact Hrest]).
  destruct (replyFields (data b) w2) as [[reply|e] w2'] eqn:Ereply.
  2: { rewrite (bind_Throw _ _ _ _ _ Ereply).
       pose proof (replyFields_world (data b) w2) as Hw. rewrite Ereply in Hw.
       cbn [snd] in *. now subst w2'. }
  rewrite (bind_Return _ _ _ _ _ Ereply).
  apply replyFields_run in Ereply as (-> & d & Hdata & ->).
  pose proof (validReply_fields r b d Hr Ejson Hdata) as Hvalid.
  set (reply := match __type d with Present (Present fs) => fs | _ => [] end) in *.
  destruct Hst2 as (Hc2 & Hn2 & Hkeep2 & Hnew2).
  assert (Hmiss2 : ~ isPopulated w2 (pathKey path)) by exact Hmiss.
  destruct (recordFields_stable path reply Hpath Hvalid [] w2 Hc2 Hmiss2)
    as [Hsame Hnet].
  destruct (recordFields path reply [] w2) as [[fields|e] w3] eqn:Erecord;
    cbn [snd] in Hsame, Hnet.
  2: { rewrite (bind_Throw _ _ _ _ _ Erecord). cbn [snd]. repeat split.
       - exact (closed_same _ _ Hsame Hc2).
       - now rewrite Hnet.
       - intros key fs H. apply Hsame. now apply Hkeep2.
       - intros key [fs H]. apply Hnew2. exists fs. now apply Hsame. }
  rewrite (bind_Return _ _ _ _ _ Erecord).
  unfold bind, cacheStore, ret. cbn [snd].
  set (w4 := {| introspectionFieldsCache := _ |}).
  assert (Hin : forall key fs, populated w3 key fs -> populated w4 key fs).
  { intros key fs [t H]. unfold populated, w4. cbn [introspectionFieldsCache].
    destruct (decide (pathKey path = key)) as [<- | Hne].
    - exfalso. apply Hmiss2. exists fs. apply Hsame. now exists t.
    - rewrite lookup_insert_ne by exact Hne. now exists t. }
  assert (Hout : forall key, isPopulated w4 key ->
                   key = pathKey path \/ isPopulated w3 key).
  { intros key [fs [t H]]. unfold w4 in H. cbn [introspectionFieldsCache] in H.
    destruct (decide (pathKey path = key)) as [<- | Hne]; [now left | right].
    rewrite lookup_insert_ne in H by exact Hne. now exists fs, t. }
  assert (Hself : isPopulated w4 (pathKey path)).
  { exists fields, type. unfold w4. cbn [introspectionFieldsCache].
    apply lookup_insert_eq. }
  repeat split.
  - intros p n Hpn Hchild. apply Hout in Hchild as [Hkey | [fs Hchild]].
    + apply pathKey_inj in Hkey; [| exact Hpn | exact Hpath].
      destruct (Hprev p n (eq_sym Hkey)) as [fs Hfs].
      exists fs. apply Hin. now apply Hsame.
    + apply Hsame in Hchild.
      destruct (Hc2 p n Hpn (ex_intro _ fs Hchild)) as [fs' Hfs'].
      exists fs'. apply Hin. now apply Hsame.
  - unfold w4. cbn [network]. now rewrite Hnet.
  - intros key fs H. apply Hin, Hsame. now apply Hkeep2.
  - intros key H. apply Hout in H as [-> | [fs H]].
    + right. exists path, []. now rewrite app_nil_r.
    + apply Hnew2. exists fs. now apply Hsame.
Qed.

Lemma validPath_above (above below : list string) :
  validPath (above ++ below) -> validPath above.
Proof. unfold validPath. intros H. now apply Forall_app in H as [H _]. Qed.

(** A call of [introspectFields] keeps the populated entries of a session,
    whatever the endpoint answers and whether the call returns or throws. *)
Lemma introspectFields_from_stable (rpath : list string) :
  validPath (rev rpath) ->
  forall w, closed w -> Forall validReply (network w) ->
  stable (rev rpath) w (snd (introspectFields_from rpath w)).
Proof.
  induction rpath as [|last rprev IH]; intros Hpath w Hc Hn.
  - cbn [introspectFields_from]. unfold bind at 1, cacheLookup.
    destruct (introspectionFieldsCache w !! pathKey (rev [])) as [[[fs|] t]|] eqn:Ecache;
      [now apply stable_refl | |];
      (apply introspectFields_ask_stable; [exact Hpath |];
       intros r w1 H; injection H as <- <-;
       split; [now apply stable_refl |];
       intros type _; split;
       [intros [fs [t' H]]; rewrite Ecache in H; discriminate H
       |intros prev n H; destruct prev; discriminate H]).
  - change (rev (last :: rprev)) with (rev rprev ++ [last]) in *.
    assert (Hprev : validPath (rev rprev)) by exact (validPath_above _ _ Hpath).
    specialize (IH Hprev w Hc Hn).
    cbn [introspectFields_from].
    change (rev (last :: rprev)) with (rev rprev ++ [last]).
    unfold bind at 1, cacheLookup.
    assert (Hask : ~ isPopulated w (pathKey (rev rprev ++ [last])) ->
      stable (rev rprev ++ [last]) w
        (snd ((type <-
                 (introspectFields_from rprev ;;;
                  entry <- cacheLookup (pathKey (rev rprev ++ [last])) ;;
                  match entry with
                  | None => throw (Error ("Failed to inspect " +:+
                                          pathKey (rev rprev ++ [last])))
                  | Some e => ret (entry_type e)
                  end) ;;
               result <- runQuery (fieldsQuery type) true ;;
               reply <- replyFields result ;;
               fields <- recordFields (rev rprev ++ [last]) reply [] ;;
               cacheStore (pathKey (rev rprev ++ [last]))
                 {| entry_fields := Some fields; entry_type := type |} ;;;
               ret fields) w))).
    { intros Hmiss. apply introspectFields_ask_stable; [exact Hpath |].
      intros r w1 H. unfold bind at 1 in H.
      destruct (introspectFields_from rprev w) as [[fs0|e0] w0] eqn:Erec;
        cbn [snd] in IH.
      2: { injection H as <- <-. split; [now apply stable_longer |].
           intros type H. discriminate H. }
      pose proof IH as (_ & _ & _ & Hnew).
      unfold bind, cacheLookup in H.
      destruct (introspectionFieldsCache w0 !! _) as [e|];
        injection H as <- <-; (split; [now apply stable_longer |]);
        intros type H; [clear H | discriminate H].
      split.
      - intros Hp. destruct (Hnew _ Hp) as [H | (above & below & Heq & Hkey)];
          [now apply Hmiss |].
        apply pathKey_inj in Hkey;
          [| exact Hpath | rewrite Heq in Hprev; exact (validPath_above _ _ Hprev)].
        subst above. apply (f_equal length) in Heq.
        rewrite !length_app in Heq. cbn [length] in Heq. lia.
      - intros prev n Heq. apply app_inj_tail in Heq as [<- _].
        destruct (introspectFields_from_populates _ _ _ _ Erec) as [t Ht].
        now exists fs0, t. }
    destruct (introspectionFieldsCache w !! pathKey (rev rprev ++ [last]))
      as [[[fs|] t]|] eqn:Ecache.
    + now apply stable_refl.
    + apply Hask. intros [fs [t' H]]. rewrite Ecache in H. discriminate H.
    + apply Hask. intros [fs [t' H]]. rewrite Ecache in H. discriminate H.
Qed.

Lemma closed_start (replies : list response) (answers : list keys) :
  closed (start replies answers).
Proof.
  intros path n _ [fs [t H]]. cbn [start introspectionFieldsCache] in H.
  rewrite lookup_empty in H. discriminate H.
Qed.

(** Over a whole session of calls on valid paths, an entry that has its
    fields keeps them. *)
Lemma session_keeps (paths : list (list string)) :
  Forall validPath paths ->
  forall w, closed w -> Forall validReply (network w) ->
  forall key fields,
    populated w key fields -> populated (session paths w) key fields.
Proof.
  induction 1 as [|path paths Hpath Hpaths IH]; intros w Hc Hn key fields H;
    [exact H |].
  cbn [session]. unfold introspectFields.
  assert (Hrev : validPath (rev (rev path))) by now rewrite rev_involutive.
  destruct (introspectFields_from_stable (rev path) Hrev w Hc Hn)
    as (Hc' & Hn' & Hkeep & _).
  apply IH; auto.
Qed.

(** Once a call on a path has returned, every later call on that path in
    the session returns the same fields and leaves the world as it is,
    whatever calls on other paths come in between. *)
Lemma introspectFields_session (path : list string) (paths : list (list string))
    (w w1 : world) (fields : list string) :
  validPath path -> Forall validPath paths ->
  closed w -> Forall validReply (network w) ->
  introspectFields path w = (Return fields, w1) ->
  introspectFields path (session paths w1) = (Return fields, session paths w1).
Proof.
  intros Hpath Hpaths Hc Hn Hcall.
  assert (Hrev : validPath (rev (rev path))) by now rewrite rev_involutive.
  pose proof (introspectFields_from_stable (rev path) Hrev w Hc Hn)
    as (Hc1 & Hn1 & _ & _).
  unfold introspectFields in *. rewrite Hcall in Hc1, Hn1. cbn [snd] in Hc1, Hn1.
  destruct (introspectFields_from_populates _ _ _ _ Hcall) as [type Hentry].
  assert (Hpop : populated w1 (pathKey (rev (rev path))) fields) by now exists type.
  destruct (session_keeps paths Hpaths w1 Hc1 Hn1 _ _ Hpop) as [type' Hentry'].
  exact (introspectFields_from_hit _ _ _ _ Hentry').
Qed.

(** A session on the schema [Query { user: User }], [User { id: ID! }]:
    the root is introspected, then [user], then the root again. *)
Lemma introspectFields_session_witness :
  let w := start [queryTypeReply; userTypeReply] [] in
  let w1 := snd (introspectFields [] w) in
  validPath [] /\ Forall validPath [["user"]] /\
  closed w /\ Forall validReply (network w) /\
  introspectFields [] w = (Return ["user"], w1) /\
  introspectFields [] (session [["user"]] w1) =
    (Return ["user"], session [["user"]] w1).
Proof.
  intros w w1.
  assert (Hpath : validPath []) by constructor.
  assert (Hpaths : Forall validPath [["user"]]) by (repeat constructor).
  assert (Hclosed : closed w) by apply closed_start.
  assert (Hreplies : Forall validReply (network w)) by (repeat constructor).
  assert (Hcall : introspectFields [] w = (Return ["user"], w1)) by reflexivity.
  repeat (split; [assumption |]).
  exact (introspectFields_session [] [["user"]] w w1 ["user"]
           Hpath Hpaths Hclosed Hreplies Hcall).
Defined.

(** What that session has sent: one request for each of the two types. *)
Example session_user_trace :
  trace (session [["user"]]
           (snd (introspectFields [] (start [queryTypeReply; userTypeReply] [])))) =
  [Fetch (fieldsQuery "Query"); ParseJson; Fetch (fieldsQuery "User"); ParseJson].
Proof. reflexivity. Qed.

(** * Further properties of the code *)

(** ** Type names *)


(** ** One request per run *)

(** What a call of [runQuery] does to the world, whatever the endpoint
    does. *)
Lemma runQuery_effects (query : string) (silent : bool) (w : world) :
  let w' := snd (runQuery query silent w) in
  (exists tail,
     trace w' = trace w ++ Fetch query :: tail /\
     (tail = [] \/ tail = [ReadText] \/ tail = [ParseJson])) /\
  network w' = tl (network w) /\
  introspectionFieldsCache w' = introspectionFieldsCache w /\
  introspectionMuationCache w' = introspectionMuationCache w /\
  terminal w' = terminal w.
Proof.
  cbn zeta. rewrite runQuery_run.
  destruct (network w) as [|r rest]; [| destruct (ok r)];
    [| destruct (json r) as [result|] |];
    cbn [snd after trace network introspectionFieldsCache
         introspectionMuationCache terminal tl];
    (split; [eexists; split; [reflexivity | auto] | auto]).
Qed.

(** Whatever the endpoint does, a call of [runQuery] sends exactly one
    request, with the query it was given; it takes at most the next reply,
    reads it once (as text or as JSON, never both), and touches neither the
    caches nor the operator's answers. *)
Theorem runQuery_one_request (query : string) (silent : bool) (w : world) :
  let w' := snd (runQuery query silent w) in
  (exists tail,
     trace w' = trace w ++ Fetch query :: tail /\
     (tail = [] \/ tail = [ReadText] \/ tail = [ParseJson])) /\
  network w' = tl (network w) /\
  introspectionFieldsCache w' = introspectionFieldsCache w /\
  introspectionMuationCache w' = introspectionMuationCache w /\
  terminal w' = terminal w.
Proof. exact (runQuery_effects query silent w). Qed.

Lemma runQuery_returns (query : string) (silent : bool) (w : world)
    (r : response) (rest : list response) (b : body) :
  network w = r :: rest ->
  (200 <= status r < 300)%Z ->
  json r = Some (Body b) ->
  errors b = None ->
  runQuery query silent w =
  (Return (data b), after w rest [Fetch query; ParseJson]).
Proof.
  intros Hnet Hstatus Hjson Herr. apply ok_2xx in Hstatus.
  now rewrite runQuery_run, Hnet, Hstatus, Hjson, (checkResult_data b Herr).
Qed.

(** In silent mode, a 2xx reply whose body decodes to something other than
    [null] and has no [errors] member, or one that counts as false, gives
    back the [data] member of the body as it is: a value, [null], or
    [undefined] where there is none. *)
Theorem runQuery_data (query : string) (w : world)
    (r : response) (rest : list response) (b : body) :
  network w = r :: rest ->
  (200 <= status r < 300)%Z ->
  json r = Some (Body b) ->
  (forall errs, errors b = Some errs -> ToBoolean errs = false) ->
  runQuery query true w =
  (Return (data b), after w rest [Fetch query; ParseJson]).
Proof.
  intros Hnet Hstatus Hjson Herr. apply ok_2xx in Hstatus.
  now rewrite runQuery_run, Hnet, Hstatus, Hjson, (checkResult_falsy b Herr).
Qed.

Lemma runQuery_data_witness :
  network (start [emptyDataReply] []) = [emptyDataReply] /\
  (200 <= status emptyDataReply < 300)%Z /\
  runQuery "{ me }" true (start [emptyDataReply] []) =
  (Return (Present {| __type := Missing |}),
   after (start [emptyDataReply] []) [] [Fetch "{ me }"; ParseJson]).
Proof.
  split; [reflexivity |]. split; [simpl; lia |].
  apply (runQuery_data "{ me }" (start [emptyDataReply] []) emptyDataReply []
           {| errors := None; data := Present {| __type := Missing |} |});
    [reflexivity | simpl; lia | reflexivity | discriminate].
Defined.

(** The body [null] is decoded, and reading its [errors] throws. *)
Example runQuery_null_body :
  runQuery "{ me }" true (start [nullReply] []) =
  (Throw (TypeError "Cannot read properties of null (reading 'errors')"),
   after (start [nullReply] []) [] [Fetch "{ me }"; ParseJson]).
Proof. reflexivity. Qed.

(** ** The mutation session when the run fails *)

(** When the mutation itself fails, [executeMutation] fails with the same
    error and stops there: no menu is shown and no answer of the operator
    is used. *)
Theorem executeMutation_failed_run (mutationString : string)
    (name : option string) (w : world) (e : exn) :
  fst (runQuery mutationString false w) = Throw e ->
  executeMutation mutationString name w =
    (Throw e, snd (runQuery mutationString false w)) /\
  terminal (snd (executeMutation mutationString name w)) = terminal w /\
  forall choices,
    In (AskSelect choices) (trace (snd (executeMutation mutationString name w))) ->
    In (AskSelect choices) (trace w).
Proof.
  intros Hrun.
  assert (Hexec : executeMutation mutationString name w =
                  (Throw e, snd (runQuery mutationString false w))).
  { unfold executeMutation.
    destruct (runQuery mutationString false w) as [c w1] eqn:E.
    cbn [fst] in Hrun. subst c. now rewrite (bind_Throw _ _ _ _ _ E). }
  rewrite Hexec. cbn [snd]. split; [reflexivity |].
  destruct (runQuery_effects mutationString false w)
    as ((tail & Htrace & Htail) & _ & _ & _ & Hterm).
  split; [exact Hterm |].
  intros choices Hin. rewrite Htrace in Hin.
  apply in_app_or in Hin as [Hin | Hin]; [exact Hin |].
  exfalso. destruct Hin as [Hin | Hin]; [discriminate Hin |].
  destruct Htail as [-> | [-> | ->]]; cbn in Hin;
    repeat (destruct Hin as [Hin | Hin]; [discriminate Hin |]); exact Hin.
Qed.

Lemma executeMutation_failed_run_witness :
  let w := start [serverErrorReply] [Pick 0] in
  fst (runQuery "mutation { ping }" false w) = Throw (Error "HTTPError") /\
  executeMutation "mutation { ping }" None w =
    (Throw (Error "HTTPError"), snd (runQuery "mutation { ping }" false w)) /\
  terminal (snd (executeMutation "mutation { ping }" None w)) = terminal w /\
  forall choices,
    In (AskSelect choices)
       (trace (snd (executeMutation "mutation { ping }" None w))) ->
    In (AskSelect choices) (trace w).
Proof.
  intros w. split; [reflexivity |].
  apply (executeMutation_failed_run "mutation { ping }" None w (Error "HTTPError")).
  reflexivity.
Defined.

(** ** The mutation builder before the list is cached *)

(** Called while the mutation cache is still empty, [buildMutation] never
    gets to a prompt: it fails with the error of the introspection, or, when
    the introspection went well, with the TypeError of reading [map] from
    the [undefined] that first call of [introspectMutations] returned. *)
Theorem buildMutation_cold (w : world) :
  introspectionMuationCache w = None ->
  match fst (introspectMutations w) with
  | Return _ =>
      fst (buildMutation w) =
      Throw (TypeError "Cannot read properties of undefined (reading 'map')")
  | Throw e => fst (buildMutation w) = Throw e
  end /\
  snd (buildMutation w) = snd (introspectMutations w).
Proof.
  intros Hcache. unfold buildMutation.
  destruct (introspectMutations w) as [[result|e] w1] eqn:E; cbn [fst snd].
  - destruct (introspectMutations_uncached w w1 result Hcache E) as (-> & _).
    rewrite (bind_Return _ _ _ _ _ E). split; reflexivity.
  - rewrite (bind_Throw _ _ _ _ _ E). split; reflexivity.
Qed.

Lemma buildMutation_cold_witness :
  let w := start [mutationsReply] [Pick 0] in
  introspectionMuationCache w = None /\
  match fst (introspectMutations w) with
  | Return _ =>
      fst (buildMutation w) =
      Throw (TypeError "Cannot read properties of undefined (reading 'map')")
  | Throw e => fst (buildMutation w) = Throw e
  end /\
  snd (buildMutation w) = snd (introspectMutations w).
Proof.
  intros w. split; [reflexivity |].
  apply (buildMutation_cold w). reflexivity.
Defined.

(** ** The mutation list over two calls *)

(** From an empty cache and an endpoint that lists the fields of its
    [Mutation] type, the call after the first returns one descriptor per
    field, in the order of the reply, with the name and the arguments of the
    field; the two calls together have sent one request. *)
Theorem introspectMutations_twice (w : world) (r : response)
    (rest : list response) (b : body) (d : dataObject) (fs : list fieldObject) :
  introspectionMuationCache w = None ->
  network w = r :: rest ->
  (200 <= status r < 300)%Z ->
  json r = Some (Body b) -> errors b = None ->
  data b = Present d -> __type d = Present (Present fs) ->
  let w1 := snd (introspectMutations w) in
  introspectMutations w1 = (Return (Some (map descriptorOf fs)), w1) /\
  trace w1 = trace w ++ [Fetch mutationsQuery; ParseJson] /\
  network w1 = rest.
Proof.
  intros Hcache Hnet Hstatus Hjson Herr Hdata Htype w1.
  assert (Hfirst : introspectMutations w =
    (Return None,
     {| introspectionFieldsCache := introspectionFieldsCache w;
        introspectionMuationCache := Some (map descriptorOf fs);
        network := rest;
        terminal := terminal w;
        trace := trace w ++ [Fetch mutationsQuery; ParseJson] |})).
  { unfold introspectMutations.
    rewrite (bind_Return _ _ w w None) by (unfold readMutationCache; now rewrite Hcache).
    rewrite (bind_Return _ _ _ _ _
               (runQuery_returns mutationsQuery true w r rest b Hnet Hstatus Hjson Herr)).
    unfold mutationFields. rewrite Hdata, Htype.
    reflexivity. }
  subst w1. rewrite Hfirst. cbn [snd].
  split; [| split; reflexivity].
  now apply introspectMutations_cached.
Qed.

Lemma introspectMutations_twice_witness :
  let w := start [mutationsReply] [] in
  let w1 := snd (introspectMutations w) in
  introspectionMuationCache w = None /\
  network w = [mutationsReply] /\
  (200 <= status mutationsReply < 300)%Z /\
  introspectMutations w1 = (Return (Some (map descriptorOf [createUser])), w1) /\
  trace w1 = trace w ++ [Fetch mutationsQuery; ParseJson] /\
  network w1 = [].
Proof.
  intros w w1. split; [reflexivity |]. split; [reflexivity |].
  split; [simpl; lia |].
  apply (introspectMutations_twice w mutationsReply []
           {| errors := None;
              data := Present {| __type := Present (Present [createUser]) |} |}
           {| __type := Present (Present [createUser]) |} [createUser]);
    [reflexivity | reflexivity | simpl; lia | reflexivity | reflexivity
    | reflexivity | reflexivity].
Defined.

Lemma mutationFields_world (result : member dataObject) (w : world) :
  snd (mutationFields result w) = w.
Proof.
  unfold mutationFields. destruct result as [| | d]; try reflexivity.
  destruct (__type d) as [| | [| | fs]]; reflexivity.
Qed.

(** [introspectMutations] on an empty cache, in terms of the run of its
    query and of the reading of the result. *)
Lemma introspectMutations_run (w : world) :
  introspectionMuationCache w = None ->
  introspectMutations w =
  match runQuery mutationsQuery true w with
  | (Throw e, w1) => (Throw e, w1)
  | (Return result, w1) =>
      match fst (mutationFields result w1) with
      | Throw e => (Throw e, w1)
      | Return fs =>
          (Return None,
           {| introspectionFieldsCache := introspectionFieldsCache w1;
              introspectionMuationCache :=
                Some (map (fun it => {| mutation_name := field_name it;
                                        mutation_args := field_args it |}) fs);
              network := network w1;
              terminal := terminal w1;
              trace := trace w1 |})
      end
  end.
Proof.
  intros Hcache. unfold introspectMutations.
  rewrite (bind_Return _ _ w w None) by (unfold readMutationCache; now rewrite Hcache).
  unfold bind at 1.
  destruct (runQuery mutationsQuery true w) as [[result|e] w1]; [| reflexivity].
  unfold bind at 1. pose proof (mutationFields_world result w1) as Hworld.
  destruct (mutationFields result w1) as [[fs|e] w2]; cbn [fst snd] in *;
    subst w2; reflexivity.
Qed.

(** A call of [introspectMutations] that fails leaves the cache empty, so
    that the next call asks the endpoint again. *)
Theorem introspectMutations_failure_not_cached (w : world) (e : exn) :
  introspectionMuationCache w = None ->
  fst (introspectMutations w) = Throw e ->
  introspectionMuationCache (snd (introspectMutations w)) = None.
Proof.
  intros Hcache. rewrite (introspectMutations_run w Hcache).
  destruct (runQuery_effects mutationsQuery true w) as (_ & _ & _ & Hsame & _).
  rewrite Hcache in Hsame.
  destruct (runQuery mutationsQuery true w) as [[result|e'] w1]; cbn [snd] in Hsame;
    [| intros _; exact Hsame].
  destruct (fst (mutationFields result w1)) as [fs|e']; cbn [fst snd];
    [discriminate | intros _; exact Hsame].
Qed.

(** The reply of an endpoint whose schema has no [Mutation] type: the
    [data] it sends has no [__type]. *)
Lemma introspectMutations_failure_not_cached_witness :
  let w := start [emptyDataReply] [] in
  introspectionMuationCache w = None /\
  fst (introspectMutations w) =
    Throw (TypeError "Cannot read properties of undefined (reading 'fields')") /\
  introspectionMuationCache (snd (introspectMutations w)) = None.
Proof.
  intros w. split; [reflexivity |]. split; [reflexivity |].
  apply (introspectMutations_failure_not_cached w
           (TypeError "Cannot read properties of undefined (reading 'fields')"));
    reflexivity.
Defined.

(** A [__type] that is [null], as for a name the schema does not know, and
    a [data] that is [null] are read through in the same way, and say so. *)
Example introspectMutations_null :
  fst (introspectMutations (start [noTypeReply] [])) =
    Throw (TypeError "Cannot read properties of null (reading 'fields')") /\
  fst (introspectMutations
         (start [{| status := 200;
                    text := "{" +:+ quoted "data" +:+ ":null}";
                    json := Some (Body {| errors := None; data := Null |}) |}] [])) =
    Throw (TypeError "Cannot read properties of null (reading '__type')").
Proof. split; reflexivity. Qed.

(** ** The template of a mutation *)

Lemma placeholders_fold (args : list string) (mutationString : string) :
  fold_left
    (fun mutationString arg =>
       mutationString +:+ ("    " +:+ arg +:+ ": ${" +:+ arg +:+ "}" +:+ LF))
    args mutationString =
  mutationString +:+ placeholderLines args.
Proof.
  revert mutationString. induction args as [|arg args IH]; intros mutationString.
  - simpl. now rewrite string_app_nil_r.
  - cbn [fold_left placeholderLines]. rewrite IH, string_app_assoc. reflexivity.
Qed.

Lemma placeholderLines_app (a b : list string) :
  placeholderLines (a ++ b) = placeholderLines a +:+ placeholderLines b.
Proof.
  induction a as [|x a IH]; [reflexivity |].
  cbn [app placeholderLines]. now rewrite IH, string_app_assoc.
Qed.

(** The template opens the call of the mutation, has the placeholder line
    of every chosen argument, in the order of the arguments, and closes the
    call; in particular the line of each chosen argument is in it. *)
Theorem mutationTemplate_placeholders (name : string) (chosenArgs : list string)
    (arg : string) :
  In arg chosenArgs ->
  mutationTemplate name chosenArgs =
    ("mutation {" +:+ LF +:+ "  " +:+ name +:+ "(" +:+ LF) +:+
    (placeholderLines chosenArgs +:+ ("  )" +:+ LF +:+ "}")) /\
  includes (mutationTemplate name chosenArgs)
    ("    " +:+ arg +:+ ": ${" +:+ arg +:+ "}" +:+ LF) = true.
Proof.
  intros Hin.
  assert (Hform : mutationTemplate name chosenArgs =
    ("mutation {" +:+ LF +:+ "  " +:+ name +:+ "(" +:+ LF) +:+
    (placeholderLines chosenArgs +:+ ("  )" +:+ LF +:+ "}"))).
  { unfold mutationTemplate. rewrite placeholders_fold.
    now rewrite string_app_assoc. }
  split; [exact Hform |]. rewrite Hform.
  apply in_split in Hin as (before & after & ->).
  rewrite placeholderLines_app. cbn [placeholderLines].
  change ("    " +:+ arg +:+ ": ${" +:+ arg +:+ "}" +:+ LF) with (placeholderLine arg).
  replace (("mutation {" +:+ LF +:+ "  " +:+ name +:+ "(" +:+ LF) +:+
           (placeholderLines before +:+
            placeholderLine arg +:+ placeholderLines after) +:+
           "  )" +:+ LF +:+ "}")
    with ((("mutation {" +:+ LF +:+ "  " +:+ name +:+ "(" +:+ LF) +:+
           placeholderLines before) +:+
          (placeholderLine arg +:+
           (placeholderLines after +:+ ("  )" +:+ LF +:+ "}"))))
    by (rewrite !string_app_assoc; reflexivity).
  apply includes_app.
Qed.

Lemma mutationTemplate_placeholders_witness :
  In "name" ["email"; "name"; "password"] /\
  mutationTemplate "createUser" ["email"; "name"; "password"] =
    ("mutation {" +:+ LF +:+ "  " +:+ "createUser" +:+ "(" +:+ LF) +:+
    (placeholderLines ["email"; "name"; "password"] +:+ ("  )" +:+ LF +:+ "}")) /\
  includes (mutationTemplate "createUser" ["email"; "name"; "password"])
    ("    " +:+ "name" +:+ ": ${" +:+ "name" +:+ "}" +:+ LF) = true.
Proof.
  assert (Hin : In "name" ["email"; "name"; "password"]) by (right; left; reflexivity).
  split; [exact Hin |].
  exact (mutationTemplate_placeholders "createUser" ["email"; "name"; "password"]
           "name" Hin).
Defined.

(** ** Main: files of no known kind, and the [run] operation *)

(** A file whose text contains neither ["query"] nor ["mutation"] is
    refused with [Error("Unknown Query type")] whatever the operation is,
    before anything is sent. *)
Theorem mainLoaded_unknown_kind (op fileContent name : string) (w : world) :
  includes fileContent "query" = false ->
  includes fileContent "mutation" = false ->
  mainLoaded op fileContent name w = (Throw (Error "Unknown Query type"), w).
Proof. intros Hq Hm. unfold mainLoaded. now rewrite Hq, Hm. Qed.

Lemma mainLoaded_unknown_kind_witness :
  includes "{ me { id } }" "query" = false /\
  includes "{ me { id } }" "mutation" = false /\
  mainLoaded "run" "{ me { id } }" "me" (start [emptyDataReply] []) =
  (Throw (Error "Unknown Query type"), start [emptyDataReply] []).
Proof.
  split; [reflexivity |]. split; [reflexivity |].
  apply (mainLoaded_unknown_kind "run" "{ me { id } }" "me"); reflexivity.
Defined.

(** With the operation [run], a file of a known kind is sent once, as it
    is, and [main] is over: the outcome is that of [runQuery] on the text of
    the file, and no session is entered, for a query as for a mutation. *)
Theorem mainLoaded_run (fileContent name : string) (w : world) :
  includes fileContent "query" || includes fileContent "mutation" = true ->
  snd (mainLoaded "run" fileContent name w) = snd (runQuery fileContent false w) /\
  match fst (runQuery fileContent false w) with
  | Return _ => fst (mainLoaded "run" fileContent name w) = Return Finished
  | Throw e => fst (mainLoaded "run" fileContent name w) = Throw e
  end.
Proof.
  intros Hkind.
  assert (Hrun : mainLoaded "run" fileContent name w =
                 (runQuery fileContent false ;;; ret Finished) w).
  { unfold mainLoaded.
    destruct (includes fileContent "query"); [reflexivity |].
    cbn [orb] in Hkind. now rewrite Hkind. }
  rewrite Hrun. unfold bind.
  destruct (runQuery fileContent false w) as [[result|e] w1]; split; reflexivity.
Qed.

Lemma mainLoaded_run_witness :
  let w := start [emptyDataReply] [] in
  includes "mutation { ping }" "query" || includes "mutation { ping }" "mutation"
    = true /\
  snd (mainLoaded "run" "mutation { ping }" "ping" w) =
    snd (runQuery "mutation { ping }" false w) /\
  match fst (runQuery "mutation { ping }" false w) with
  | Return _ => fst (mainLoaded "run" "mutation { ping }" "ping" w) = Return Finished
  | Throw e => fst (mainLoaded "run" "mutation { ping }" "ping" w) = Throw e
  end.
Proof.
  intros w. split; [reflexivity |].
  apply (mainLoaded_run "mutation { ping }" "ping" w). reflexivity.
Defined.

(** ** The field cache: a path that is not in the schema *)

(** When the path above has its fields in the cache and there is no entry
    for the path itself (its last name is not a field the endpoint listed,
    and the key is none the prototype of the cache answers for),
    [introspectFields] throws [Error("Failed to inspect <path>")] without
    sending anything and without changing the cache. *)
Theorem introspectFields_unknown_field (above : list string) (n : string)
    (w : world) (fields : list string) :
  populated w (pathKey above) fields ->
  introspectionFieldsCache w !! pathKey (above ++ [n]) = None ->
  ownLookup w (pathKey (above ++ [n])) ->
  introspectFields (above ++ [n]) w =
  (Throw (Error ("Failed to inspect " +:+ pathKey (above ++ [n]))), w).
Proof.
  intros [type Habove] Hnone _. unfold introspectFields.
  rewrite rev_unit. cbn [introspectFields_from].
  change (rev (n :: rev above)) with (rev (rev above) ++ [n]).
  rewrite rev_involutive.
  rewrite (bind_Return _ _ w w None) by (unfold cacheLookup; now rewrite Hnone).
  assert (Hhit : introspectFields_from (rev above) w = (Return fields, w)).
  { apply (introspectFields_from_hit _ _ _ type). now rewrite rev_involutive. }
  unfold bind at 1. unfold bind at 1. rewrite Hhit.
  unfold bind, cacheLookup. now rewrite Hnone.
Qed.

Lemma introspectFields_unknown_field_witness :
  populated rootKnown (pathKey []) ["user"] /\
  introspectionFieldsCache rootKnown !! pathKey ([] ++ ["posts"]) = None /\
  ownLookup rootKnown (pathKey ([] ++ ["posts"])) /\
  introspectFields ([] ++ ["posts"]) rootKnown =
  (Throw (Error ("Failed to inspect " +:+ pathKey ([] ++ ["posts"]))), rootKnown).
Proof.
  assert (Hroot : populated rootKnown (pathKey []) ["user"])
    by (exists "Query"; reflexivity).
  assert (Hown : ownLookup rootKnown (pathKey ([] ++ ["posts"])))
    by (split; reflexivity).
  split; [exact Hroot |]. split; [reflexivity |]. split; [exact Hown |].
  exact (introspectFields_unknown_field [] "posts" rootKnown ["user"]
           Hroot eq_refl Hown).
Defined.

(** ** The field cache: keys *)

(** Two different paths of valid names never share a cache key. *)
Theorem pathKey_distinct (p q : list string) :
  validPath p -> validPath q -> p <> q -> pathKey p <> pathKey q.
Proof. intros Hp Hq Hne Hkey. apply Hne. exact (pathKey_inj p q Hp Hq Hkey). Qed.

Lemma pathKey_distinct_witness :
  validPath ["user"; "id"] /\ validPath ["user_id"] /\
  ["user"; "id"] <> ["user_id"] /\
  pathKey ["user"; "id"] <> pathKey ["user_id"].
Proof.
  assert (Hp : validPath ["user"; "id"]) by (repeat constructor).
  assert (Hq : validPath ["user_id"]) by (repeat constructor).
  assert (Hne : ["user"; "id"] <> ["user_id"]) by discriminate.
  split; [exact Hp |]. split; [exact Hq |]. split; [exact Hne |].
  exact (pathKey_distinct ["user"; "id"] ["user_id"] Hp Hq Hne).
Defined.

(** With a comma in a name, or an empty name, keys do collide. *)
Example pathKey_collisions :
  pathKey ["a,b"] = pathKey ["a"; "b"] /\ pathKey [""] = pathKey [].
Proof. split; reflexivity. Qed.

(** ** The field cache: what one call may change *)

(** In a session (valid names in the path and in the replies to come, a
    cache in which a path has fields only if the path above has), a call of
    [introspectFields] keeps that shape whether it returns or throws; every
    entry that had its fields keeps them; and an entry that has fields only
    now belongs to the path of the call or to a path above it. *)
Theorem introspectFields_keeps_shape (path : list string) (w : world) :
  validPath path -> closed w -> Forall validReply (network w) ->
  let w' := snd (introspectFields path w) in
  closed w' /\
  Forall validReply (network w') /\
  (forall key fields, populated w key fields -> populated w' key fields) /\
  (forall key, isPopulated w' key ->
     isPopulated w key \/
     exists above below, path = above ++ below /\ key = pathKey above).
Proof.
  intros Hpath Hclosed Hreplies w'. subst w'. unfold introspectFields.
  assert (Hrev : validPath (rev (rev path))) by now rewrite rev_involutive.
  pose proof (introspectFields_from_stable (rev path) Hrev w Hclosed Hreplies) as H.
  rewrite rev_involutive in H. exact H.
Qed.

Lemma introspectFields_keeps_shape_witness :
  let w := start [queryTypeReply; userTypeReply] [] in
  let w' := snd (introspectFields ["user"] w) in
  validPath ["user"] /\ closed w /\ Forall validReply (network w) /\
  closed w' /\
  Forall validReply (network w') /\
  (forall key fields, populated w key fields -> populated w' key fields) /\
  (forall key, isPopulated w' key ->
     isPopulated w key \/
     exists above below, ["user"] = above ++ below /\ key = pathKey above).
Proof.
  intros w w'.
  assert (Hpath : validPath ["user"]) by (repeat constructor).
  assert (Hclosed : closed w) by apply closed_start.
  assert (Hreplies : Forall validReply (network w)) by (repeat constructor).
  repeat (split; [assumption |]).
  exact (introspectFields_keeps_shape ["user"] w Hpath Hclosed Hreplies).
Defined.

(** ** The field cache: how many requests a call sends *)

Lemma fetches_app (a b : list event) : fetches (a ++ b) = fetches a + fetches b.
Proof.
  induction a as [|e a IH]; [reflexivity |].
  destruct e; cbn [app fetches]; rewrite IH; reflexivity.
Qed.

Lemma recordFields_world (path : list string) (reply : list fieldObject)
    (fields : list string) (w : world) :
  let w' := snd (recordFields path reply fields w) in
  trace w' = trace w /\ network w' = network w /\ terminal w' = terminal w /\
  introspectionMuationCache w' = introspectionMuationCache w.
Proof.
  revert fields w. induction reply as [|field reply IH]; intros fields w;
    cbn [recordFields]; [now repeat split |].
  destruct (getTypeName (field_type field)) as [type|e]; [| now repeat split].
  change ((cacheStore (pathKey (path ++ [field_name field]))
             {| entry_fields := None; entry_type := type |} ;;;
           recordFields path reply (fields ++ [field_name field])) w)
    with (recordFields path reply (fields ++ [field_name field])
            (snd (cacheStore (pathKey (path ++ [field_name field]))
                    {| entry_fields := None; entry_type := type |} w))).
  exact (IH _ _).
Qed.

(** The asking part of [introspectFields] sends one request more than the
    search for the type did. *)
Lemma introspectFields_ask_requests (key : string) (path : list string)
    (findType : M string) (w : world) (n : nat) :
  (exists es, trace (snd (findType w)) = trace w ++ es /\ fetches es <= n) ->
  exists es,
    trace (snd ((type <- findType ;;
                 result <- runQuery (fieldsQuery type) true ;;
                 reply <- replyFields result ;;
                 fields <- recordFields path reply [] ;;
                 cacheStore key
                   {| entry_fields := Some fields; entry_type := type |} ;;;
                 ret fields) w)) = trace w ++ es /\
    fetches es <= S n.
Proof.
  intros (es & Htrace & Hes).
  destruct (findType w) as [[type|e] w1] eqn:Efind; cbn [snd] in Htrace.
  2: { rewrite (bind_Throw _ _ _ _ _ Efind). exists es. split; [exact Htrace | lia]. }
  rewrite (bind_Return _ _ _ _ _ Efind).
  destruct (runQuery_effects (fieldsQuery type) true w1)
    as ((tail & Hrun & Htail) & _).
  assert (Hcount : fetches (es ++ Fetch (fieldsQuery type) :: tail) <= S n).
  { rewrite fetches_app. cbn [fetches].
    destruct Htail as [-> | [-> | ->]]; cbn [fetches]; lia. }
  exists (es ++ Fetch (fieldsQuery type) :: tail). split; [| exact Hcount].
  rewrite app_assoc, <- Htrace, <- Hrun.
  destruct (runQuery (fieldsQuery type) true w1) as [[result|e] w2] eqn:Erun;
    cbn [snd]; [| now rewrite (bind_Throw _ _ _ _ _ Erun)].
  rewrite (bind_Return _ _ _ _ _ Erun).
  pose proof (replyFields_world result w2) as Hreply.
  destruct (replyFields result w2) as [[reply|e] w2'] eqn:Ereply;
    cbn [snd] in Hreply; subst w2';
    [| now rewrite (bind_Throw _ _ _ _ _ Ereply)].
  rewrite (bind_Return _ _ _ _ _ Ereply).
  destruct (recordFields_world path reply [] w2) as (Hrec & _).
  destruct (recordFields path reply [] w2) as [[fields|e] w3] eqn:Erecord;
    cbn [snd] in Hrec;
    [| now rewrite (bind_Throw _ _ _ _ _ Erecord)].
  rewrite (bind_Return _ _ _ _ _ Erecord). exact Hrec.
Qed.

Lemma introspectFields_from_requests (rpath : list string) (w : world) :
  exists es,
    trace (snd (introspectFields_from rpath w)) = trace w ++ es /\
    fetches es <= S (length rpath).
Proof.
  revert w. induction rpath as [|last rprev IH]; intros w;
    cbn [introspectFields_from]; unfold bind at 1, cacheLookup.
  - destruct (introspectionFieldsCache w !! _) as [[[fs|] t]|];
      [exists []; split; [now rewrite app_nil_r | cbn; lia] | |];
      (apply introspectFields_ask_requests;
       exists []; split; [now rewrite app_nil_r | cbn; lia]).
  - assert (Hfind : exists es,
      trace (snd ((introspectFields_from rprev ;;;
                   entry <- cacheLookup (pathKey (rev (last :: rprev))) ;;
                   match entry with
                   | None => throw (Error ("Failed to inspect " +:+
                                           pathKey (rev (last :: rprev))))
                   | Some e => ret (entry_type e)
                   end) w)) = trace w ++ es /\
      fetches es <= S (length rprev)).
    { destruct (IH w) as (es & Htrace & Hes). exists es. split; [| exact Hes].
      unfold bind at 1.
      destruct (introspectFields_from rprev w) as [[fs|e] w1]; cbn [snd] in *;
        [| exact Htrace].
      unfold bind, cacheLookup.
      destruct (introspectionFieldsCache w1 !! _); exact Htrace. }
    destruct (introspectionFieldsCache w !! _) as [[[fs|] t]|];
      [exists []; split; [now rewrite app_nil_r | cbn; lia] | |];
      apply introspectFields_ask_requests; exact Hfind.
Qed.

(** A call of [introspectFields] sends at most one request for the path
    and one for each path above it, whatever the cache holds and whatever
    the endpoint answers. *)
Theorem introspectFields_requests (path : list string) (w : world) :
  exists es,
    trace (snd (introspectFields path w)) = trace w ++ es /\
    fetches es <= S (length path).
Proof.
  unfold introspectFields.
  destruct (introspectFields_from_requests (rev path) w) as (es & Htrace & Hes).
  exists es. split; [exact Htrace |]. now rewrite length_rev in Hes.
Qed.

(** ** The field cache: what a call records *)

Lemma pathKey_snoc (path : list string) (n : string) :
  pathKey (path ++ [n]) =
  match path with
  | [] => n
  | _ :: _ => pathKey path +:+ "," +:+ n
  end.
Proof.
  unfold pathKey. induction path as [|a path IH]; [reflexivity |].
  cbn [app]. rewrite !join_head. destruct path as [|b path].
  - cbn [app join]. now rewrite string_app_nil_r.
  - cbn [app] in *. rewrite IH, !string_app_assoc. reflexivity.
Qed.

Lemma childKey_inj (path : list string) (n n' : string) :
  pathKey (path ++ [n]) = pathKey (path ++ [n']) -> n = n'.
Proof.
  rewrite !pathKey_snoc. destruct path as [|a path]; [auto |].
  intros H. apply (inj (String.app _)) in H. now apply (inj (String.app _)) in H.
Qed.

Lemma string_app_length (a b : string) :
  String.length (a +:+ b) = String.length a + String.length b.
Proof.
  induction a as [|c a IH]; [reflexivity |].
  rewrite string_app_cons. cbn [String.length]. now rewrite IH.
Qed.

Lemma childKey_not_own (path : list string) (n x : string) :
  pathKey ((path ++ [n]) ++ [x]) <> pathKey (path ++ [n]).
Proof.
  rewrite (pathKey_snoc (path ++ [n]) x).
  destruct (path ++ [n]) as [|a l] eqn:E; [now destruct path |].
  intros H. apply (f_equal String.length) in H.
  rewrite !string_app_length in H. cbn [String.length] in H. lia.
Qed.

(** The loop over a reply whose types all resolve and whose names are all
    different: it returns the names in the order of the reply, and leaves an
    entry with the resolved type for each. *)
Lemma recordFields_run (path : list string) (reply : list fieldObject) :
  Forall (fun f => exists t, getTypeName (field_type f) = Return t) reply ->
  NoDup (map field_name reply) ->
  forall (fields : list string) (w : world),
  exists w',
    recordFields path reply fields w =
      (Return (fields ++ map field_name reply), w') /\
    (forall f t, In f reply -> getTypeName (field_type f) = Return t ->
       introspectionFieldsCache w' !! pathKey (path ++ [field_name f]) =
       Some {| entry_fields := None; entry_type := t |}) /\
    (forall key,
       (forall f, In f reply -> key <> pathKey (path ++ [field_name f])) ->
       introspectionFieldsCache w' !! key = introspectionFieldsCache w !! key).
Proof.
  induction 1 as [|f0 reply [t0 Ht0] Hreply IH]; intros Hnodup fields w.
  - exists w. cbn [recordFields map]. rewrite app_nil_r.
    split; [reflexivity |]. split; [intros f t [] | reflexivity].
  - cbn [map] in Hnodup. apply NoDup_cons in Hnodup as [Hfresh Hnodup].
    cbn [recordFields]. rewrite Ht0.
    set (w1 := snd (cacheStore (pathKey (path ++ [field_name f0]))
                      {| entry_fields := None; entry_type := t0 |} w)).
    destruct (IH Hnodup (fields ++ [field_name f0]) w1) as (w' & Hrun & Hin & Hout).
    exists w'. split; [| split].
    + change ((cacheStore (pathKey (path ++ [field_name f0]))
                 {| entry_fields := None; entry_type := t0 |} ;;;
               recordFields path reply (fields ++ [field_name f0])) w)
        with (recordFields path reply (fields ++ [field_name f0]) w1).
      rewrite Hrun. cbn [map]. now rewrite <- app_assoc.
    + intros f t [<- | Hf] Ht.
      * rewrite Hout.
        -- rewrite Ht0 in Ht. injection Ht as <-.
           unfold w1, cacheStore. cbn [snd introspectionFieldsCache].
           apply lookup_insert_eq.
        -- intros f Hf Hkey. apply childKey_inj in Hkey.
           apply Hfresh. rewrite Hkey. apply list_elem_of_In, in_map, Hf.
      * now apply Hin.
    + intros key Hkey. rewrite Hout by (intros f Hf; apply Hkey; now right).
      unfold w1, cacheStore. cbn [snd introspectionFieldsCache].
      apply lookup_insert_ne. intros Heq. apply (Hkey f0); [now left | now symmetry].
Qed.

(** A step down the schema.  The path above has its fields, the path itself
    has the entry its parent recorded, with the type name [type]; the
    endpoint answers the next request with the fields of a type, whose
    names are all different and whose types all resolve.  Then
    [introspectFields] asks for the type [type] and nothing else, returns
    the names of the fields in the order of the reply, keeps them under the
    path, and records for each field the name its type resolves to. *)
Theorem introspectFields_child (above : list string) (n : string) (w : world)
    (known : list string) (type : string)
    (r : response) (rest : list response) (b : body) (d : dataObject)
    (fs : list fieldObject) :
  populated w (pathKey above) known ->
  introspectionFieldsCache w !! pathKey (above ++ [n]) =
    Some {| entry_fields := None; entry_type := type |} ->
  network w = r :: rest ->
  (200 <= status r < 300)%Z ->
  json r = Some (Body b) -> errors b = None ->
  data b = Present d -> __type d = Present (Present fs) ->
  Forall (fun f => exists t, getTypeName (field_type f) = Return t) fs ->
  NoDup (map field_name fs) ->
  let out := introspectFields (above ++ [n]) w in
  fst out = Return (map field_name fs) /\
  trace (snd out) = trace w ++ [Fetch (fieldsQuery type); ParseJson] /\
  populated (snd out) (pathKey (above ++ [n])) (map field_name fs) /\
  forall f t, In f fs -> getTypeName (field_type f) = Return t ->
    introspectionFieldsCache (snd out) !! pathKey ((above ++ [n]) ++ [field_name f]) =
    Some {| entry_fields := None; entry_type := t |}.
Proof.
  intros [ptype Habove] Hentry Hnet Hstatus Hjson Herr Hdata Htype Hresolve Hnodup out.
  set (w2 := after w rest [Fetch (fieldsQuery type); ParseJson]).
  destruct (recordFields_run (above ++ [n]) fs Hresolve Hnodup [] w2)
    as (w3 & Hrecord & Hin & Hout).
  destruct (recordFields_world (above ++ [n]) fs [] w2) as (Htrace3 & _).
  rewrite Hrecord in Htrace3. cbn [snd app] in Htrace3.
  assert (Hrun : introspectFields (above ++ [n]) w =
    (Return (map field_name fs),
     snd (cacheStore (pathKey (above ++ [n]))
            {| entry_fields := Some (map field_name fs); entry_type := type |} w3))).
  { unfold introspectFields. rewrite rev_unit. cbn [introspectFields_from].
    change (rev (n :: rev above)) with (rev (rev above) ++ [n]).
    rewrite rev_involutive.
    rewrite (bind_Return _ _ w w (Some {| entry_fields := None; entry_type := type |}))
      by (unfold cacheLookup; now rewrite Hentry).
    assert (Hfind :
      (introspectFields_from (rev above) ;;;
       entry <- cacheLookup (pathKey (above ++ [n])) ;;
       match entry with
       | None => throw (Error ("Failed to inspect " +:+ pathKey (above ++ [n])))
       | Some e => ret (entry_type e)
       end) w = (Return type, w)).
    { assert (Hhit : introspectFields_from (rev above) w = (Return known, w)).
      { apply (introspectFields_from_hit _ _ _ ptype). now rewrite rev_involutive. }
      rewrite (bind_Return _ _ _ _ _ Hhit).
      rewrite (bind_Return _ _ w w (Some {| entry_fields := None; entry_type := type |}))
        by (unfold cacheLookup; now rewrite Hentry).
      reflexivity. }
    rewrite (bind_Return _ _ _ _ _ Hfind).
    rewrite (bind_Return _ _ _ _ _
               (runQuery_returns (fieldsQuery type) true w r rest b Hnet Hstatus Hjson Herr)).
    fold w2.
    rewrite (bind_Return _ _ w2 w2 fs)
      by (unfold replyFields; now rewrite Hdata, Htype).
    rewrite (bind_Return _ _ _ _ _ Hrecord). reflexivity. }
  subst out. rewrite Hrun. cbn [fst snd cacheStore trace introspectionFieldsCache].
  split; [reflexivity |]. split; [exact Htrace3 |]. split.
  - exists type. apply lookup_insert_eq.
  - intros f t Hf Ht.
    rewrite lookup_insert_ne by (apply not_eq_sym, childKey_not_own).
    now apply Hin.
Qed.

Lemma introspectFields_child_witness :
  let out := introspectFields ([] ++ ["user"]) userNext in
  populated userNext (pathKey []) ["user"] /\
  introspectionFieldsCache userNext !! pathKey ([] ++ ["user"]) =
    Some {| entry_fields := None; entry_type := "User" |} /\
  network userNext = [userTypeReply] /\
  (200 <= status userTypeReply < 300)%Z /\
  Forall (fun f => exists t, getTypeName (field_type f) = Return t) [idField] /\
  NoDup (map field_name [idField]) /\
  fst out = Return (map field_name [idField]) /\
  trace (snd out) = trace userNext ++ [Fetch (fieldsQuery "User"); ParseJson] /\
  populated (snd out) (pathKey ([] ++ ["user"])) (map field_name [idField]) /\
  forall f t, In f [idField] -> getTypeName (field_type f) = Return t ->
    introspectionFieldsCache (snd out) !! pathKey (([] ++ ["user"]) ++ [field_name f]) =
    Some {| entry_fields := None; entry_type := t |}.
Proof.
  intros out.
  assert (Hroot : populated userNext (pathKey []) ["user"])
    by (exists "Query"; reflexivity).
  assert (Hstatus : (200 <= status userTypeReply < 300)%Z) by (simpl; lia).
  assert (Hresolve : Forall (fun f => exists t, getTypeName (field_type f) = Return t)
                       [idField])
    by (constructor; [exists "ID"; reflexivity | constructor]).
  assert (Hnodup : NoDup (map field_name [idField]))
    by (constructor; [intros H; inversion H | constructor]).
  split; [exact Hroot |]. split; [reflexivity |]. split; [reflexivity |].
  split; [exact Hstatus |]. split; [exact Hresolve |]. split; [exact Hnodup |].
  exact (introspectFields_child [] "user" userNext ["user"] "User" userTypeReply []
           {| errors := None; data := Present {| __type := Present (Present [idField]) |} |}
           {| __type := Present (Present [idField]) |} [idField]
           Hroot eq_refl eq_refl Hstatus eq_refl eq_refl eq_refl eq_refl
           Hresolve Hnodup).
Defined.

(** ** Query Commands: the menu after a run *)




(** ** Query Commands: the benchmark *)




(** ** Introspection and the operator *)

Lemma unprompted_refl (w : world) : unprompted w w.
Proof. repeat split. exists []. now rewrite app_nil_r. Qed.

Lemma unprompted_trans (w1 w2 w3 : world) :
  unprompted w1 w2 -> unprompted w2 w3 -> unprompted w1 w3.
Proof.
  intros (Ht1 & Hm1 & es1 & He1 & Hp1) (Ht2 & Hm2 & es2 & He2 & Hp2).
  split; [congruence |]. split; [congruence |].
  exists (es1 ++ es2). split; [now rewrite He2, He1, app_assoc |].
  now rewrite existsb_app, Hp1, Hp2.
Qed.

Lemma runQuery_unprompted (query : string) (silent : bool) (w : world) :
  unprompted w (snd (runQuery query silent w)).
Proof.
  destruct (runQuery_effects query silent w)
    as ((tail & Htrace & Htail) & _ & _ & Hm & Ht).
  split; [exact Ht |]. split; [exact Hm |].
  exists (Fetch query :: tail). split; [exact Htrace |].
  destruct Htail as [-> | [-> | ->]]; reflexivity.
Qed.

Lemma unprompted_same (w w1 w2 : world) :
  unprompted w w1 ->
  terminal w2 = terminal w1 ->
  introspectionMuationCache w2 = introspectionMuationCache w1 ->
  trace w2 = trace w1 ->
  unprompted w w2.
Proof.
  intros (Ht & Hm & es & He & Hp) Ht2 Hm2 He2.
  split; [congruence |]. split; [congruence |].
  exists es. split; [congruence | exact Hp].
Qed.

Lemma introspectFields_ask_unprompted (key : string) (path : list string)
    (findType : M string) (w : world) :
  unprompted w (snd (findType w)) ->
  unprompted w
    (snd ((type <- findType ;;
           result <- runQuery (fieldsQuery type) true ;;
           reply <- replyFields result ;;
           fields <- recordFields path reply [] ;;
           cacheStore key
             {| entry_fields := Some fields; entry_type := type |} ;;;
           ret fields) w)).
Proof.
  intros Hfind.
  destruct (findType w) as [[type|e] w1] eqn:Efind; cbn [snd] in Hfind;
    [| now rewrite (bind_Throw _ _ _ _ _ Efind)].
  rewrite (bind_Return _ _ _ _ _ Efind).
  pose proof (runQuery_unprompted (fieldsQuery type) true w1) as Hrun.
  destruct (runQuery (fieldsQuery type) true w1) as [[result|e] w2] eqn:Erun;
    cbn [snd] in Hrun;
    [| rewrite (bind_Throw _ _ _ _ _ Erun); exact (unprompted_trans _ _ _ Hfind Hrun)].
  rewrite (bind_Return _ _ _ _ _ Erun).
  pose proof (unprompted_trans _ _ _ Hfind Hrun) as H2.
  pose proof (replyFields_world result w2) as Hreply.
  destruct (replyFields result w2) as [[reply|e] w2'] eqn:Ereply;
    cbn [snd] in Hreply; subst w2';
    [| now rewrite (bind_Throw _ _ _ _ _ Ereply)].
  rewrite (bind_Return _ _ _ _ _ Ereply).
  destruct (recordFields_world path reply [] w2) as (Htr & _ & Hte & Hmu).
  destruct (recordFields path reply [] w2) as [[fields|e] w3] eqn:Erecord;
    cbn [snd] in Htr, Hte, Hmu.
  - rewrite (bind_Return _ _ _ _ _ Erecord).
    exact (unprompted_same _ _ _ H2 Hte Hmu Htr).
  - rewrite (bind_Throw _ _ _ _ _ Erecord).
    exact (unprompted_same _ _ _ H2 Hte Hmu Htr).
Qed.

Lemma introspectFields_from_unprompted (rpath : list string) (w : world) :
  unprompted w (snd (introspectFields_from rpath w)).
Proof.
  revert w. induction rpath as [|last rprev IH]; intros w;
    cbn [introspectFields_from]; unfold bind at 1, cacheLookup.
  - destruct (introspectionFieldsCache w !! _) as [[[fs|] t]|];
      [apply unprompted_refl | |];
      (apply introspectFields_ask_unprompted; apply unprompted_refl).
  - assert (Hfind : unprompted w
      (snd ((introspectFields_from rprev ;;;
             entry <- cacheLookup (pathKey (rev (last :: rprev))) ;;
             match entry with
             | None => throw (Error ("Failed to inspect " +:+
                                     pathKey (rev (last :: rprev))))
             | Some e => ret (entry_type e)
             end) w))).
    { specialize (IH w). unfold bind at 1.
      destruct (introspectFields_from rprev w) as [[fs|e] w1]; cbn [snd] in *;
        [| exact IH].
      unfold bind, cacheLookup.
      destruct (introspectionFieldsCache w1 !! _); exact IH. }
    destruct (introspectionFieldsCache w !! _) as [[[fs|] t]|];
      [apply unprompted_refl | |];
      apply introspectFields_ask_unprompted; exact Hfind.
Qed.

(** ** Query Commands: the builder comes to an end *)

Lemma omap_length_le {A B} (f : A -> option B) (l : list A) :
  length (omap f l) <= length l.
Proof.
  induction l as [|x l IH]; [reflexivity |].
  cbn [omap list_omap]. destruct (f x); cbn [length]; lia.
Qed.

Lemma budget_length (answers : list keys) : length answers <= budget answers.
Proof.
  induction answers as [|[i|chosen|value] answers IH]; cbn [budget length]; lia.
Qed.

(** The world after a prompt has been shown and answered. *)
Lemma MultiSelect_run (choices : list string) (w : world) :
  MultiSelect choices w =
  let asked (answers : list keys) :=
    {| introspectionFieldsCache := introspectionFieldsCache w;
       introspectionMuationCache := introspectionMuationCache w;
       network := network w;
       terminal := answers;
       trace := trace w ++ [AskMultiSelect choices] |} in
  match terminal w with
  | [] => (Throw (Rejected "prompt"), asked [])
  | Tick chosen :: answers =>
      (Return (omap (fun i => choices !! i) chosen), asked answers)
  | _ :: answers => (Throw (Rejected "prompt"), asked answers)
  end.
Proof.
  unfold MultiSelect, bind, emit, nextKeys. cbn [terminal].
  destruct (terminal w) as [|[i|chosen|value] answers]; reflexivity.
Qed.

(** The prompt loop with more fuel than answers: it throws, or it returns a
    selection that is not empty, and the answers it used were worth at
    least the size of the selection and one. *)
Lemma chooseFields_ends (fuel : nat) (fields : list string) (w : world) :
  length (terminal w) < fuel ->
  match chooseFields fuel fields w with
  | (Throw _, _) => True
  | (Return None, _) => False
  | (Return (Some chosenFields), w') =>
      chosenFields <> [] /\
      S (length chosenFields + budget (terminal w')) <= budget (terminal w)
  end.
Proof.
  revert w. induction fuel as [|fuel IH]; intros w Hfuel; [lia |].
  cbn [chooseFields]. unfold bind at 1. rewrite MultiSelect_run. cbn zeta.
  destruct (terminal w) as [|[i|chosen|value] answers] eqn:Hterm; try exact I.
  cbn [length] in Hfuel.
  destruct (omap (fun i => fields !! i) chosen) as [|c cs] eqn:Hchosen.
  - match goal with |- context [chooseFields fuel fields ?w0] => set (w1 := w0) end.
    specialize (IH w1). cbn [terminal w1] in IH.
    assert (Hlt : length answers < fuel) by lia. specialize (IH Hlt).
    destruct (chooseFields fuel fields w1) as [[[chosenFields|]|e] w'];
      try exact IH.
    destruct IH as [Hne Hle]. split; [exact Hne |]. cbn [budget]. lia.
  - unfold ret. split; [discriminate |]. cbn [terminal budget].
    pose proof (omap_length_le (fun i => fields !! i) chosen) as Hlen.
    rewrite Hchosen in Hlen. cbn [length] in *. lia.
Qed.

Lemma addChosen_length (path : list string) (chosenFields : list string)
    (query : operationTree) (pathsToFill : list (list string)) :
  length (snd (addChosen path chosenFields query pathsToFill)) =
  length chosenFields + length pathsToFill.
Proof.
  unfold addChosen. revert query pathsToFill.
  induction chosenFields as [|field chosenFields IH]; intros query pathsToFill;
    [reflexivity |].
  cbn [fold_left]. rewrite IH. cbn [length]. lia.
Qed.

Lemma introspectFields_terminal (path : list string) (w : world) :
  terminal (snd (introspectFields path w)) = terminal w.
Proof. exact (proj1 (introspectFields_from_unprompted (rev path) w)). Qed.

(** The worklist loop with fuel for every path waiting and for every answer
    to come: it does not run out of fuel. *)
Lemma fillPaths_ends (fuel : nat) :
  forall (query : operationTree) (pathsToFill : list (list string)) (w : world),
    S (length pathsToFill + budget (terminal w)) <= fuel ->
    fst (fillPaths fuel query pathsToFill w) <> Return None.
Proof.
  induction fuel as [|fuel IH]; intros query pathsToFill w Hfuel; [lia |].
  destruct pathsToFill as [|path rest]; [discriminate |].
  cbn [fillPaths]. cbn [length] in Hfuel.
  destruct (nodeAt path query) as [node|]; [| discriminate].
  pose proof (introspectFields_terminal path w) as Hterm.
  destruct (introspectFields path w) as [[fields|e] w1] eqn:Efields;
    cbn [snd] in Hterm;
    [| rewrite (bind_Throw _ _ _ _ _ Efields); discriminate].
  rewrite (bind_Return _ _ _ _ _ Efields).
  destruct fields as [|f fields].
  { apply IH. rewrite Hterm. lia. }
  unfold bind at 1. cbn [sortCached].
  set (sorted := sortNames (f :: fields)).
  set (w2 := {| introspectionFieldsCache := alter _ _ _ |}).
  assert (Hterm2 : terminal w2 = terminal w) by exact Hterm.
  pose proof (chooseFields_ends fuel sorted w2) as Hchoose.
  pose proof (budget_length (terminal w)) as Hlen.
  rewrite Hterm2 in Hchoose.
  assert (Hlt : length (terminal w) < fuel) by lia. specialize (Hchoose Hlt).
  unfold bind at 1.
  destruct (chooseFields fuel sorted w2) as [[[chosenFields|]|e] w3];
    [| contradiction | discriminate].
  destruct Hchoose as [_ Hbudget].
  pose proof (addChosen_length path chosenFields query rest) as Hpaths.
  destruct (addChosen path chosenFields query rest) as [query' paths'].
  cbn [snd] in Hpaths. apply IH. lia.
Qed.

(** [buildQuery] always comes to an end: with the fuel [enough] (or more),
    it ends with the call of [executeQuery] or with an exception, whatever
    the endpoint and the operator do. *)
Theorem buildQuery_ends (fuel : nat) (w : world) :
  enough w <= fuel ->
  fst (buildQuery fuel w) <> Return None.
Proof.
  unfold enough. intros Hfuel. unfold buildQuery.
  pose proof (fillPaths_ends fuel NoEntry [[]] w) as Hfill.
  cbn [length] in Hfill. assert (H : S (1 + budget (terminal w)) <= fuel) by lia.
  specialize (Hfill H). unfold bind.
  destruct (fillPaths fuel NoEntry [[]] w) as [[[query|]|e] w'];
    cbn [fst] in *; [discriminate | congruence | discriminate].
Qed.

Lemma buildQuery_ends_witness :
  let w := start [queryTypeReply; userTypeReply] [Tick []; Tick [0]; Tick [0]] in
  enough w <= 8 /\ fst (buildQuery 8 w) <> Return None.
Proof.
  intros w.
  assert (H : enough w <= 8) by (vm_compute; lia).
  split; [exact H |]. exact (buildQuery_ends 8 w H).
Defined.

(** More fuel does not change an outcome that did not lack fuel. *)
Lemma chooseFields_more (fuel k : nat) (fields : list string) :
  forall (w w' : world) (c : completion (option (list string))),
    chooseFields fuel fields w = (c, w') -> c <> Return None ->
    chooseFields (fuel + k) fields w = (c, w').
Proof.
  induction fuel as [|fuel IH]; intros w w' c Hrun Hc.
  - cbn [chooseFields] in Hrun. unfold ret in Hrun. injection Hrun as <- <-.
    exfalso. now apply Hc.
  - cbn [chooseFields Nat.add] in *. unfold bind at 1 in Hrun. unfold bind at 1.
    destruct (MultiSelect fields w) as [[chosen|e] w1]; [| exact Hrun].
    destruct chosen as [|x chosen]; [| exact Hrun].
    now apply IH.
Qed.

Lemma fillPaths_more (fuel k : nat) :
  forall (query : operationTree) (pathsToFill : list (list string))
         (w w' : world) (c : completion (option operationTree)),
    fillPaths fuel query pathsToFill w = (c, w') -> c <> Return None ->
    fillPaths (fuel + k) query pathsToFill w = (c, w').
Proof.
  induction fuel as [|fuel IH]; intros query pathsToFill w w' c Hrun Hc;
    destruct pathsToFill as [|path rest].
  - cbn [Nat.add]. destruct k; exact Hrun.
  - cbn [fillPaths] in Hrun. unfold ret in Hrun. injection Hrun as <- <-.
    exfalso. now apply Hc.
  - exact Hrun.
  - cbn [fillPaths Nat.add] in *.
    destruct (nodeAt path query) as [node|]; [| exact Hrun].
    unfold bind at 1 in Hrun. unfold bind at 1.
    destruct (introspectFields path w) as [[fields|e] w1]; [| exact Hrun].
    destruct fields as [|f fields]; [now apply IH |].
    unfold bind at 1 in Hrun. unfold bind at 1.
    destruct (sortCached (pathKey path) (f :: fields) w1) as [[sorted|e] w2];
      [| exact Hrun].
    unfold bind at 1 in Hrun. unfold bind at 1.
    destruct (chooseFields fuel sorted w2) as [[[chosenFields|]|e] w3] eqn:Echoose.
    + rewrite (chooseFields_more fuel k sorted w2 w3 _ Echoose) by discriminate.
      destruct (addChosen path chosenFields query rest) as [query' paths'].
      now apply IH.
    + unfold ret in Hrun. injection Hrun as <- <-. exfalso. now apply Hc.
    + rewrite (chooseFields_more fuel k sorted w2 w3 _ Echoose) by discriminate.
      exact Hrun.
Qed.

(** The outcome of [buildQuery] does not depend on the fuel, once there is
    enough of it. *)
Theorem buildQuery_fuel (fuel fuel' : nat) (w : world) :
  enough w <= fuel -> enough w <= fuel' ->
  buildQuery fuel w = buildQuery fuel' w.
Proof.
  intros Hfuel Hfuel'.
  assert (Hbase : forall f, enough w <= f -> buildQuery f w = buildQuery (enough w) w).
  { intros f Hf. unfold buildQuery, bind.
    pose proof (fillPaths_ends (enough w) NoEntry [[]] w) as Hends.
    assert (Hle : S (length [[] : list string] + budget (terminal w)) <= enough w)
      by (unfold enough; cbn [length]; lia).
    specialize (Hends Hle).
    destruct (fillPaths (enough w) NoEntry [[]] w) as [c w'] eqn:Erun.
    cbn [fst] in Hends.
    replace f with (enough w + (f - enough w)) by lia.
    now rewrite (fillPaths_more _ _ _ _ _ _ _ Erun Hends). }
  now rewrite (Hbase fuel Hfuel), (Hbase fuel' Hfuel').
Qed.

Lemma buildQuery_fuel_witness :
  let w := start [queryTypeReply; userTypeReply] [Tick []; Tick [0]; Tick [0]] in
  enough w <= 8 /\ enough w <= 20 /\ buildQuery 8 w = buildQuery 20 w.
Proof.
  intros w.
  assert (H8 : enough w <= 8) by (vm_compute; lia).
  assert (H20 : enough w <= 20) by (vm_compute; lia).
  split; [exact H8 |]. split; [exact H20 |].
  exact (buildQuery_fuel 8 20 w H8 H20).
Defined.

(** ** Query Commands: a schema without root fields *)

(** When the root type has no fields (or the endpoint knows no [Query]
    type), [buildQuery] asks the operator nothing and goes on to execute
    the document with an empty selection, [query {] and [}] on two lines. *)
Theorem buildQuery_empty_root (fuel : nat) (w : world) :
  1 <= fuel ->
  fst (introspectFields [] w) = Return [] ->
  buildQuery fuel w =
  (Return (Some (Query_executeQuery (Str ("query {" +:+ LF +:+ "}")) Undefined)),
   snd (introspectFields [] w)).
Proof.
  intros Hfuel Hroot. destruct fuel as [|fuel]; [lia |].
  unfold buildQuery. cbn [fillPaths nodeAt].
  destruct (introspectFields [] w) as [c w1] eqn:Efields.
  cbn [fst snd] in *. subst c.
  unfold bind at 1. unfold bind at 1. rewrite Efields.
  destruct fuel; reflexivity.
Qed.

Lemma buildQuery_empty_root_witness :
  let w := start [noTypeReply] [Tick [0]] in
  1 <= 1 /\
  fst (introspectFields [] w) = Return [] /\
  buildQuery 1 w =
  (Return (Some (Query_executeQuery (Str ("query {" +:+ LF +:+ "}")) Undefined)),
   snd (introspectFields [] w)).
Proof.
  intros w. split; [lia |]. split; [reflexivity |].
  apply (buildQuery_empty_root 1 w); [lia | reflexivity].
Defined.

(** ** Query Commands: the tree under construction *)

Lemma fieldsOf_setField (field : string) (parentNode : operationTree) :
  fieldsOf field (setField field parentNode) = Some NoEntry.
Proof.
  induction parentNode as [|key fields _ rest IH]; cbn [setField fieldsOf].
  - now rewrite String.eqb_refl.
  - destruct (String.eqb key field) eqn:E; cbn [fieldsOf]; rewrite E;
      [reflexivity | exact IH].
Qed.

Lemma fieldsOf_changeFields (it : string) (change : operationTree -> operationTree)
    (acc fields : operationTree) :
  fieldsOf it acc = Some fields ->
  fieldsOf it (changeFields it change acc) = Some (change fields).
Proof.
  induction acc as [|key fs _ rest IH]; cbn [fieldsOf changeFields]; [discriminate |].
  destruct (String.eqb key it) eqn:E; cbn [fieldsOf]; rewrite E.
  - intros H. now injection H as ->.
  - exact IH.
Qed.

Lemma hasKeys_setField (field : string) (parentNode : operationTree) :
  hasKeys (setField field parentNode) = true.
Proof.
  destruct parentNode as [|key fields rest]; cbn [setField]; [reflexivity |].
  now destruct (String.eqb key field).
Qed.

(** Putting a field under the node a path leads to: the path still leads to
    a node, which now has entries; one step further, under the name of the
    field, is a node without fields.  (The field is not [__proto__]: that
    assignment would give the node a prototype, not an entry.) *)
Theorem setFieldAt_nodeAt (path : list string) (field : string)
    (query parentNode : operationTree) :
  field <> "__proto__" ->
  nodeAt path query = Some parentNode ->
  nodeAt path (setFieldAt path field query) = Some (setField field parentNode) /\
  hasKeys (setField field parentNode) = true /\
  nodeAt (path ++ [field]) (setFieldAt path field query) = Some NoEntry.
Proof.
  intros _. revert query. induction path as [|it path IH]; intros query Hnode.
  - cbn [nodeAt] in Hnode. injection Hnode as ->.
    cbn [setFieldAt nodeAt app]. rewrite fieldsOf_setField.
    split; [reflexivity |]. split; [apply hasKeys_setField | reflexivity].
  - cbn [nodeAt] in Hnode.
    destruct (fieldsOf it query) as [fields|] eqn:Efields; [| discriminate].
    destruct (IH fields Hnode) as (Hat & Hkeys & Hbelow).
    cbn [setFieldAt nodeAt app].
    rewrite (fieldsOf_changeFields it _ query fields Efields).
    split; [exact Hat |]. split; [exact Hkeys | exact Hbelow].
Qed.

Lemma setFieldAt_nodeAt_witness :
  "name" <> "__proto__" /\
  nodeAt ["user"] userId = Some (Entry "id" NoEntry NoEntry) /\
  nodeAt ["user"] (setFieldAt ["user"] "name" userId) =
    Some (setField "name" (Entry "id" NoEntry NoEntry)) /\
  hasKeys (setField "name" (Entry "id" NoEntry NoEntry)) = true /\
  nodeAt (["user"] ++ ["name"]) (setFieldAt ["user"] "name" userId) = Some NoEntry.
Proof.
  split; [discriminate |]. split; [reflexivity |].
  apply (setFieldAt_nodeAt ["user"] "name" userId (Entry "id" NoEntry NoEntry));
    [discriminate | reflexivity].
Defined.

(** ** Query Commands: what the operator is shown *)

Lemma omap_lookup_In (choices : list string) (chosen : list nat) :
  Forall (fun x => In x choices) (omap (fun i => choices !! i) chosen).
Proof.
  induction chosen as [|i chosen IH]; [constructor |].
  cbn [omap list_omap]. destruct (choices !! i) as [x|] eqn:E; [| exact IH].
  constructor; [| exact IH].
  apply list_elem_of_In. exact (list_elem_of_lookup_2 _ _ _ E).
Qed.

(** The prompt loop shows the same prompt again and again and changes
    nothing else; a selection it returns is not empty and is made of
    choices that were shown. *)
Lemma chooseFields_effects (fuel : nat) (fields : list string) :
  forall (w w' : world) (c : completion (option (list string))),
  chooseFields fuel fields w = (c, w') ->
  introspectionFieldsCache w' = introspectionFieldsCache w /\
  introspectionMuationCache w' = introspectionMuationCache w /\
  network w' = network w /\
  (exists es, trace w' = trace w ++ es /\
              Forall (eq (AskMultiSelect fields)) es) /\
  forall chosenFields, c = Return (Some chosenFields) ->
    chosenFields <> [] /\ Forall (fun x => In x fields) chosenFields.
Proof.
  induction fuel as [|fuel IH]; intros w w' c Hrun; cbn [chooseFields] in Hrun.
  - unfold ret in Hrun. injection Hrun as <- <-.
    repeat split; try discriminate.
    exists []. split; [now rewrite app_nil_r | constructor].
  - unfold bind at 1 in Hrun. rewrite MultiSelect_run in Hrun. cbn zeta in Hrun.
    assert (Hasked : forall answers,
      exists es,
        trace {| introspectionFieldsCache := introspectionFieldsCache w;
                 introspectionMuationCache := introspectionMuationCache w;
                 network := network w;
                 terminal := answers;
                 trace := trace w ++ [AskMultiSelect fields] |} = trace w ++ es /\
        Forall (eq (AskMultiSelect fields)) es).
    { intros answers. exists [AskMultiSelect fields].
      split; [reflexivity | now constructor]. }
    destruct (terminal w) as [|[i|chosen|value] answers];
      try (injection Hrun as <- <-; repeat split; try discriminate;
           apply Hasked).
    pose proof (omap_lookup_In fields chosen) as Hin.
    destruct (omap (fun i => fields !! i) chosen) as [|x xs].
    + destruct (IH _ _ _ Hrun) as (Hc & Hm & Hn & (es & Htrace & Hes) & Hsel).
      cbn [introspectionFieldsCache introspectionMuationCache network trace]
        in Hc, Hm, Hn, Htrace.
      split; [exact Hc |]. split; [exact Hm |]. split; [exact Hn |].
      split; [| exact Hsel].
      exists (AskMultiSelect fields :: es). split.
      * rewrite Htrace. now rewrite <- app_assoc.
      * now constructor.
    + unfold ret in Hrun. injection Hrun as <- <-.
      split; [reflexivity |]. split; [reflexivity |]. split; [reflexivity |].
      split; [apply Hasked |].
      intros chosenFields H. injection H as <-. split; [discriminate | exact Hin].
Qed.

Lemma unprompted_shown (es : list event) :
  existsb isPrompt es = false -> Forall shownSorted es.
Proof.
  induction es as [|e es IH]; [constructor |].
  cbn [existsb]. intros H. apply orb_false_elim in H as [He Hes].
  constructor; [| now apply IH]. destruct e; try discriminate He; exact I.
Qed.

Lemma sortNames_Sorted (fields : list string) : Sorted String.le (sortNames fields).
Proof. apply Sorted_merge_sort. exact String.le_total. Qed.

(** ** Query Commands: the document of the builder *)

Lemma recordFields_entries (path : list string) (reply : list fieldObject) :
  forall (fields : list string) (w w' : world) (c : completion (list string)),
  recordFields path reply fields w = (c, w') ->
  (forall key e fs,
     introspectionFieldsCache w' !! key = Some e -> entry_fields e = Some fs ->
     introspectionFieldsCache w !! key = Some e) /\
  (forall result, c = Return result -> result = fields ++ map field_name reply).
Proof.
  induction reply as [|field reply IH]; intros fields w w' c Hrun;
    cbn [recordFields] in Hrun.
  - unfold ret in Hrun. injection Hrun as <- <-. split; [auto |].
    intros result H. injection H as <-. cbn [map]. now rewrite app_nil_r.
  - destruct (getTypeName (field_type field)) as [type|e].
    + change ((cacheStore (pathKey (path ++ [field_name field]))
                 {| entry_fields := None; entry_type := type |} ;;;
               recordFields path reply (fields ++ [field_name field])) w)
        with (recordFields path reply (fields ++ [field_name field])
                (snd (cacheStore (pathKey (path ++ [field_name field]))
                        {| entry_fields := None; entry_type := type |} w)))
        in Hrun.
      destruct (IH _ _ _ _ Hrun) as [Hentries Hresult]. split.
      * intros key e fs Hkey Hfs. specialize (Hentries key e fs Hkey Hfs).
        unfold cacheStore in Hentries. cbn [snd introspectionFieldsCache] in Hentries.
        destruct (decide (pathKey (path ++ [field_name field]) = key)) as [<- | Hne].
        -- rewrite lookup_insert_eq in Hentries. injection Hentries as <-.
           discriminate Hfs.
        -- now rewrite lookup_insert_ne in Hentries.
      * intros result H. rewrite (Hresult result H). cbn [map].
        now rewrite <- app_assoc.
    + unfold throw in Hrun. injection Hrun as <- <-. split; [auto | discriminate].
Qed.

Lemma namedWorld_same (good : string -> bool) (w w' : world) :
  namedWorld good w ->
  introspectionFieldsCache w' = introspectionFieldsCache w ->
  Forall (namedReply good) (network w') ->
  namedWorld good w'.
Proof. intros [Hcache _] Hsame Hnet. split; [now rewrite Hsame | exact Hnet]. Qed.

Lemma namedReply_fields (good : string -> bool) (r : response) (b : body) (d : dataObject) :
  namedReply good r -> json r = Some (Body b) -> data b = Present d ->
  namedFields good (map field_name
    match __type d with
    | Present (Present fs) => fs
    | _ => []
    end).
Proof.
  unfold namedReply, namedFields. intros H Hj Hd. rewrite Hj in H.
  destruct b as [errs dat]. cbn [data] in Hd. subst dat.
  destruct d as [[| | [| | fs]]]; cbn [__type map]; try constructor.
  now apply Forall_map.
Qed.

(** The asking part of [introspectFields] in a world of names of a kind. *)
Lemma introspectFields_ask_named (good : string -> bool) (key : string) (path : list string)
    (findType : M string) (w w' : world) (c : completion (list string)) :
  (forall r w1, findType w = (r, w1) -> namedWorld good w1) ->
  (type <- findType ;;
   result <- runQuery (fieldsQuery type) true ;;
   reply <- replyFields result ;;
   fields <- recordFields path reply [] ;;
   cacheStore key {| entry_fields := Some fields; entry_type := type |} ;;;
   ret fields) w = (c, w') ->
  namedWorld good w' /\
  forall fields, c = Return fields -> namedFields good fields.
Proof.
  intros Hfind Hrun. unfold bind at 1 in Hrun.
  destruct (findType w) as [[type|e] w1] eqn:Efind;
    specialize (Hfind _ _ eq_refl).
  2: { injection Hrun as <- <-. split; [exact Hfind | discriminate]. }
  unfold bind at 1 in Hrun. rewrite runQuery_run in Hrun.
  pose proof Hfind as [Hcache1 Hnet1].
  destruct (network w1) as [|r rest] eqn:Enet.
  { injection Hrun as <- <-. split; [| discriminate].
    apply (namedWorld_same good w1); [exact Hfind | reflexivity | constructor]. }
  apply Forall_cons in Hnet1 as [Hr Hrest].
  assert (Hafter : forall es, namedWorld good (after w1 rest es))
    by (intros es; apply (namedWorld_same good w1); [exact Hfind | reflexivity | exact Hrest]).
  destruct (ok r);
    [| injection Hrun as <- <-; split; [apply Hafter | discriminate]].
  destruct (json r) as [result0|] eqn:Ejson;
    [| injection Hrun as <- <-; split; [apply Hafter | discriminate]].
  destruct (checkResult result0) as [d0|e0] eqn:Echeck;
    [| injection Hrun as <- <-; split; [apply Hafter | discriminate]].
  apply checkResult_Return in Echeck as (b & -> & ->).
  set (w2 := after w1 rest [Fetch (fieldsQuery type); ParseJson]) in *.
  assert (H2 : namedWorld good w2) by apply Hafter.
  unfold bind at 1 in Hrun.
  destruct (replyFields (data b) w2) as [[reply|e] w2'] eqn:Ereply.
  2: { injection Hrun as <- <-.
       pose proof (replyFields_world (data b) w2) as Hw. rewrite Ereply in Hw.
       cbn [snd] in Hw. subst w2'. split; [exact H2 | discriminate]. }
  apply replyFields_run in Ereply as (-> & d & Hdata & ->).
  pose proof (namedReply_fields good r b d Hr Ejson Hdata) as Hplain.
  set (reply := match __type d with Present (Present fs) => fs | _ => [] end) in *.
  unfold bind at 1 in Hrun.
  destruct (recordFields_world path reply [] w2) as (_ & Hnet3 & _).
  destruct (recordFields path reply [] w2) as [[fields|e] w3] eqn:Erecord;
    cbn [snd] in Hnet3;
    destruct (recordFields_entries path reply [] w2 w3 _ Erecord) as [Hentries Hresult].
  - rewrite (Hresult fields eq_refl) in *. cbn [app] in *.
    unfold bind, cacheStore, ret in Hrun. injection Hrun as <- <-. split.
    + split; [| cbn [network]; rewrite Hnet3; exact Hrest].
      intros k e fs Hk Hfs. cbn [introspectionFieldsCache] in Hk.
      destruct (decide (key = k)) as [<- | Hne].
      * rewrite lookup_insert_eq in Hk. injection Hk as <-.
        cbn [entry_fields] in Hfs. injection Hfs as <-. exact Hplain.
      * rewrite lookup_insert_ne in Hk by exact Hne.
        destruct H2 as [Hcache2 _].
        exact (Hcache2 k e fs (Hentries k e fs Hk Hfs) Hfs).
    + intros fields' H. injection H as <-. exact Hplain.
  - injection Hrun as <- <-.
    split; [| discriminate]. split; [| rewrite Hnet3; exact Hrest].
    intros k e' fs Hk Hfs. destruct H2 as [Hcache2 _].
    exact (Hcache2 k e' fs (Hentries k e' fs Hk Hfs) Hfs).
Qed.

Lemma introspectFields_from_named (good : string -> bool) (rpath : list string) :
  forall (w w' : world) (c : completion (list string)),
  namedWorld good w ->
  introspectFields_from rpath w = (c, w') ->
  namedWorld good w' /\
  forall fields, c = Return fields -> namedFields good fields.
Proof.
  induction rpath as [|last rprev IH]; intros w w' c Hw Hrun;
    cbn [introspectFields_from] in Hrun; unfold bind at 1, cacheLookup in Hrun.
  - assert (Hroot : forall r w1,
              (ret "Query" : M string) w = (r, w1) -> namedWorld good w1)
      by (intros r w1 H; injection H as <- <-; exact Hw).
    destruct (introspectionFieldsCache w !! _) as [[[fs|] t]|] eqn:Ecache.
    + unfold ret in Hrun. injection Hrun as <- <-.
      split; [exact Hw |]. intros fields H. injection H as <-.
      destruct Hw as [Hcache _]. exact (Hcache _ _ _ Ecache eq_refl).
    + exact (introspectFields_ask_named good _ _ _ _ _ _ Hroot Hrun).
    + exact (introspectFields_ask_named good _ _ _ _ _ _ Hroot Hrun).
  - assert (Hfind : forall r w1,
      (introspectFields_from rprev ;;;
       entry <- cacheLookup (pathKey (rev (last :: rprev))) ;;
       match entry with
       | None => throw (Error ("Failed to inspect " +:+
                               pathKey (rev (last :: rprev))))
       | Some e => ret (entry_type e)
       end) w = (r, w1) -> namedWorld good w1).
    { intros r w1 H. unfold bind at 1 in H.
      destruct (introspectFields_from rprev w) as [[fs|e] w0] eqn:Erec;
        destruct (IH _ _ _ Hw Erec) as [IHw _].
      - unfold bind, cacheLookup in H.
        destruct (introspectionFieldsCache w0 !! _); injection H as <- <-; exact IHw.
      - injection H as <- <-. exact IHw. }
    destruct (introspectionFieldsCache w !! _) as [[[fs|] t]|] eqn:Ecache.
    + unfold ret in Hrun. injection Hrun as <- <-.
      split; [exact Hw |]. intros fields H. injection H as <-.
      destruct Hw as [Hcache _]. exact (Hcache _ _ _ Ecache eq_refl).
    + exact (introspectFields_ask_named good _ _ _ _ _ _ Hfind Hrun).
    + exact (introspectFields_ask_named good _ _ _ _ _ _ Hfind Hrun).
Qed.

Lemma sortNames_named (good : string -> bool) (fields : list string) :
  namedFields good fields -> namedFields good (sortNames fields).
Proof.
  unfold namedFields, sortNames. intros H. now rewrite merge_sort_Permutation.
Qed.

Lemma sortCached_named (good : string -> bool) (key : string) (fields : list string) (w : world) :
  namedWorld good w -> namedFields good fields ->
  namedWorld good (snd (sortCached key fields w)).
Proof.
  intros [Hcache Hnet] Hfields. split; [| exact Hnet].
  intros k e fs Hk Hfs. cbn [sortCached snd introspectionFieldsCache] in Hk.
  destruct (decide (key = k)) as [<- | Hne].
  - rewrite lookup_alter_eq in Hk.
    destruct (introspectionFieldsCache w !! key) as [e0|]; [| discriminate Hk].
    cbn in Hk. injection Hk as <-. cbn [entry_fields] in Hfs.
    injection Hfs as <-. now apply sortNames_named.
  - rewrite lookup_alter_ne in Hk by exact Hne. exact (Hcache k e fs Hk Hfs).
Qed.

Lemma plainNames_setField (field : string) (parentNode : operationTree) :
  plainName field = true -> plainNames parentNode = true ->
  plainNames (setField field parentNode) = true.
Proof.
  intros Hfield. induction parentNode as [|key fields _ rest IH]; intros Hnode.
  - cbn [setField plainNames]. now rewrite Hfield.
  - apply plainNames_Entry in Hnode as (Hk & Hf & Hr). cbn [setField].
    destruct (String.eqb key field); cbn [plainNames].
    + now rewrite Hk, Hr.
    + now rewrite Hk, Hf, (IH Hr).
Qed.

Lemma plainNames_changeFields (it : string)
    (change : operationTree -> operationTree) (acc : operationTree) :
  (forall fields, plainNames fields = true -> plainNames (change fields) = true) ->
  plainNames acc = true -> plainNames (changeFields it change acc) = true.
Proof.
  intros Hchange. induction acc as [|key fields _ rest IH]; intros Hacc;
    [reflexivity |].
  apply plainNames_Entry in Hacc as (Hk & Hf & Hr). cbn [changeFields].
  destruct (String.eqb key it); cbn [plainNames].
  - now rewrite Hk, (Hchange _ Hf), Hr.
  - now rewrite Hk, Hf, (IH Hr).
Qed.

Lemma plainNames_setFieldAt (path : list string) (field : string) :
  plainName field = true ->
  forall query, plainNames query = true ->
  plainNames (setFieldAt path field query) = true.
Proof.
  intros Hfield. induction path as [|it path IH]; intros query Hquery;
    cbn [setFieldAt].
  - now apply plainNames_setField.
  - now apply plainNames_changeFields.
Qed.

Lemma plainNames_addChosen (path : list string) (chosenFields : list string) :
  plainFields chosenFields ->
  forall query pathsToFill, plainNames query = true ->
  plainNames (fst (addChosen path chosenFields query pathsToFill)) = true.
Proof.
  unfold addChosen. induction 1 as [|field chosenFields Hfield _ IH];
    intros query pathsToFill Hquery; [exact Hquery |].
  cbn [fold_left]. apply IH. now apply plainNames_setFieldAt.
Qed.

(** The worklist loop in a world of plain names builds a tree of plain
    names. *)
Lemma fillPaths_plain (fuel : nat) :
  forall (query : operationTree) (pathsToFill : list (list string))
         (w w' : world) (result : operationTree),
  plainWorld w -> plainNames query = true ->
  fillPaths fuel query pathsToFill w = (Return (Some result), w') ->
  plainNames result = true.
Proof.
  induction fuel as [|fuel IH]; intros query pathsToFill w w' result Hw Hquery Hrun;
    destruct pathsToFill as [|path rest];
    try (cbn [fillPaths] in Hrun; unfold ret in Hrun; injection Hrun as <- <-;
         exact Hquery);
    try discriminate Hrun.
  cbn [fillPaths] in Hrun.
  destruct (nodeAt path query) as [node|]; [| discriminate Hrun].
  unfold bind at 1 in Hrun.
  destruct (introspectFields path w) as [[fields|e] w1] eqn:Efields;
    [| discriminate Hrun].
  destruct (introspectFields_from_named plainName _ _ _ _ Hw Efields) as [Hw1 Hfields].
  specialize (Hfields _ eq_refl).
  destruct fields as [|f fields]; [exact (IH _ _ _ _ _ Hw1 Hquery Hrun) |].
  unfold bind at 1 in Hrun.
  pose proof (sortCached_named plainName (pathKey path) (f :: fields) w1 Hw1 Hfields) as Hw2.
  cbn [sortCached snd] in Hw2. cbn [sortCached] in Hrun.
  set (sorted := sortNames (f :: fields)) in *.
  set (w2 := {| introspectionFieldsCache := alter _ _ _ |}) in *.
  unfold bind at 1 in Hrun.
  destruct (chooseFields fuel sorted w2) as [c3 w3] eqn:Echoose.
  destruct (chooseFields_effects fuel sorted w2 w3 c3 Echoose)
    as (Hc3 & _ & Hn3 & _ & Hsel).
  destruct c3 as [[chosenFields|]|e]; try discriminate Hrun.
  destruct (Hsel chosenFields eq_refl) as [_ Hin].
  assert (Hchosen : plainFields chosenFields).
  { pose proof (sortNames_named plainName _ Hfields) as Hsorted. fold sorted in Hsorted.
    unfold plainFields, namedFields in *. rewrite Forall_forall in Hsorted.
    eapply Forall_impl; [exact Hin |]. intros x Hx. apply Hsorted.
    now apply list_elem_of_In. }
  assert (Hw3 : plainWorld w3).
  { apply (namedWorld_same plainName w2); [exact Hw2 | exact Hc3 |].
    rewrite Hn3. exact (proj2 Hw2). }
  pose proof (plainNames_addChosen path chosenFields Hchosen query rest Hquery)
    as Hquery'.
  destruct (addChosen path chosenFields query rest) as [query' paths'].
  exact (IH _ _ _ _ _ Hw3 Hquery' Hrun).
Qed.

(** ** Query Commands: what the operator is shown, and in which order *)

Lemma unprompted_named (good : string -> bool) (es : list event) :
  existsb isPrompt es = false -> Forall (shownNamed good) es.
Proof.
  induction es as [|e es IH]; [constructor |].
  cbn [existsb]. intros H. apply orb_false_elim in H as [He Hes].
  constructor; [| now apply IH]. destruct e; try discriminate He; exact I.
Qed.

(** The worklist loop in a world of names of a kind: the prompts it shows
    are multi-choice prompts over such names, in ascending order. *)
Lemma fillPaths_shown (good : string -> bool) (fuel : nat) :
  forall (query : operationTree) (pathsToFill : list (list string))
         (w w' : world) (c : completion (option operationTree)),
  namedWorld good w ->
  fillPaths fuel query pathsToFill w = (c, w') ->
  exists es,
    trace w' = trace w ++ es /\
    Forall shownSorted es /\ Forall (shownNamed good) es.
Proof.
  assert (Hnil : forall w : world,
            exists es, trace w = trace w ++ es /\
                       Forall shownSorted es /\ Forall (shownNamed good) es).
  { intros w. exists []. split; [now rewrite app_nil_r | split; constructor]. }
  induction fuel as [|fuel IH]; intros query pathsToFill w w' c Hw Hrun;
    destruct pathsToFill as [|path rest];
    try (cbn [fillPaths] in Hrun; unfold ret in Hrun; injection Hrun as <- <-;
         apply Hnil).
  cbn [fillPaths] in Hrun.
  destruct (nodeAt path query) as [node|];
    [| unfold throw in Hrun; injection Hrun as <- <-; apply Hnil].
  destruct (introspectFields_from_unprompted (rev path) w)
    as (_ & _ & es1 & Htrace1 & Hes1).
  fold (introspectFields path w) in Htrace1.
  pose proof (unprompted_shown es1 Hes1) as Hsorted1.
  pose proof (unprompted_named good es1 Hes1) as Hnamed1.
  unfold bind at 1 in Hrun.
  destruct (introspectFields path w) as [[fields|e] w1] eqn:Efields;
    cbn [snd] in Htrace1;
    destruct (introspectFields_from_named good _ _ _ _ Hw Efields) as [Hw1 Hfields];
    [| injection Hrun as <- <-; now exists es1].
  specialize (Hfields _ eq_refl).
  destruct fields as [|f fields].
  { destruct (IH _ _ _ _ _ Hw1 Hrun) as (es & Htrace & Hsorted & Hnamed).
    exists (es1 ++ es). split; [now rewrite Htrace, Htrace1, app_assoc |].
    split; now apply Forall_app. }
  unfold bind at 1 in Hrun.
  pose proof (sortCached_named good (pathKey path) (f :: fields) w1 Hw1 Hfields)
    as Hw2.
  cbn [sortCached snd] in Hw2. cbn [sortCached] in Hrun.
  pose proof (sortNames_named good _ Hfields) as Hgood.
  set (sorted := sortNames (f :: fields)) in *.
  set (w2 := {| introspectionFieldsCache := alter _ _ _ |}) in *.
  unfold bind at 1 in Hrun.
  destruct (chooseFields fuel sorted w2) as [c3 w3] eqn:Echoose.
  destruct (chooseFields_effects fuel sorted w2 w3 c3 Echoose)
    as (Hc3 & _ & Hn3 & (es2 & Htrace2 & Hes2) & _).
  assert (Hshown2 : Forall shownSorted es2 /\ Forall (shownNamed good) es2).
  { clear Htrace2. induction Hes2 as [|e es2 He Hes2 IHes]; [split; constructor |].
    destruct IHes as [IHs IHn]. subst e.
    split; (constructor; [| assumption]); [apply sortNames_Sorted | exact Hgood]. }
  destruct Hshown2 as [Hsorted2 Hnamed2].
  assert (Htrace12 : trace w3 = trace w ++ es1 ++ es2).
  { rewrite Htrace2. unfold w2. cbn [trace]. now rewrite Htrace1, app_assoc. }
  assert (Hw3 : namedWorld good w3).
  { apply (namedWorld_same good w2); [exact Hw2 | exact Hc3 |].
    rewrite Hn3. exact (proj2 Hw2). }
  destruct c3 as [[chosenFields|]|e];
    try (unfold ret in Hrun; injection Hrun as <- <-;
         exists (es1 ++ es2); split; [exact Htrace12 |];
         split; now apply Forall_app).
  destruct (addChosen path chosenFields query rest) as [query' paths'].
  destruct (IH _ _ _ _ _ Hw3 Hrun) as (es & Htrace & Hsorted & Hnamed).
  exists (es1 ++ es2 ++ es). split.
  - now rewrite Htrace, Htrace12, !app_assoc.
  - split; (apply Forall_app; split; [assumption |]; now apply Forall_app).
Qed.

(** When the field names cached and to come are names of ASCII characters
    (as GraphQL names are), the only prompts [buildQuery] shows, whatever
    the endpoint and the operator do, are multi-choice prompts, and the
    choices of each are such names in ascending order. *)
Theorem buildQuery_prompts (fuel : nat) (w : world) :
  namedWorld asciiName w ->
  exists es,
    trace (snd (buildQuery fuel w)) = trace w ++ es /\
    Forall shownSorted es /\ Forall (shownNamed asciiName) es.
Proof.
  intros Hw. unfold buildQuery, bind.
  destruct (fillPaths fuel NoEntry [[]] w) as [c w'] eqn:Efill.
  destruct (fillPaths_shown asciiName fuel NoEntry [[]] w w' c Hw Efill)
    as (es & Htrace & Hes).
  exists es. split; [| exact Hes].
  destruct c as [[query|]|e]; exact Htrace.
Qed.

Lemma buildQuery_prompts_witness :
  namedWorld asciiName userIdSession /\
  exists es,
    trace (snd (buildQuery 8 userIdSession)) = trace userIdSession ++ es /\
    Forall shownSorted es /\ Forall (shownNamed asciiName) es.
Proof.
  assert (Hw : namedWorld asciiName userIdSession).
  { split; [| repeat constructor].
    intros key e fields H. cbn in H. rewrite lookup_empty in H. discriminate H. }
  split; [exact Hw |].
  exact (buildQuery_prompts 8 userIdSession Hw).
Defined.

(** The prompts of that session: [user] alone, shown twice as nothing was
    ticked at first, then [id]. *)
Example buildQuery_prompts_userId :
  filter (fun e => bool_decide (isPrompt e = true))
         (trace (snd (buildQuery 8 userIdSession))) =
  [AskMultiSelect ["user"]; AskMultiSelect ["user"]; AskMultiSelect ["id"]].
Proof. vm_compute. reflexivity. Qed.

(** The layout of the document of a tree of plain names. *)
Lemma queryTreeToString_plain (query : operationTree) :
  plainNames query = true ->
  balanced (queryTreeToString query) /\
  indentedByTwo (queryTreeToString query) /\
  (hasKeys query = true -> noEmptyBlock (queryTreeToString query)).
Proof.
  intros Hnames. rewrite queryTreeToString_lines.
  unfold balanced, indentedByTwo, noEmptyBlock. repeat split.
  - assert (Hhead : scan braceStep 0 ("query {" +:+ LF) = Some 1) by reflexivity.
    scan_with Hhead. scan_with (brace_lines query Hnames 1 1). reflexivity.
  - assert (Hhead : scan indentStep (0, Some 0) ("query {" +:+ LF) =
                    Some (1, Some 0)) by reflexivity.
    scan_with Hhead. scan_with (indent_lines query Hnames 1).
    now exists (0, None).
  - intros Hroot.
    assert (Hhead : scan blockStep false ("query {" +:+ LF) = Some true)
      by reflexivity.
    scan_with Hhead. scan_with (block_lines query Hnames 1 true).
    rewrite Hroot. now exists false.
Qed.

(** When every field name of the session is plain, the document
    [buildQuery] hands to [executeQuery] is well laid out whatever the
    operator chose: its braces are balanced and every line is indented by
    two spaces per open brace; and no brace pair in it is empty, unless the
    document is the empty selection [query {], [}] of a root without
    fields. *)
Theorem buildQuery_document (fuel : nat) (w : world) (next : queryCall) :
  plainWorld w ->
  fst (buildQuery fuel w) = Return (Some next) ->
  exists document,
    next = Query_executeQuery (Str document) Undefined /\
    balanced document /\
    indentedByTwo document /\
    (noEmptyBlock document \/ document = "query {" +:+ LF +:+ "}").
Proof.
  intros Hw Hrun. unfold buildQuery, bind in Hrun.
  destruct (fillPaths fuel NoEntry [[]] w) as [[[query|]|e] w'] eqn:Efill;
    cbn [fst] in Hrun; try discriminate Hrun.
  injection Hrun as <-.
  pose proof (fillPaths_plain fuel NoEntry [[]] w w' query Hw eq_refl Efill) as Hplain.
  destruct (queryTreeToString_plain query Hplain) as (Hbal & Hind & Hblock).
  exists (queryTreeToString query). split; [reflexivity |].
  split; [exact Hbal |]. split; [exact Hind |].
  destruct query as [|key fields rest]; [right; reflexivity | left].
  now apply Hblock.
Qed.

Lemma buildQuery_document_witness :
  plainWorld userIdSession /\
  fst (buildQuery 8 userIdSession) =
    Return (Some (Query_executeQuery (Str (queryTreeToString userId)) Undefined)) /\
  exists document,
    Query_executeQuery (Str (queryTreeToString userId)) Undefined =
      Query_executeQuery (Str document) Undefined /\
    balanced document /\
    indentedByTwo document /\
    (noEmptyBlock document \/ document = "query {" +:+ LF +:+ "}").
Proof.
  assert (Hw : plainWorld userIdSession).
  { split; [| repeat constructor].
    intros key e fields H. cbn in H. rewrite lookup_empty in H. discriminate H. }
  assert (Hrun : fst (buildQuery 8 userIdSession) =
    Return (Some (Query_executeQuery (Str (queryTreeToString userId)) Undefined)))
    by reflexivity.
  split; [exact Hw |]. split; [exact Hrun |].
  exact (buildQuery_document 8 userIdSession _ Hw Hrun).
Defined.

(** ** Query Commands: the document tells the tree *)

Lemma allChars_app (allowed : ascii -> bool) (a b : string) :
  allChars allowed (a +:+ b) = allChars allowed a && allChars allowed b.
Proof.
  induction a as [|c a IH]; [reflexivity |].
  rewrite string_app_cons. cbn [allChars]. now rewrite IH, andb_assoc.
Qed.

Lemma allChars_weaken (p q : ascii -> bool) (s : string) :
  (forall c, p c = true -> q c = true) ->
  allChars p s = true -> allChars q s = true.
Proof.
  intros Hpq. induction s as [|c s IH]; [reflexivity |]. cbn [allChars].
  intros H. apply andb_prop in H as [Hc Hs]. now rewrite (Hpq c Hc), (IH Hs).
Qed.

(** Two texts without the character [sep], each followed by nothing or by
    [sep] and more: equal wholes have equal parts. *)
Lemma text_split (sep : ascii) (a b x y : string) :
  allChars (fun c => negb (Ascii.eqb c sep)) a = true ->
  allChars (fun c => negb (Ascii.eqb c sep)) b = true ->
  (x = "" \/ exists x', x = String sep x') ->
  (y = "" \/ exists y', y = String sep y') ->
  a +:+ x = b +:+ y -> a = b /\ x = y.
Proof.
  revert b. induction a as [|c a IH]; intros b Ha Hb Hx Hy H.
  - destruct b as [|d b]; [now split |].
    rewrite string_app_nil_l, string_app_cons in H. exfalso.
    cbn [allChars] in Hb. apply andb_prop in Hb as [Hd _].
    destruct Hx as [-> | [x' ->]]; [discriminate |].
    injection H as <- _. now rewrite Ascii.eqb_refl in Hd.
  - destruct b as [|d b].
    + rewrite string_app_nil_l, string_app_cons in H. exfalso.
      cbn [allChars] in Ha. apply andb_prop in Ha as [Hc _].
      destruct Hy as [-> | [y' ->]]; [discriminate |].
      injection H as -> _. now rewrite Ascii.eqb_refl in Hc.
    + rewrite !string_app_cons in H. injection H as -> H.
      cbn [allChars] in Ha, Hb.
      apply andb_prop in Ha as [_ Ha]. apply andb_prop in Hb as [_ Hb].
      destruct (IH b Ha Hb Hx Hy H) as [-> ->]. now split.
Qed.

Lemma spaces_split (n m : nat) (c d : ascii) (s t : string) :
  c <> " "%char -> d <> " "%char ->
  repeat " " n +:+ String c s = repeat " " m +:+ String d t ->
  n = m /\ String c s = String d t.
Proof.
  intros Hc Hd. revert m. induction n as [|n IH]; intros m H.
  - destruct m as [|m]; [now split |].
    rewrite repeat_space_S, string_app_cons in H. cbn in H. injection H as -> _.
    now contradiction Hc.
  - destruct m as [|m].
    + rewrite repeat_space_S, string_app_cons in H. cbn in H. injection H as <- _.
      now contradiction Hd.
    + rewrite !repeat_space_S, !string_app_cons in H. injection H as H.
      destruct (IH m H) as [-> Heq]. now split.
Qed.

Lemma spaces_noLF (n : nat) :
  allChars (fun c => negb (Ascii.eqb c "010")) (repeat " " n) = true.
Proof. induction n as [|n IH]; [reflexivity |]. rewrite repeat_space_S. exact IH. Qed.

Lemma renderLine_noLF (l : line) :
  readable l ->
  allChars (fun c => negb (Ascii.eqb c "010")) (renderLine l) = true.
Proof.
  intros [_ H]. unfold renderLine. now rewrite allChars_app, spaces_noLF, H.
Qed.

Lemma renderLine_inj (l1 l2 : line) :
  readable l1 -> readable l2 -> renderLine l1 = renderLine l2 -> l1 = l2.
Proof.
  intros [(c & s & Hc & Hcs) _] [(d & t & Hd & Hds) _].
  destruct l1 as [n1 c1], l2 as [n2 c2]. unfold renderLine.
  cbn [indent content] in *. subst c1 c2. intros H.
  destruct (spaces_split n1 n2 c d s t Hcs Hds H) as [-> ->]. reflexivity.
Qed.

(** The text of readable lines, followed by a text without line feed, tells
    the lines. *)
Lemma linesText_inj (ls1 : list line) :
  forall (ls2 : list line) (t1 t2 : string),
  Forall readable ls1 -> Forall readable ls2 ->
  allChars (fun c => negb (Ascii.eqb c "010")) t1 = true ->
  allChars (fun c => negb (Ascii.eqb c "010")) t2 = true ->
  linesText ls1 +:+ t1 = linesText ls2 +:+ t2 ->
  ls1 = ls2.
Proof.
  induction ls1 as [|l1 ls1 IH]; intros ls2 t1 t2 H1 H2 Ht1 Ht2 H.
  - destruct ls2 as [|l2 ls2]; [reflexivity |]. exfalso.
    apply Forall_cons in H2 as [Hl2 _].
    cbn [linesText] in H. rewrite string_app_nil_l, !string_app_assoc in H.
    rewrite <- (string_app_nil_r t1) in H.
    apply (text_split "010"%char) in H as [_ H];
      [discriminate H | exact Ht1 | now apply renderLine_noLF | now left
      | right; eexists; reflexivity].
  - apply Forall_cons in H1 as [Hl1 H1].
    destruct ls2 as [|l2 ls2].
    + exfalso. cbn [linesText] in H. rewrite string_app_nil_l, !string_app_assoc in H.
      rewrite <- (string_app_nil_r t2) in H.
      apply (text_split "010"%char) in H as [_ H];
        [discriminate H | now apply renderLine_noLF | exact Ht2
        | right; eexists; reflexivity | now left].
    + apply Forall_cons in H2 as [Hl2 H2].
      cbn [linesText] in H. rewrite !string_app_assoc in H.
      apply (text_split "010"%char) in H as [Hline H];
        [| now apply renderLine_noLF | now apply renderLine_noLF
         | right; eexists; reflexivity | right; eexists; reflexivity].
      apply (renderLine_inj _ _ Hl1 Hl2) in Hline. subst l2.
      unfold LF in H. rewrite !string_app_cons, !string_app_nil_l in H.
      injection H as H. f_equal. exact (IH _ _ _ H1 H2 Ht1 Ht2 H).
Qed.

Lemma plainName_readable (key : string) :
  plainName key = true ->
  (exists c s, key = String c s /\ c <> " "%char) /\
  allChars (fun c => negb (Ascii.eqb c "010")) key = true /\
  allChars (fun c => negb (Ascii.eqb c " ")) key = true.
Proof.
  intros H. pose proof H as Hplain.
  apply plainName_cons in H as (c & s & -> & Hc & Hs).
  split; [| split].
  - exists c, s. split; [reflexivity |]. intros ->. discriminate Hc.
  - apply (allChars_weaken nameChar); [| now destruct c].
    intros x Hx. now destruct (nameChar_cases x Hx) as (_ & -> & _).
  - apply (allChars_weaken nameChar); [| now destruct c].
    intros x Hx. now destruct (nameChar_cases x Hx) as (-> & _).
Qed.

Lemma selectionLines_readable (query : operationTree) :
  plainNames query = true ->
  forall level, Forall readable (selectionLines level query).
Proof.
  induction query as [|key fields IHf rest IHr]; intros Hq level; [constructor |].
  apply plainNames_Entry in Hq as (Hk & Hf & Hr).
  destruct (plainName_readable key Hk) as ((c & s & -> & Hc) & Hlf & _).
  rewrite selectionLines_Entry. apply Forall_app. split; [| now apply IHr].
  destruct (hasKeys fields).
  - apply Forall_app. split; [| apply Forall_app; split; [now apply IHf |]].
    + constructor; [| constructor]. split; cbn [content].
      * exists c, (s +:+ " {"). now rewrite string_app_cons.
      * now rewrite allChars_app, Hlf.
    + constructor; [| constructor]. split; cbn [content]; [| reflexivity].
      exists "}"%char, "". split; [reflexivity | discriminate].
  - constructor; [| constructor]. split; cbn [content]; [| exact Hlf].
    now exists c, s.
Qed.

Lemma string_app_inj_r (a b t : string) : a +:+ t = b +:+ t -> a = b.
Proof.
  revert b. induction a as [|c a IH]; intros b H.
  - destruct b as [|d b]; [reflexivity |]. exfalso.
    apply (f_equal String.length) in H.
    rewrite string_app_nil_l, string_app_length in H. cbn [String.length] in H. lia.
  - destruct b as [|d b].
    + exfalso. apply (f_equal String.length) in H.
      rewrite string_app_nil_l, string_app_length in H. cbn [String.length] in H. lia.
    + rewrite !string_app_cons in H. injection H as -> H. f_equal. now apply IH.
Qed.

Lemma plainName_no_block (key key' : string) :
  plainName key = true -> key <> key' +:+ " {".
Proof.
  intros Hk H. destruct (plainName_readable key Hk) as (_ & _ & Hsp).
  rewrite H, allChars_app in Hsp. apply andb_prop in Hsp as [_ Hsp].
  discriminate Hsp.
Qed.

(** The lines of a selection, followed by lines that stop the block, tell
    the selection and what follows. *)
Lemma selectionLines_inj (q1 : operationTree) :
  forall (q2 : operationTree) (level : nat) (x1 x2 : list line),
  plainNames q1 = true -> plainNames q2 = true ->
  stops level x1 -> stops level x2 ->
  selectionLines level q1 ++ x1 = selectionLines level q2 ++ x2 ->
  q1 = q2 /\ x1 = x2.
Proof.
  induction q1 as [|k1 f1 IHf r1 IHr]; intros q2 level x1 x2 H1 H2 Hx1 Hx2 H.
  - destruct q2 as [|k2 f2 r2]; [now split |]. exfalso.
    rewrite selectionLines_Entry in H. cbn [selectionLines app] in H.
    destruct x1 as [|l x1]; [now destruct (hasKeys f2) |].
    cbn [stops] in Hx1.
    destruct (hasKeys f2); cbn [app] in H; injection H as -> _;
      cbn [indent] in Hx1; lia.
  - destruct q2 as [|k2 f2 r2].
    { exfalso. rewrite selectionLines_Entry in H. cbn [selectionLines app] in H.
      destruct x2 as [|l x2]; [now destruct (hasKeys f1) |].
      cbn [stops] in Hx2.
      destruct (hasKeys f1); cbn [app] in H; injection H as <- _;
        cbn [indent] in Hx2; lia. }
    apply plainNames_Entry in H1 as (Hk1 & Hf1 & Hr1).
    apply plainNames_Entry in H2 as (Hk2 & Hf2 & Hr2).
    rewrite !selectionLines_Entry in H.
    destruct (hasKeys f1) eqn:E1, (hasKeys f2) eqn:E2;
      rewrite <- ?app_assoc in H; cbn [app] in H.
    + injection H as Hkey H. apply string_app_inj_r in Hkey. subst k2.
      destruct (IHf f2 (S level)
                  ({| indent := 2 * level; content := "}" |} ::
                   selectionLines level r1 ++ x1)
                  ({| indent := 2 * level; content := "}" |} ::
                   selectionLines level r2 ++ x2) Hf1 Hf2)
        as [-> Hrest]; [cbn; lia | cbn; lia | exact H |].
      injection Hrest as Hrest.
      destruct (IHr r2 level x1 x2 Hr1 Hr2 Hx1 Hx2 Hrest) as [-> ->].
      now split.
    + injection H as Hkey _. exfalso.
      exact (plainName_no_block k2 k1 Hk2 (eq_sym Hkey)).
    + injection H as Hkey _. exfalso.
      exact (plainName_no_block k1 k2 Hk1 Hkey).
    + injection H as -> H.
      destruct (IHr r2 level x1 x2 Hr1 Hr2 Hx1 Hx2 H) as [-> ->].
      destruct f1; [| discriminate E1]. destruct f2; [| discriminate E2].
      now split.
Qed.

(** Two trees of plain names with the same document are the same tree. *)
Theorem queryTreeToString_inj (q1 q2 : operationTree) :
  plainNames q1 = true -> plainNames q2 = true ->
  queryTreeToString q1 = queryTreeToString q2 ->
  q1 = q2.
Proof.
  intros H1 H2 H. rewrite !queryTreeToString_lines in H.
  apply (inj (String.app _)) in H.
  apply linesText_inj in H;
    [| now apply selectionLines_readable | now apply selectionLines_readable
     | reflexivity | reflexivity].
  destruct (selectionLines_inj q1 q2 1 [] [] H1 H2 I I) as [Hq _];
    [now rewrite !app_nil_r | exact Hq].
Qed.

Lemma queryTreeToString_inj_witness :
  plainNames userId = true /\
  plainNames (Entry "user" (Entry "id" NoEntry NoEntry) NoEntry) = true /\
  queryTreeToString userId =
    queryTreeToString (Entry "user" (Entry "id" NoEntry NoEntry) NoEntry) /\
  userId = Entry "user" (Entry "id" NoEntry NoEntry) NoEntry.
Proof.
  split; [reflexivity |]. split; [reflexivity |]. split; [reflexivity |].
  apply (queryTreeToString_inj userId
           (Entry "user" (Entry "id" NoEntry NoEntry) NoEntry)); reflexivity.
Defined.

(** ** Files: the name on the command line *)

Lemma afterPrefix_app (prefix rest : string) :
  afterPrefix prefix (prefix +:+ rest) = Some rest.
Proof.
  induction prefix as [|c prefix IH]; [reflexivity |].
  rewrite string_app_cons. cbn [afterPrefix]. now rewrite Ascii.eqb_refl.
Qed.

Lemma afterPrefix_startsWith (prefix s : string) :
  startsWith s prefix = false -> afterPrefix prefix s = None.
Proof.
  revert s. induction prefix as [|c prefix IH]; intros s; [discriminate |].
  destruct s as [|d s]; [reflexivity |]. cbn [startsWith afterPrefix].
  destruct (Ascii.eqb c d); [apply IH | reflexivity].
Qed.

Lemma includes_cons (c : ascii) (s search : string) :
  includes (String c s) search = false ->
  startsWith (String c s) search = false /\ includes s search = false.
Proof.
  cbn [includes]. destruct (startsWith (String c s) search); [discriminate | auto].
Qed.

(** No [.gql] starts inside a text that holds none, even when one follows. *)
Lemma afterPrefix_gql (c : ascii) (base : string) :
  includes (String c base) ".gql" = false ->
  afterPrefix ".gql" (String c base +:+ ".gql") = None.
Proof.
  intros H. apply includes_cons in H as [H _].
  destruct base as [|c2 [|c3 [|c4 base]]];
    rewrite ?string_app_cons, ?string_app_nil_l;
    cbn [startsWith] in H; cbn [afterPrefix].
  - destruct (Ascii.eqb "." c); reflexivity.
  - destruct (Ascii.eqb "." c); [| reflexivity].
    destruct (Ascii.eqb "g" c2); reflexivity.
  - destruct (Ascii.eqb "." c); [| reflexivity].
    destruct (Ascii.eqb "g" c2); [| reflexivity].
    destruct (Ascii.eqb "q" c3); reflexivity.
  - destruct (Ascii.eqb "." c); [| reflexivity].
    destruct (Ascii.eqb "g" c2); [| reflexivity].
    destruct (Ascii.eqb "q" c3); [| reflexivity].
    destruct (Ascii.eqb "l" c4); [discriminate H | reflexivity].
Qed.

Lemma removeFirst_absent (s search : string) :
  includes s search = false -> removeFirst s search = s.
Proof.
  induction s as [|c s IH]; intros H.
  - cbn [removeFirst]. destruct search; [discriminate H | reflexivity].
  - apply includes_cons in H as [Hhere Hlater]. cbn [removeFirst].
    rewrite (afterPrefix_startsWith _ _ Hhere). now rewrite (IH Hlater).
Qed.

Lemma removeFirst_gql (base : string) :
  includes base ".gql" = false -> removeFirst (base +:+ ".gql") ".gql" = base.
Proof.
  induction base as [|c base IH]; intros H; [reflexivity |].
  pose proof (afterPrefix_gql c base H) as Hnone.
  apply includes_cons in H as [_ Hlater].
  rewrite string_app_cons in *. cbn [removeFirst]. rewrite Hnone.
  now rewrite (IH Hlater).
Qed.

(** The name of a query may be given with or without the ending [.gql]:
    for a name that has no [.gql] in it, both spellings make [main] take
    the same name, and so the same file, the one [storeQueryToFile] writes
    for that name. *)
Theorem mainArguments_gql (node script op base : string) :
  includes base ".gql" = false ->
  mainArguments [node; script; op; base] = Return (Some (op, base)) /\
  mainArguments [node; script; op; base +:+ ".gql"] = Return (Some (op, base)).
Proof.
  intros H. unfold mainArguments. cbn [length Nat.ltb Nat.leb Nat.eqb negb].
  cbn. now rewrite (removeFirst_absent _ _ H), (removeFirst_gql _ H).
Qed.

Lemma mainArguments_gql_witness :
  includes "users" ".gql" = false /\
  mainArguments ["node"; "graphql"; "load"; "users"] =
    Return (Some ("load", "users")) /\
  mainArguments ["node"; "graphql"; "load"; "users" +:+ ".gql"] =
    Return (Some ("load", "users")).
Proof.
  split; [reflexivity |].
  apply (mainArguments_gql "node" "graphql" "load" "users"). reflexivity.
Defined.

(** Only the first [.gql] is taken out, wherever it is. *)
Example mainArguments_inner_gql :
  mainArguments ["node"; "graphql"; "run"; "old.gql.bak"] =
  Return (Some ("run", "old.bak")).
Proof. reflexivity. Qed.

(** One argument, or more than two, is a missing file. *)
Example mainArguments_count :
  mainArguments ["node"; "graphql"; "load"] = Throw (Error "Missing file argument") /\
  mainArguments ["node"; "graphql"; "load"; "a"; "b"] =
    Throw (Error "Missing file argument") /\
  mainArguments ["node"; "graphql"] = Return None.
Proof. repeat split. Qed.

(** ** Files: the token in the text *)

Lemma loginInfo_unfold (fileContent : string) :
  loginInfo fileContent =
  match afterPrefix "#authToken: " fileContent with
  | Some rest =>
      match nonSpaceRun rest with
      | EmptyString =>
          match fileContent with
          | EmptyString => None
          | String _ rest => loginInfo rest
          end
      | String c token => Some (String c token)
      end
  | None =>
      match fileContent with
      | EmptyString => None
      | String _ rest => loginInfo rest
      end
  end.
Proof. destruct fileContent; reflexivity. Qed.

Lemma nonSpaceRun_token (authToken rest : string) :
  allChars tokenChar authToken = true ->
  nonSpaceRun (authToken +:+ LF +:+ rest) = authToken.
Proof.
  induction authToken as [|c authToken IH]; intros H; [reflexivity |].
  cbn [allChars] in H. apply andb_prop in H as [Hc H].
  unfold tokenChar in Hc. apply andb_prop in Hc as [Hc _].
  rewrite string_app_cons. cbn [nonSpaceRun].
  apply negb_true_iff in Hc. rewrite Hc. now rewrite (IH H).
Qed.

(** A query stored to a file together with the token is logged in by that
    token when the file is loaded: for a token that is not empty and is made
    of ASCII characters other than white space, [main] finds in the text
    [storeQueryToFile] wrote the very token that was stored, whatever the
    query is, and so does not prompt for a login. *)
Theorem storedText_mainLogin (authToken queryString : string) :
  authToken <> "" ->
  allChars tokenChar authToken = true ->
  mainLogin (storedText true authToken queryString) = ByToken authToken.
Proof.
  intros Hne Hchars. unfold mainLogin, storedText.
  rewrite loginInfo_unfold, afterPrefix_app, (nonSpaceRun_token _ _ Hchars).
  destruct authToken; [congruence | reflexivity].
Qed.

Lemma storedText_mainLogin_witness :
  "authtokenS1" <> "" /\
  allChars tokenChar "authtokenS1" = true /\
  mainLogin (storedText true "authtokenS1" "query { me { id } }") =
    ByToken "authtokenS1".
Proof.
  split; [discriminate |]. split; [reflexivity |].
  apply (storedText_mainLogin "authtokenS1" "query { me { id } }");
    [discriminate | reflexivity].
Defined.

(** A token line anywhere in the text counts, and the first one wins. *)
Example mainLogin_anywhere :
  mainLogin ("query { me }" +:+ LF +:+ "# see #authToken: abc #authToken: def")
  = ByToken "abc" /\
  mainLogin "query { me }" = ByPrompt /\
  mainLogin (storedText true "" "query { me }") = ByPrompt.
Proof. repeat split. Qed.

(** ** Query Commands: what the builder does to the field cache *)

Lemma reordered_kept (w w' : world) :
  (forall key fields, populated w key fields -> populated w' key fields) ->
  reordered w w'.
Proof. intros Hkeep key fields H. exists fields. split; [now apply Hkeep | reflexivity]. Qed.

Lemma reordered_trans (w1 w2 w3 : world) :
  reordered w1 w2 -> reordered w2 w3 -> reordered w1 w3.
Proof.
  intros H12 H23 key fields H.
  destruct (H12 key fields H) as (fields2 & H2 & Hperm2).
  destruct (H23 key fields2 H2) as (fields3 & H3 & Hperm3).
  exists fields3. split; [exact H3 | now rewrite Hperm3].
Qed.

Lemma populated_same (w w' : world) :
  introspectionFieldsCache w' = introspectionFieldsCache w ->
  forall key fields, populated w' key fields <-> populated w key fields.
Proof. intros Hsame key fields. unfold populated. now rewrite Hsame. Qed.

Lemma validWorld_same (w w' : world) :
  validWorld w ->
  introspectionFieldsCache w' = introspectionFieldsCache w ->
  network w' = network w ->
  validWorld w'.
Proof.
  intros [Hclosed Hnamed] Hcache Hnet. split.
  - exact (closed_same w w' (populated_same w w' Hcache) Hclosed).
  - apply (namedWorld_same validName w); [exact Hnamed | exact Hcache |].
    rewrite Hnet. exact (proj2 Hnamed).
Qed.

(** A call of [introspectFields] on a valid path in a valid world. *)
Lemma introspectFields_valid (path : list string) (w w' : world)
    (c : completion (list string)) :
  validWorld w -> validPath path ->
  introspectFields path w = (c, w') ->
  validWorld w' /\
  (forall key fields, populated w key fields -> populated w' key fields) /\
  forall fields, c = Return fields ->
    validPath fields /\ populated w' (pathKey path) fields.
Proof.
  intros [Hclosed Hnamed] Hpath Hrun. unfold introspectFields in Hrun.
  assert (Hrev : validPath (rev (rev path))) by now rewrite rev_involutive.
  pose proof (introspectFields_from_stable (rev path) Hrev w Hclosed (proj2 Hnamed))
    as Hstable.
  rewrite Hrun in Hstable. cbn [snd] in Hstable.
  destruct Hstable as (Hclosed' & _ & Hkeep & _).
  destruct (introspectFields_from_named validName _ _ _ _ Hnamed Hrun)
    as [Hnamed' Hfields].
  split; [split; assumption |]. split; [exact Hkeep |].
  intros fields ->. split; [exact (Hfields fields eq_refl) |].
  destruct (introspectFields_from_populates _ _ _ _ Hrun) as [type Hentry].
  rewrite rev_involutive in Hentry. now exists type.
Qed.

(** Sorting the array a populated entry holds: the entry stays populated,
    with the same names in ascending order, and no other entry changes. *)
Lemma sortCached_valid (key : string) (fields : list string) (w : world) :
  validWorld w -> populated w key fields ->
  validWorld (snd (sortCached key fields w)) /\
  reordered w (snd (sortCached key fields w)).
Proof.
  intros [Hclosed Hnamed] [type Hentry].
  assert (Hfields : namedFields validName fields)
    by exact (proj1 Hnamed _ _ _ Hentry eq_refl).
  assert (Hiff : forall k,
            isPopulated (snd (sortCached key fields w)) k <-> isPopulated w k).
  { intros k. unfold isPopulated, populated.
    cbn [sortCached snd introspectionFieldsCache].
    destruct (decide (key = k)) as [<- | Hne].
    - rewrite lookup_alter_eq, Hentry. cbn. split; intros _; eauto.
    - now rewrite lookup_alter_ne by exact Hne. }
  split; [split |].
  - intros path n Hvalid Hp. apply Hiff. apply (Hclosed path n Hvalid).
    now apply Hiff.
  - exact (sortCached_named validName key fields w Hnamed Hfields).
  - intros k fs [t Hk]. unfold populated.
    cbn [sortCached snd introspectionFieldsCache].
    destruct (decide (key = k)) as [<- | Hne].
    + rewrite Hentry in Hk. injection Hk as <- <-.
      exists (sortNames fields). rewrite lookup_alter_eq, Hentry. cbn.
      split; [now exists type | apply merge_sort_Permutation].
    + exists fs. rewrite lookup_alter_ne by exact Hne.
      split; [now exists t | reflexivity].
Qed.

Lemma addChosen_valid (path : list string) (chosenFields : list string) :
  validPath path -> validPath chosenFields ->
  forall query pathsToFill,
    Forall validPath pathsToFill ->
    Forall validPath (snd (addChosen path chosenFields query pathsToFill)).
Proof.
  intros Hpath. unfold addChosen.
  induction 1 as [|field chosenFields Hfield _ IH]; intros query pathsToFill Hpaths;
    [exact Hpaths |].
  cbn [fold_left]. apply IH. constructor; [| exact Hpaths].
  apply Forall_app. split; [exact Hpath | now constructor].
Qed.

(** The worklist loop in a valid world, however it ends. *)
Lemma fillPaths_reorders (fuel : nat) :
  forall (query : operationTree) (pathsToFill : list (list string))
         (w w' : world) (c : completion (option operationTree)),
  validWorld w -> Forall validPath pathsToFill ->
  fillPaths fuel query pathsToFill w = (c, w') ->
  validWorld w' /\ reordered w w'.
Proof.
  assert (Hrefl : forall w, reordered w w) by (intros w; now apply reordered_kept).
  induction fuel as [|fuel IH]; intros query pathsToFill w w' c Hw Hpaths Hrun;
    destruct pathsToFill as [|path rest];
    try (cbn [fillPaths] in Hrun; unfold ret in Hrun; injection Hrun as <- <-;
         split; [exact Hw | apply Hrefl]).
  apply Forall_cons in Hpaths as [Hpath Hrest]. cbn [fillPaths] in Hrun.
  destruct (nodeAt path query) as [node|];
    [| unfold throw in Hrun; injection Hrun as <- <-;
       split; [exact Hw | apply Hrefl]].
  unfold bind at 1 in Hrun.
  destruct (introspectFields path w) as [[fields|e] w1] eqn:Efields;
    destruct (introspectFields_valid path w w1 _ Hw Hpath Efields)
      as (Hw1 & Hkeep1 & Hreturn);
    pose proof (reordered_kept w w1 Hkeep1) as H01;
    [| injection Hrun as <- <-; split; [exact Hw1 | exact H01]].
  destruct (Hreturn fields eq_refl) as [Hfields Hentry].
  destruct fields as [|f fields].
  { destruct (IH query rest w1 w' c Hw1 Hrest Hrun) as [Hv Hr].
    split; [exact Hv | exact (reordered_trans _ _ _ H01 Hr)]. }
  unfold bind at 1 in Hrun.
  destruct (sortCached_valid (pathKey path) (f :: fields) w1 Hw1 Hentry)
    as [Hw2 H12].
  cbn [sortCached snd] in Hw2, H12. cbn [sortCached] in Hrun.
  set (sorted := sortNames (f :: fields)) in *.
  set (w2 := {| introspectionFieldsCache := alter _ _ _ |}) in *.
  pose proof (reordered_trans _ _ _ H01 H12) as H02.
  unfold bind at 1 in Hrun.
  destruct (chooseFields fuel sorted w2) as [c3 w3] eqn:Echoose.
  destruct (chooseFields_effects fuel sorted w2 w3 c3 Echoose)
    as (Hc3 & _ & Hn3 & _ & Hsel).
  assert (Hw3 : validWorld w3) by exact (validWorld_same w2 w3 Hw2 Hc3 Hn3).
  assert (H03 : reordered w w3).
  { apply (reordered_trans _ _ _ H02). apply reordered_kept.
    intros key fs. now apply populated_same. }
  destruct c3 as [[chosenFields|]|e];
    try (unfold ret in Hrun; injection Hrun as <- <-;
         split; [exact Hw3 | exact H03]).
  destruct (Hsel chosenFields eq_refl) as [_ Hin].
  assert (Hchosen : validPath chosenFields).
  { pose proof (sortNames_named validName _ Hfields) as Hsorted.
    fold sorted in Hsorted. unfold validPath, namedFields in *.
    rewrite Forall_forall in Hsorted.
    eapply Forall_impl; [exact Hin |]. intros x Hx. apply Hsorted.
    now apply list_elem_of_In. }
  pose proof (addChosen_valid path chosenFields Hpath Hchosen query rest Hrest)
    as Hpaths'.
  destruct (addChosen path chosenFields query rest) as [query' paths'].
  cbn [snd] in Hpaths'.
  destruct (IH query' paths' w3 w' c Hw3 Hpaths' Hrun) as [Hv Hr].
  split; [exact Hv | exact (reordered_trans _ _ _ H03 Hr)].
Qed.

(** In a session (a cache of the shape calls of [introspectFields] give
    it, valid names cached and to come), [buildQuery] loses nothing of the
    field cache but the order: whatever the operator picks and the endpoint
    answers, and however the builder ends, every path that had its fields
    still has the same names, in some order, and the session can go on. *)
Theorem buildQuery_reorders (fuel : nat) (w : world) :
  validWorld w ->
  validWorld (snd (buildQuery fuel w)) /\
  reordered w (snd (buildQuery fuel w)).
Proof.
  intros Hw. unfold buildQuery, bind.
  assert (Hroot : Forall validPath [[]]) by (repeat constructor).
  destruct (fillPaths fuel NoEntry [[]] w) as [c w'] eqn:Efill.
  pose proof (fillPaths_reorders fuel NoEntry [[]] w w' c Hw Hroot Efill) as H.
  destruct c as [[query|]|e]; exact H.
Qed.

Lemma unsortedRoot_valid : validWorld unsortedRoot.
Proof.
  assert (Hcache : forall key e fields,
            introspectionFieldsCache unsortedRoot !! key = Some e ->
            entry_fields e = Some fields ->
            key = "" /\ fields = ["user"; "me"]).
  { intros key e fields Hkey Hfields. cbn [unsortedRoot introspectionFieldsCache] in Hkey.
    destruct (decide ("" = key)) as [<- | Hroot].
    - rewrite lookup_insert_eq in Hkey. injection Hkey as <-.
      cbn [entry_fields] in Hfields. injection Hfields as <-. auto.
    - rewrite lookup_insert_ne in Hkey by exact Hroot.
      destruct (decide ("user" = key)) as [<- | Huser].
      + rewrite lookup_insert_eq in Hkey. injection Hkey as <-. discriminate Hfields.
      + rewrite lookup_insert_ne in Hkey by exact Huser.
        destruct (decide ("me" = key)) as [<- | Hme].
        * rewrite lookup_insert_eq in Hkey. injection Hkey as <-.
          discriminate Hfields.
        * rewrite lookup_insert_ne in Hkey by exact Hme.
          rewrite lookup_empty in Hkey. discriminate Hkey. }
  split; [| split].
  - intros path n Hvalid [fields [type Hentry]].
    destruct (Hcache _ _ _ Hentry eq_refl) as [Hkey _].
    assert (Hnil : validPath []) by constructor.
    pose proof (pathKey_inj (path ++ [n]) [] Hvalid Hnil Hkey) as Heq.
    now destruct path.
  - intros key e fields Hkey Hfields.
    destruct (Hcache _ _ _ Hkey Hfields) as [_ ->]. now repeat constructor.
  - cbn [unsortedRoot network]. repeat constructor.
Qed.

Lemma buildQuery_reorders_witness :
  validWorld unsortedRoot /\
  validWorld (snd (buildQuery 8 unsortedRoot)) /\
  reordered unsortedRoot (snd (buildQuery 8 unsortedRoot)).
Proof.
  split; [exact unsortedRoot_valid |].
  exact (buildQuery_reorders 8 unsortedRoot unsortedRoot_valid).
Defined.

(** The order does change: the fields of the root came as [user], [me];
    after the builder the cache has them as [me], [user], and so has every
    later call of [introspectFields]. *)
Example buildQuery_sorts_cache :
  let w' := snd (buildQuery 8 unsortedRoot) in
  fst (buildQuery 8 unsortedRoot) =
    Return (Some (Query_executeQuery
      (Str ("query {" +:+ LF +:+ "  me {" +:+ LF +:+ "    id" +:+ LF +:+
            "  }" +:+ LF +:+ "}")) Undefined)) /\
  fst (introspectFields [] unsortedRoot) = Return ["user"; "me"] /\
  fst (introspectFields [] w') = Return ["me"; "user"].
Proof. vm_compute. repeat split. Qed.
